(** * Natural cubic splines: [Algorithms/polynomial/cubic_spline.py]

    A shallow embedding of the two spline builders ([cubic_spline4_matrix],
    [cubic_spline4]) and of the evaluator they share ([map_S]).

    Arithmetic.  The program computes with IEEE doubles (numpy float64);
    the point array is taken as an array of doubles.  In the builders every
    number is an exact rational of [Q], compared with [==]: an equation
    proved below about a segment is the exact-arithmetic content of a
    property the program can only meet up to rounding, and every inequation
    proved below separates two values by far more than any rounding error.
    A division by zero, which numpy answers with [inf] or [nan] and a
    warning (no exception), is answered by [Q] with [0]; no statement below
    depends on a value computed through such a division.

    The linear solve.  [numpy.linalg.solve] is LAPACK on doubles; here it
    is exact elimination.  On a system close to singular LAPACK can meet a
    zero pivot where the exact elimination finds none, and can find one on
    a singular system where rounding has left none exact.  The theorems on
    the dense builder therefore speak of the splines it returns and do not
    say that it returns one, and a [LinAlgError] is stated at written-out
    inputs only.

    The evaluator.  Rounding cannot be left out where it decides an
    integer: the evaluator is therefore given a second time on IEEE doubles
    (module [F64]), and what is stated of the segment lookup (C8, C9, C10)
    is stated of that one. *)

From Stdlib Require Import QArith Qpower Qround Qabs Qminmax ZArith List Arith Bool Lia Lqa
  Permutation Sorted Field Ring Setoid Morphisms.
From Stdlib Require PrimFloat FloatOps SpecFloat Uint63.
Import ListNotations.
Open Scope Q_scope.

(** ** Outcomes of a call *)

(** The exceptions that appear below.  [LinAlgError] is raised by
    [numpy.linalg.solve] on a singular matrix; [IndexError] by an index out
    of bounds; [ConversionError] stands for what [int] raises on a float that
    is not finite ([ValueError] on nan, [OverflowError] on inf).
    [InvalidInputError] is the validation error named by the specification:
    the program has no statement that raises it. *)
Inductive exn : Set :=
  | LinAlgError
  | IndexError
  | ConversionError
  | InvalidInputError.

Inductive result (A : Type) : Type :=
  | Ok (a : A)
  | Raise (e : exn).
Arguments Ok {A} a.
Arguments Raise {A} e.

Definition bind {A B : Type} (r : result A) (k : A -> result B) : result B :=
  match r with
  | Ok a => k a
  | Raise e => Raise e
  end.

Notation "x <- r ;; k" := (bind r (fun x => k))
  (at level 61, r at next level, right associativity).

(** ** numpy: one-dimensional float arrays *)

Module Np.

Definition array := list Q.

Fixpoint map2 {A B C : Type} (f : A -> B -> C) (a : list A) (b : list B) : list C :=
  match a, b with
  | x :: a', y :: b' => f x y :: map2 f a' b'
  | _, _ => []
  end.

(** Elementwise arithmetic on arrays of one shape (the builders combine no
    others). *)
Definition add : array -> array -> array := map2 Qplus.
Definition sub : array -> array -> array := map2 Qminus.
Definition mul : array -> array -> array := map2 Qmult.
Definition div : array -> array -> array := map2 Qdiv.

(** Scalar broadcasts: [k * a], [k / a], [a / k], [a ** 2]. *)
Definition scale (k : Q) (a : array) : array := map (Qmult k) a.
Definition rdiv (k : Q) (a : array) : array := map (Qdiv k) a.
Definition divs (a : array) (k : Q) : array := map (fun q => q / k) a.
Definition square (a : array) : array := map (fun q => q ^ 2) a.

(** Slices: [a[1:]] is [tl a], [a[:-1]] is [removelast a]. *)
Definition inner (a : array) : array := removelast (tl a).   (* a[1:-1] *)

(** [a[1:] -= w], in place: the first cell is kept. *)
Definition isub_tail (a w : array) : array :=
  match a with
  | [] => []
  | a0 :: a' => a0 :: sub a' w
  end.

(** [a[i] = q] for [0 <= i < len a]. *)
Fixpoint setitem (a : array) (i : nat) (q : Q) : array :=
  match a, i with
  | [], _ => []
  | _ :: a', O => q :: a'
  | x :: a', S j => x :: setitem a' j q
  end.

Definition getitem (a : array) (i : nat) : Q := nth i a 0.

(** [np.min], [np.max] of a non-empty array. *)
Definition min (a : array) : Q :=
  match a with
  | [] => 0
  | x :: a' => fold_left Qmin a' x
  end.
Definition max (a : array) : Q :=
  match a with
  | [] => 0
  | x :: a' => fold_left Qmax a' x
  end.

(** [a.argsort()]: the indices that sort [a].  The keys are inserted, the
    last one first, into a sorted list of (key, index) pairs, each in front
    of the keys that are not smaller: equal keys keep the order of the
    input, as numpy's sort leaves them on a short array.  On pairwise
    different keys every sort gives the same indices. *)
Fixpoint insert_key (k : Q * nat) (l : list (Q * nat)) : list (Q * nat) :=
  match l with
  | [] => [k]
  | k' :: l' =>
      if Qle_bool (fst k) (fst k') then k :: l else k' :: insert_key k l'
  end.

Definition sort_keys (l : list (Q * nat)) : list (Q * nat) :=
  fold_right insert_key [] l.

Definition argsort (a : array) : list nat :=
  map snd (sort_keys (combine a (seq 0 (length a)))).

(** [x // y] on floats and [int]. *)
Definition floordiv (x y : Q) : Q := inject_Z (Qfloor (x / y)).

Definition int (x : Q) : Z :=
  if Qle_bool 0 x then Qfloor x else Qceiling x.

End Np.

(** ** sympy: expressions in the one symbol [x_] *)

Module Sym.

Inductive expr : Type :=
  | Num (q : Q)
  | X
  | Add (a b : expr)
  | Sub (a b : expr)
  | Mul (a b : expr)
  | Pow (a : expr) (k : nat).

(** [sp.lambdify(x, e, 'numpy')]: the function of one number, with the
    constants of the expression as they are (the printer of sympy writes a
    float constant with 15 digits). *)
Fixpoint lambdify (e : expr) (p : Q) : Q :=
  match e with
  | Num q => q
  | X => p
  | Add a b => lambdify a p + lambdify b p
  | Sub a b => lambdify a p - lambdify b p
  | Mul a b => lambdify a p * lambdify b p
  | Pow a k => lambdify a p ^ Z.of_nat k
  end.

(** [sp.diff(e, x)]. *)
Fixpoint diff (e : expr) : expr :=
  match e with
  | Num _ => Num 0
  | X => Num 1
  | Add a b => Add (diff a) (diff b)
  | Sub a b => Sub (diff a) (diff b)
  | Mul a b => Add (Mul (diff a) b) (Mul a (diff b))
  | Pow a k =>
      match k with
      | O => Num 0
      | S j => Mul (Mul (Num (inject_Z (Z.of_nat k))) (Pow a j)) (diff a)
      end
  end.

(** [sp.Poly(e, x)]: the coefficients of the expanded polynomial, the
    constant term first, and [e.expand().coeff(x, k)]. *)
Fixpoint padd (a b : list Q) : list Q :=
  match a, b with
  | [], _ => b
  | _, [] => a
  | p :: a', q :: b' => (p + q) :: padd a' b'
  end.

Definition pscale (k : Q) (a : list Q) : list Q := map (Qmult k) a.

Fixpoint pmul (a b : list Q) : list Q :=
  match a with
  | [] => []
  | p :: a' => padd (pscale p b) (0 :: pmul a' b)
  end.

Fixpoint ppow (a : list Q) (k : nat) : list Q :=
  match k with
  | O => [1]
  | S j => pmul a (ppow a j)
  end.

Fixpoint as_poly (e : expr) : list Q :=
  match e with
  | Num q => [q]
  | X => [0; 1]
  | Add a b => padd (as_poly a) (as_poly b)
  | Sub a b => padd (as_poly a) (pscale (- (1)) (as_poly b))
  | Mul a b => pmul (as_poly a) (as_poly b)
  | Pow a k => ppow (as_poly a) k
  end.

Definition coeff (e : expr) (k : nat) : Q := nth k (as_poly e) 0.

(** The value of a list of coefficients at [p]. *)
Definition peval (a : list Q) (p : Q) : Q :=
  fold_right (fun c acc => c + p * acc) 0 a.

(** Arrays of expressions, with the broadcasts the builders use. *)
Definition num_minus_x (a : Np.array) : list expr := map (fun q => Sub (Num q) X) a.
Definition x_minus_num (a : Np.array) : list expr := map (fun q => Sub X (Num q)) a.
Definition pow (es : list expr) (k : nat) : list expr := map (fun e => Pow e k) es.
Definition scale (a : Np.array) (es : list expr) : list expr :=
  Np.map2 (fun q e => Mul (Num q) e) a es.
Definition add : list expr -> list expr -> list expr := Np.map2 Add.

End Sym.
Import Sym.

(** ** The evaluator: [map_S]

    On exact rationals, as the builders are; module [F64] below has it on
    doubles. *)

(** A point array is the list of its rows [(x, y)]. *)
Definition points_t := list (Q * Q).

Definition col0 (points : points_t) : Np.array := map fst points.
Definition col1 (points : points_t) : Np.array := map snd points.

(** What [map_S] returns is a closure over [func], [start], [end] and [n];
    the record keeps the expressions that [func] compiles. *)
Record spline : Type := mkSpline {
  sp_S : list expr;
  sp_start : Q;
  sp_end : Q;
  sp_n : nat
}.

Definition map_S (S : list expr) (points : points_t) : spline :=
  let n := (length points - 1)%nat in
  let start := Np.min (col0 points) in
  let end_ := Np.max (col0 points) in
  mkSpline S start end_ n.

(** [map_points]: [int((p - start) // (rang / n)) if p != end else n - 1].
    When the width [rang / n] is zero the quotient is not finite and [int]
    raises. *)
Definition map_points (sp : spline) (p : Q) : result Z :=
  let rang := sp_end sp - sp_start sp in
  if negb (Qeq_bool p (sp_end sp)) then
    if Qeq_bool (rang / inject_Z (Z.of_nat (sp_n sp))) 0 then Raise ConversionError
    else Ok (Np.int (Np.floordiv (p - sp_start sp) (rang / inject_Z (Z.of_nat (sp_n sp)))))
  else Ok (Z.of_nat (sp_n sp) - 1)%Z.

(** [func[i]] on a Python list: a negative index counts from the end. *)
Definition list_getitem {A : Type} (l : list A) (i : Z) : result A :=
  let len := Z.of_nat (length l) in
  let j := (if i <? 0 then len + i else i)%Z in
  if ((0 <=? j) && (j <? len))%Z then
    match nth_error l (Z.to_nat j) with
    | Some a => Ok a
    | None => Raise IndexError
    end
  else Raise IndexError.

(** [splines(p)] for one number: [func[map_points(p)](p)]. *)
Definition splines (sp : spline) (p : Q) : result Q :=
  i <- map_points sp p ;;
  f <- list_getitem (map lambdify (sp_S sp)) i ;;
  Ok (f p).

(** ** The evaluator in binary64

    Of the evaluator, [map_points] is where rounding decides an integer.
    Here it is once more on IEEE doubles: [p - start], [end - start] and
    [rang / n] are the rounded operations; [//] is the floor of the exact
    quotient of its two operands. *)

Module F64.

Import PrimFloat FloatOps SpecFloat.

(** The rational a finite double stands for. *)
Definition exact (x : float) : option Q :=
  match Prim2SF x with
  | S754_zero _ => Some 0
  | S754_finite s m e => Some ((if s then - (1) else 1) * inject_Z (Z.pos m) * 2 ^ e)
  | S754_infinity _ | S754_nan => None
  end.

(** Where a quotient of two doubles leaves their range: from
    [2^1024 - 2^970] on it rounds to [inf]. *)
Definition overflow : Q := inject_Z (2 ^ 1024 - 2 ^ 970).

(** [int(a // b)]; a quotient that is not finite makes [int] raise.  The
    floor is that of the exact quotient of the two doubles.  numpy takes
    the remainder [m = fmod(a, b)], which does not round, divides [a - m]
    by [b], which rounds twice, and snaps the result to the nearest
    integer: as long as the quotient stays below [2^50] in magnitude the
    two roundings move it by less than a half, and what numpy returns is
    the floor of the exact quotient.  The statements on the lookup keep to
    such quotients; a larger one numpy may miss by a unit in its last
    place. *)
Definition int_floordiv (a b : float) : result Z :=
  match exact a, exact b with
  | Some qa, Some qb =>
      if Qeq_bool qb 0 then Raise ConversionError
      else if Qle_bool overflow (Qabs (qa / qb)) then Raise ConversionError
      else Ok (Qfloor (qa / qb))
  | Some qa, None =>
      if is_nan b then Raise ConversionError
      else if Qeq_bool qa 0 || Bool.eqb (Qle_bool 0 qa) (negb (get_sign b)) then Ok 0%Z
      else Ok (-1)%Z
  | None, _ => Raise ConversionError
  end.

(** The double of the count [n] (an array has fewer than [2^63] rows). *)
Definition of_nat (n : nat) : float := of_uint63 (Uint63.of_Z (Z.of_nat n)).

(** [int((p - start) // (rang / n)) if p != end else n - 1] *)
Definition map_points (start end_ : float) (n : nat) (p : float) : result Z :=
  let rang := sub end_ start in
  if negb (eqb p end_) then int_floordiv (sub p start) (div rang (of_nat n))
  else Ok (Z.of_nat n - 1)%Z.

(** The doubles of the sample query: [-1.0], [1.0], [2.0], and the largest
    double below [1.0], which is [1 - 2^-53] and prints as
    [0.9999999999999999]. *)
Definition minus_one : float := (-1)%float.
Definition one : float := 1%float.
Definition two : float := 2%float.
Definition below_one : float := 0x1.fffffffffffffp-1%float.

(** The rest of [map_S] on doubles.  [np.min] and [np.max] reduce with
    [minimum] and [maximum], which keep [a] when [a < b] (when [a > b]) or
    when [a] is nan; the point array has at least one row wherever a
    builder calls [map_S]. *)
Definition minimum (a b : float) : float := if ltb a b || is_nan a then a else b.
Definition maximum (a b : float) : float := if ltb b a || is_nan a then a else b.

Definition min (a : list float) : float :=
  match a with
  | [] => nan
  | x :: a' => fold_left minimum a' x
  end.
Definition max (a : list float) : float :=
  match a with
  | [] => nan
  | x :: a' => fold_left maximum a' x
  end.

(** What [map_S] returns: [splines], closed over [func], [start], [end]
    and [n].  [func] is the list of the compiled segments, one function of
    a double for each expression of [S]. *)
Record evaluator : Type := mkEvaluator {
  ev_func : list (float -> float);
  ev_start : float;
  ev_end : float;
  ev_n : nat
}.

Definition map_S (func : list (float -> float)) (points : list (float * float))
  : evaluator :=
  let n := (length points - 1)%nat in
  let start := min (map fst points) in
  let end_ := max (map fst points) in
  mkEvaluator func start end_ n.

(** [map_points(p)] and [splines(p)] of the closure. *)
Definition index (ev : evaluator) (p : float) : result Z :=
  map_points (ev_start ev) (ev_end ev) (ev_n ev) p.

Definition splines (ev : evaluator) (p : float) : result float :=
  i <- index ev p ;;
  f <- list_getitem (ev_func ev) i ;;
  Ok (f p).

(** Sample inputs on doubles: the points of a sample call kept in the
    program's comments, the two points [(-1, 0)], [(1, 2)], and the query
    [0.7]. *)
Definition three_tenths : float := 0x1.3333333333333p-2%float.
Definition seven_tenths : float := 0x1.6666666666666p-1%float.
Definition pts_sample : list (float * float) :=
  [(0, three_tenths); (1, 1); (2, 5); (5, 7)]%float.
Definition pts_two : list (float * float) := [(-1, 0); (1, 2)]%float.

End F64.

(** ** Sorting on entry: [points[points[:, 0].argsort()]] *)

Definition take_rows (points : points_t) (idx : list nat) : points_t :=
  map (fun i => nth i points (0, 0)) idx.

Definition sort_points (points : points_t) : points_t :=
  take_rows points (Np.argsort (col0 points)).

(** ** The tridiagonal moments builder: [cubic_spline4] *)

(** The loop [for i in range(n - 1, 0, -1)]; [k] is the current [i]. *)
Fixpoint back_substitute (k : nat) (h u v z : Np.array) : Np.array :=
  match k with
  | O => z
  | S j =>
      let zi := (Np.getitem v j - Np.getitem h k * Np.getitem z (S k)) / Np.getitem u j in
      back_substitute j h u v (Np.setitem z k zi)
  end.

(** The two statements under [# rank]. *)
Definition rank_u (h u : Np.array) : Np.array :=
  Np.isub_tail u (Np.div (Np.square (Np.inner h)) (removelast u)).

Definition rank_v (h u v : Np.array) : Np.array :=
  Np.isub_tail v (Np.mul (removelast v) (Np.div (Np.inner h) (removelast u))).

(** Lines 60-62, on sorted points: widths [h], slopes [b], diagonal [u] and
    right-hand side [v] of the system for the interior moments. *)
Definition widths (points : points_t) : Np.array :=
  let x := col0 points in
  Np.sub (tl x) (removelast x).

Definition slopes (points : points_t) : Np.array :=
  let y := col1 points in
  Np.mul (Np.sub (tl y) (removelast y)) (Np.rdiv 6 (widths points)).

Definition diagonal (points : points_t) : Np.array :=
  let h := widths points in
  Np.scale 2 (Np.add (tl h) (removelast h)).

Definition rhs (points : points_t) : Np.array :=
  let b := slopes points in
  Np.sub (tl b) (removelast b).

Record moments : Type := mkMoments {
  m_h : Np.array;
  m_u : Np.array;
  m_v : Np.array;
  m_z : Np.array
}.

(** Lines 59-72, on sorted points. *)
Definition solve_moments (points : points_t) : moments :=
  let n := (length points - 1)%nat in
  let h := widths points in
  let u := diagonal points in
  let v := rhs points in
  let u := rank_u h u in
  let v := rank_v h u v in
  (* np.empty leaves the cells unset; each one is written before it is read *)
  let z := repeat 0 (n + 1) in
  let z := Np.setitem (Np.setitem z 0 0) n 0 in
  let z := back_substitute (n - 1) h u v z in
  mkMoments h u v z.

(** Lines 74-79. *)
Definition moments_S (points : points_t) (m : moments) : list expr :=
  let x := col0 points in
  let y := col1 points in
  let h := m_h m in
  let z := m_z m in
  let c := Np.sub (Np.div (tl y) h) (Np.divs (Np.mul (tl z) h) 6) in
  let d := Np.sub (Np.div (removelast y) h) (Np.divs (Np.mul (removelast z) h) 6) in
  let S :=
    Sym.add
      (Sym.scale (Np.div (removelast z) (Np.scale 6 h))
                 (Sym.pow (Sym.num_minus_x (tl x)) 3))
      (Sym.scale (Np.div (tl z) (Np.scale 6 h))
                 (Sym.pow (Sym.x_minus_num (removelast x)) 3)) in
  Sym.add S
    (Sym.add (Sym.scale c (Sym.x_minus_num (removelast x)))
             (Sym.scale d (Sym.num_minus_x (tl x)))).

Definition cubic_spline4_S (points : points_t) : list expr :=
  let points := sort_points points in
  moments_S points (solve_moments points).

Definition cubic_spline4 (points : points_t) : result spline :=
  match points with
  | [] => Raise IndexError          (* points[:, 0] on an array of shape (0,) *)
  | _ =>
      let sorted := sort_points points in
      Ok (map_S (moments_S sorted (solve_moments sorted)) sorted)
  end.

(** ** numpy: two-dimensional arrays and [numpy.linalg.solve] *)

Module Np2.

(** A two-dimensional array: its shape and its cells.  A slice is a view,
    that is a smaller shape and a shift of the indices. *)
Record ndarray (A : Type) : Type := mkArray {
  nrows : nat;
  ncols : nat;
  cell : nat -> nat -> A
}.
Arguments mkArray {A} nrows ncols cell.
Arguments nrows {A} _.
Arguments ncols {A} _.
Arguments cell {A} _ _ _.

(** [a[:-1, :]], [a[1:, :]], [a[:, :-1]], [a[:, 1:]] *)
Definition but_last_row {A} (a : ndarray A) : ndarray A :=
  mkArray (nrows a - 1) (ncols a) (cell a).
Definition but_first_row {A} (a : ndarray A) : ndarray A :=
  mkArray (nrows a - 1) (ncols a) (fun i j => cell a (S i) j).
Definition but_last_col {A} (a : ndarray A) : ndarray A :=
  mkArray (nrows a) (ncols a - 1) (cell a).
Definition but_first_col {A} (a : ndarray A) : ndarray A :=
  mkArray (nrows a) (ncols a - 1) (fun i j => cell a i (S j)).

(** [np.arange(4 * n).reshape((-1, 4))] *)
Definition arange4 (n : nat) : ndarray nat :=
  mkArray n 4 (fun i j => (4 * i + j)%nat).

(** Elementwise integer arithmetic on an index array. *)
Definition imap (f : nat -> nat) (I : ndarray nat) : ndarray nat :=
  mkArray (nrows I) (ncols I) (fun i j => f (cell I i j)).

(** [np.vander(x, N=4, increasing=False)]: row [i] is [x_i^3, x_i^2, x_i, 1],
    the powers of an array of doubles.  (An array of integers is not
    converted by [cubic_spline4_matrix], and its powers wrap in [int64].) *)
Definition vander4 (x : Np.array) : ndarray Q :=
  mkArray (length x) 4 (fun i j => Np.getitem x i ^ Z.of_nat (3 - j)).

(** [V * np.array(w)]: the row [w] is broadcast over the rows of [V]. *)
Definition mul_row (V : ndarray Q) (w : list Q) : ndarray Q :=
  mkArray (nrows V) (ncols V) (fun i j => cell V i j * nth j w 0).

Definition neg (V : ndarray Q) : ndarray Q :=
  mkArray (nrows V) (ncols V) (fun i j => - cell V i j).

(** One row [a[i, :]] as a one-dimensional array. *)
Definition row {A} (a : ndarray A) (i : nat) : list A :=
  map (cell a i) (seq 0 (ncols a)).

(** The float matrix [M] is the function from (row, column) to the cell;
    the builder knows its shape. *)
Definition matrix := nat -> nat -> Q.

Definition zeros : matrix := fun _ _ => 0.

Definition setitem (M : matrix) (r c : nat) (q : Q) : matrix :=
  fun r' c' => if ((r' =? r) && (c' =? c))%nat then q else M r' c'.

(** [M[R, C] = V] for index arrays [R], [C] and values [V] of one shape:
    the cells are written one after the other, row by row. *)
Definition assign (M : matrix) (R C : ndarray nat) (V : ndarray Q) : matrix :=
  fold_left (fun M' ij => setitem M' (cell R (fst ij) (snd ij)) (cell C (fst ij) (snd ij))
                                  (cell V (fst ij) (snd ij)))
            (list_prod (seq 0 (nrows R)) (seq 0 (ncols R))) M.

(** [M[R, C]] *)
Definition take (M : matrix) (R C : ndarray nat) : ndarray Q :=
  mkArray (nrows R) (ncols R) (fun i j => M (cell R i j) (cell C i j)).

(** [M[r, c0:c0+len(vs)] = vs] *)
Definition assign_slice (M : matrix) (r c0 : nat) (vs : list Q) : matrix :=
  fold_left (fun M' jv => setitem M' r (c0 + fst jv) (snd jv))
            (combine (seq 0 (length vs)) vs) M.

(** The rows of the [N x N] matrix. *)
Definition rows (N : nat) (M : matrix) : list (list Q) :=
  map (fun r => map (M r) (seq 0 N)) (seq 0 N).

(** [a.reshape((-1, 4))] of a one-dimensional array. *)
Fixpoint reshape4 (fuel : nat) (a : list Q) : list (list Q) :=
  match fuel, a with
  | S f, q0 :: q1 :: q2 :: q3 :: a' => [q0; q1; q2; q3] :: reshape4 f a'
  | _, _ => []
  end.

Definition dot (a b : list Q) : Q :=
  fold_right Qplus 0 (Np.mul a b).

(** *** [numpy.linalg.solve]

    LAPACK's [gesv]: elimination with partial pivoting (in each column the
    remaining row with the largest entry is the pivot row), then
    substitution; a column with no pivot makes the matrix singular.  The
    elimination is carried out on exact rationals, where LAPACK rounds every
    step.  An equation is a row of coefficients and its right-hand side. *)
Definition equation := (list Q * Q)%type.

Definition lead (e : equation) : Q := hd 0 (fst e).

Fixpoint pivot (eqs : list equation) : option (equation * list equation) :=
  match eqs with
  | [] => None
  | e :: rest =>
      match pivot rest with
      | None => if Qeq_bool (lead e) 0 then None else Some (e, rest)
      | Some (p, others) =>
          if Qle_bool (Qabs (lead p)) (Qabs (lead e)) then Some (e, rest)
          else Some (p, e :: others)
      end
  end.

(** Subtract from [e] the multiple of [p] that cancels its first column,
    and drop that column. *)
Definition eliminate (p e : equation) : equation :=
  let m := lead e / lead p in
  (Np.map2 (fun a b => Qred (a - m * b)) (tl (fst e)) (tl (fst p)),
   Qred (snd e - m * snd p)).

Fixpoint gauss (k : nat) (eqs : list equation) : option (list Q) :=
  match k with
  | O => Some []
  | S k' =>
      match pivot eqs with
      | None => None
      | Some (p, others) =>
          match gauss k' (map (eliminate p) others) with
          | None => None
          | Some sol =>
              Some (Qred ((snd p - dot (tl (fst p)) sol) / lead p) :: sol)
          end
      end
  end.

Definition solve (M : list (list Q)) (A : list Q) : result (list Q) :=
  match gauss (length M) (combine M A) with
  | Some sol => Ok sol
  | None => Raise LinAlgError
  end.

End Np2.

(** ** The dense builder: [cubic_spline4_matrix] *)

(** Lines 20-33, on sorted points: the matrix [M] and the vector [A].
    [idx] is narrowed twice on the way ([idx[:-1, :-1]], then [idx[:, :-1]]);
    each group of assignments is given the array [idx] it sees. *)

(** Lines 24-25: each segment takes its two end values. *)
Definition assign_values (X : Np2.ndarray Q) (n : nat) (M : Np2.matrix) : Np2.matrix :=
  let idx := Np2.arange4 n in
  let M := Np2.assign M (Np2.imap (fun k => k / 4)%nat idx) idx (Np2.but_last_row X) in
  let M := Np2.assign M (Np2.imap (fun k => k / 4 + n)%nat idx) idx (Np2.but_first_row X) in
  M.

(** Lines 26-28: first derivatives agree at the interior breakpoints. *)
Definition assign_slopes (X : Np2.ndarray Q) (n : nat) (M : Np2.matrix) : Np2.matrix :=
  let idx := Np2.but_last_col (Np2.but_last_row (Np2.arange4 n)) in
  let M := Np2.assign M (Np2.imap (fun k => k / 4 + n * 2)%nat idx) idx
             (Np2.mul_row (Np2.but_first_col (Np2.but_last_row (Np2.but_first_row X)))
                          [3; 2; 1]) in
  let M := Np2.assign M (Np2.imap (fun k => k / 4 + n * 2)%nat idx)
             (Np2.imap (fun k => k + 4)%nat idx)
             (Np2.neg (Np2.take M (Np2.imap (fun k => k / 4 + n * 2)%nat idx) idx)) in
  M.

(** Lines 29-31: second derivatives agree at the interior breakpoints. *)
Definition assign_curvatures (X : Np2.ndarray Q) (n : nat) (M : Np2.matrix) : Np2.matrix :=
  let idx := Np2.but_last_col (Np2.but_last_col (Np2.but_last_row (Np2.arange4 n))) in
  let M := Np2.assign M (Np2.imap (fun k => k / 4 + n * 3 - 1)%nat idx) idx
             (Np2.mul_row
                (Np2.but_first_col
                   (Np2.but_first_col (Np2.but_last_row (Np2.but_first_row X))))
                [6; 2]) in
  let M := Np2.assign M (Np2.imap (fun k => k / 4 + n * 3 - 1)%nat idx)
             (Np2.imap (fun k => k + 4)%nat idx)
             (Np2.neg (Np2.take M (Np2.imap (fun k => k / 4 + n * 3 - 1)%nat idx) idx)) in
  M.

(** Line 32: [M[-2, :2]] and [M[-1, -4:-2]], the second derivative at the
    two ends. *)
Definition assign_natural (X : Np2.ndarray Q) (n : nat) (M : Np2.matrix) : Np2.matrix :=
  let first := Np.mul (tl (tl (Np2.row X 0))) [6; 2] in
  let last_ := Np.mul (tl (tl (Np2.row X (Np2.nrows X - 1)))) [6; 2] in
  let M := Np2.assign_slice M (4 * n - 2) 0 first in
  let M := Np2.assign_slice M (4 * n - 1) (4 * n - 4) last_ in
  M.

Definition build_M (x : Np.array) (n : nat) : Np2.matrix :=
  let X := Np2.vander4 x in
  assign_natural X n
    (assign_curvatures X n
       (assign_slopes X n
          (assign_values X n Np2.zeros))).

Definition build_A (y : Np.array) (n : nat) : Np.array :=
  removelast y ++ tl y ++ repeat 0 (2 * n).

(** Line 38: [coeff[:, 0] * x_ ** 3 + coeff[:, 1] * x_ ** 2 + coeff[:, 2] * x_ + coeff[:, 3]] *)
Definition cubic (r : list Q) : expr :=
  Add (Add (Add (Mul (Num (nth 0 r 0)) (Pow X 3)) (Mul (Num (nth 1 r 0)) (Pow X 2)))
           (Mul (Num (nth 2 r 0)) X))
      (Num (nth 3 r 0)).

Definition dense_S (coeff : list Q) (n : nat) : list expr :=
  map cubic (Np2.reshape4 n coeff).

Definition cubic_spline4_matrix (points : points_t) : result spline :=
  match points with
  | [] | [_] => Raise IndexError    (* no column 0, or M[-2, :2] on an empty matrix *)
  | _ =>
      let sorted := sort_points points in
      let x := col0 sorted in
      let y := col1 sorted in
      let n := (length sorted - 1)%nat in
      coeff <- Np2.solve (Np2.rows (4 * n) (build_M x n)) (build_A y n) ;;
      Ok (map_S (dense_S coeff n) sorted)
  end.

(** ** The elimination the specification describes

    "for i from 1 to n-2, update u_i -= h_i^2/u_{i-1};
     v_i -= v_{i-1}*h_i/u_{i-1}", one step after the other, every step
    reading what the step before has written. *)
Fixpoint thomas_steps (count i : nat) (h u v : Np.array) : Np.array * Np.array :=
  match count with
  | O => (u, v)
  | S count' =>
      let u' := Np.setitem u i
                  (Np.getitem u i - Np.getitem h i ^ 2 / Np.getitem u (i - 1)) in
      let v' := Np.setitem v i
                  (Np.getitem v i
                   - Np.getitem v (i - 1) * Np.getitem h i / Np.getitem u (i - 1)) in
      thomas_steps count' (S i) h u' v'
  end.

Definition thomas_forward (h u v : Np.array) : Np.array * Np.array :=
  thomas_steps (length u - 1) 1 h u v.

(** ** Segments and their derivatives *)

(** [s'(p)] and [s''(p)] of a segment expression. *)
Definition d1 (s : expr) (p : Q) : Q := lambdify (diff s) p.
Definition d2 (s : expr) (p : Q) : Q := lambdify (diff (diff s)) p.

(** The expression of segment [i]. *)
Definition segment (S : list expr) (i : nat) : expr := nth i S (Num 0).

(** ** Sample point sets *)

(** Five evenly spaced points: the smallest case in which the system for
    the interior moments has three unknowns. *)
Definition pts5 : points_t := [(0, 0); (1, 1); (2, 0); (3, 1); (4, 0)].

(** Three points whose domain is [[-1, 1]]. *)
Definition pts_around_zero : points_t := [(- (1), 0); (0, 1); (1, 0)].

(** Four points with uneven spacing. *)
Definition pts_uneven : points_t := [(0, 0); (1, 1); (2, 0); (10, 0)].

(** The points of a sample call kept in the program's comments, and the
    spline that the moments builder returns for them. *)
Definition pts_sample : points_t := [(0, 3 # 10); (1, 1); (2, 5); (5, 7)].

Definition sample_spline : spline :=
  Eval vm_compute in
    match cubic_spline4 pts_sample with
    | Ok sp => sp
    | Raise _ => mkSpline [] 0 0 0
    end.

(** ** Valid point sets *)

(** Pairwise-distinct x-values. *)
Definition distinct_x (points : points_t) : Prop :=
  ForallOrdPairs (fun p q => ~ fst p == fst q) points.

(** Some x-value occurs twice. *)
Definition repeated_x (points : points_t) : Prop :=
  exists i j, (i < j < length points)%nat /\
    nth i (col0 points) 0 == nth j (col0 points) 0.

(** The sorted x-values advance by one step [w]. *)
Definition evenly_spaced (points : points_t) : Prop :=
  let xs := col0 (sort_points points) in
  exists w, 0 < w /\
    forall i, (i < length points)%nat ->
      nth i xs 0 == nth 0 xs 0 + inject_Z (Z.of_nat i) * w.

(** At least two points, pairwise-distinct x-values. *)
Definition valid (points : points_t) : Prop :=
  (2 <= length points)%nat /\ distinct_x points.

(** Rows in ascending, respectively strictly ascending, order of [x]. *)
Definition x_le (p q : Q * Q) : Prop := fst p <= fst q.
Definition x_lt (p q : Q * Q) : Prop := fst p < fst q.
Definition ascending (points : points_t) : Prop := StronglySorted x_lt points.
Definition key_le (a b : Q * nat) : Prop := fst a <= fst b.

(** The value a built spline returns at [q], from the points. *)
Definition eval_with (build : points_t -> result spline) (points : points_t) (q : Q)
  : result Q :=
  sp <- build points ;; splines sp q.

(** ** Linear systems *)

(** [sol] satisfies the equation [e]; [c] is in the kernel of its row. *)
Definition satisfies (sol : list Q) (e : Np2.equation) : Prop :=
  Np2.dot (fst e) sol == snd e.
Definition annihilates (c : list Q) (e : Np2.equation) : Prop :=
  Np2.dot (fst e) c == 0.
Definition all_zero (c : list Q) : Prop := Forall (fun q => q == 0) c.
Definition width_is (k : nat) (e : Np2.equation) : Prop := length (fst e) = k.

(** [k] rows of [k] cells, and the matrices whose kernel is trivial. *)
Definition square (k : nat) (M : list (list Q)) : Prop :=
  length M = k /\ Forall (fun r => length r = k) M.

Definition kernel_trivial (k : nat) (M : list (list Q)) : Prop :=
  forall c, length c = k ->
            (forall i, (i < k)%nat -> Np2.dot (nth i M []) c == 0) -> all_zero c.

(** The sum of [g] over a list of indices. *)
Definition big (g : nat -> Q) (l : list nat) : Q := fold_right Qplus 0 (map g l).

(** A segment in the form the moments builder writes (lines 78-79). *)
Definition moment_form (A B C D a b : Q) : expr :=
  Add (Add (Mul (Num A) (Pow (Sub (Num b) X) 3)) (Mul (Num B) (Pow (Sub X (Num a)) 3)))
      (Add (Mul (Num C) (Sub X (Num a))) (Mul (Num D) (Sub (Num b) X))).

(** A spline that one of the builders returns for a valid point set. *)
Definition built (sp : spline) : Prop :=
  exists points, valid points /\
    (cubic_spline4_matrix points = Ok sp \/ cubic_spline4 points = Ok sp).

(** ** Further notions *)

(** [e.expand()] of a segment as the row [a, b, c, d] of its cubic
    [a x^3 + b x^2 + c x + d], and the rows of all segments in the layout of
    the dense builder's [coeff] before its reshape. *)
Definition expanded (s : expr) : list Q := [coeff s 3; coeff s 2; coeff s 1; coeff s 0].
Definition expanded_all (segs : list expr) : list Q := flat_map expanded segs.

(** Every point lies on the line [y = a x + b]. *)
Definition collinear (a b : Q) (points : points_t) : Prop :=
  Forall (fun pt => snd pt == a * fst pt + b) points.

(** The conditions of the natural cubic spline through [points] (rows in
    ascending order of [x]) on a list of segments: every segment takes the
    values of its two breakpoints, neighbours share the first and second
    derivative at the breakpoint between them, and the second derivative is
    zero at the two ends. *)
Definition spline_conditions (points : points_t) (segs : list expr) : Prop :=
  let n := (length points - 1)%nat in
  let x i := nth i (col0 points) 0 in
  let y i := nth i (col1 points) 0 in
  let s i := segment segs i in
  (forall i, (i < n)%nat ->
     lambdify (s i) (x i) == y i /\ lambdify (s i) (x (S i)) == y (S i)) /\
  (forall i, (S i < n)%nat ->
     d1 (s i) (x (S i)) == d1 (s (S i)) (x (S i)) /\
     d2 (s i) (x (S i)) == d2 (s (S i)) (x (S i))) /\
  d2 (s 0%nat) (x 0%nat) == 0 /\ d2 (s (n - 1)%nat) (x n) == 0.

(** * Properties *)

(** Closed facts on concrete rationals are settled by evaluation. *)
Ltac by_evaluation :=
  lazymatch goal with
  | |- _ /\ _ => split; by_evaluation
  | |- ~ _ => let H := fresh in vm_compute; intro H; discriminate H
  | |- _ => vm_compute; reflexivity
  end.

(** ** Arrays: lengths and cells *)

Section Arrays.

Context {A B C : Type}.

Lemma length_map2 (f : A -> B -> C) (a : list A) (b : list B) :
  length (Np.map2 f a b) = Nat.min (length a) (length b).
Proof.
  revert b. induction a as [|x a IH]; intros [|y b]; simpl; auto.
Qed.

Lemma nth_map2 (f : A -> B -> C) (a : list A) (b : list B) (i : nat)
      (da : A) (db : B) (d : C) :
  (i < length a)%nat -> (i < length b)%nat ->
  nth i (Np.map2 f a b) d = f (nth i a da) (nth i b db).
Proof.
  revert b i. induction a as [|x a IH]; intros [|y b] [|i]; simpl; intros; try lia; auto.
  apply IH; lia.
Qed.

Lemma length_tl (a : list A) : length (tl a) = (length a - 1)%nat.
Proof. destruct a; simpl; lia. Qed.

Lemma length_removelast (a : list A) : length (removelast a) = (length a - 1)%nat.
Proof.
  induction a as [|x [|y a] IH]; simpl in *; auto. lia.
Qed.

Lemma nth_tl (a : list A) (i : nat) (d : A) : nth i (tl a) d = nth (S i) a d.
Proof. destruct a; simpl; auto. now destruct i. Qed.

Lemma nth_removelast (a : list A) (i : nat) (d : A) :
  (i < length a - 1)%nat -> nth i (removelast a) d = nth i a d.
Proof.
  revert i. induction a as [|x [|y a] IH]; intros i Hi; simpl in *; try lia.
  destruct i; auto. apply IH. lia.
Qed.

Lemma nth_map_in (f : A -> B) (a : list A) (j : nat) (da : A) (db : B) :
  (j < length a)%nat -> nth j (map f a) db = f (nth j a da).
Proof.
  intros Hj. rewrite (nth_indep _ db (f da)) by now rewrite length_map.
  apply map_nth.
Qed.

Lemma nth_map_seq (f : nat -> A) (a k r : nat) (d : A) :
  (r < k)%nat -> nth r (map f (seq a k)) d = f (a + r)%nat.
Proof.
  intros Hr. rewrite (nth_indep _ d (f 0%nat)) by now rewrite length_map, length_seq.
  now rewrite map_nth, seq_nth.
Qed.

End Arrays.

(** ** Expressions as polynomials *)

Section Polynomials.

Variable p : Q.

Lemma peval_padd (a b : list Q) : peval (padd a b) p == peval a p + peval b p.
Proof.
  revert b. induction a as [|x a IH]; intros [|y b]; simpl; try ring.
  rewrite IH. ring.
Qed.

Lemma peval_pscale (k : Q) (a : list Q) : peval (pscale k a) p == k * peval a p.
Proof.
  induction a as [|x a IH]; simpl; [ring|]. rewrite IH. ring.
Qed.

Lemma peval_pmul (a b : list Q) : peval (pmul a b) p == peval a p * peval b p.
Proof.
  induction a as [|x a IH]; simpl; [ring|].
  rewrite peval_padd, peval_pscale. simpl. rewrite IH. ring.
Qed.

Lemma peval_ppow (a : list Q) (k : nat) : peval (ppow a k) p == peval a p ^ Z.of_nat k.
Proof.
  induction k as [|k IH].
  - simpl. ring.
  - cbn [ppow]. rewrite peval_pmul, IH, Nat2Z.inj_succ.
    rewrite <- Z.add_1_l, Qpower_plus' by lia. ring.
Qed.

(** The coefficients of an expression evaluate to its compiled function. *)
Lemma as_poly_correct (e : expr) : peval (as_poly e) p == lambdify e p.
Proof.
  induction e as [q| |a IHa b IHb|a IHa b IHb|a IHa b IHb|a IHa k]; simpl.
  - ring.
  - ring.
  - now rewrite peval_padd, IHa, IHb.
  - rewrite peval_padd, peval_pscale, IHa, IHb. ring.
  - now rewrite peval_pmul, IHa, IHb.
  - now rewrite peval_ppow, IHa.
Qed.

End Polynomials.

(** ** The evaluator on exact rationals *)

Lemma int_floordiv (a b : Q) : Np.int (Np.floordiv a b) = Qfloor (a / b).
Proof.
  unfold Np.int, Np.floordiv.
  destruct (Qle_bool 0 (inject_Z (Qfloor (a / b)))).
  - apply Qfloor_Z.
  - apply Qceiling_Z.
Qed.

Lemma list_getitem_inside {A : Type} (l : list A) (i : Z) (d : A) :
  (0 <= i < Z.of_nat (length l))%Z ->
  list_getitem l i = Ok (nth (Z.to_nat i) l d).
Proof.
  intros Hi. unfold list_getitem.
  destruct (Z.ltb_spec i 0); [lia|].
  destruct (Z.leb_spec 0 i); [|lia].
  destruct (Z.ltb_spec i (Z.of_nat (length l))); [|lia].
  simpl. destruct (nth_error l (Z.to_nat i)) eqn:E.
  - now rewrite (nth_error_nth _ _ d E).
  - apply nth_error_None in E. lia.
Qed.

Lemma list_getitem_negative {A : Type} (l : list A) (i : Z) (d : A) :
  (- Z.of_nat (length l) <= i < 0)%Z ->
  list_getitem l i = Ok (nth (Z.to_nat (Z.of_nat (length l) + i)) l d).
Proof.
  intros Hi. unfold list_getitem.
  destruct (Z.ltb_spec i 0); [|lia].
  destruct (Z.leb_spec 0 (Z.of_nat (length l) + i)); [|lia].
  destruct (Z.ltb_spec (Z.of_nat (length l) + i) (Z.of_nat (length l))); [|lia].
  simpl. destruct (nth_error l (Z.to_nat (Z.of_nat (length l) + i))) eqn:E.
  - now rewrite (nth_error_nth _ _ d E).
  - apply nth_error_None in E. lia.
Qed.

Lemma list_getitem_outside {A : Type} (l : list A) (i : Z) :
  (i < - Z.of_nat (length l) \/ Z.of_nat (length l) <= i)%Z ->
  list_getitem l i = Raise IndexError.
Proof.
  intros Hi. unfold list_getitem.
  destruct (Z.ltb_spec i 0).
  - destruct (Z.leb_spec 0 (Z.of_nat (length l) + i)); [lia|reflexivity].
  - destruct (Z.leb_spec 0 i); [|lia].
    destruct (Z.ltb_spec i (Z.of_nat (length l))); [lia|reflexivity].
Qed.

Lemma splines_at_index (sp : spline) (p : Q) (i : Z) :
  map_points sp p = Ok i ->
  (0 <= i < Z.of_nat (length (sp_S sp)))%Z ->
  splines sp p = Ok (lambdify (segment (sp_S sp) (Z.to_nat i)) p).
Proof.
  intros Hm Hi. unfold splines. rewrite Hm. unfold bind at 1.
  rewrite (list_getitem_inside _ i (lambdify (Num 0))) by now rewrite length_map.
  unfold bind, segment. now rewrite (map_nth lambdify).
Qed.

Section Evaluator.

Variable sp : spline.
Let n := sp_n sp.
Let start := sp_start sp.
Let end_ := sp_end sp.
Let width := (end_ - start) / inject_Z (Z.of_nat n).

Hypothesis n_pos : (0 < n)%nat.
Hypothesis start_lt_end : start < end_.

Lemma width_pos : 0 < width.
Proof.
  unfold width. apply Qlt_shift_div_l.
  - change 0 with (inject_Z 0). rewrite <- Zlt_Qlt. lia.
  - lra.
Qed.

Lemma map_points_inside (p : Q) :
  ~ p == end_ ->
  map_points sp p = Ok (Qfloor ((p - start) / width)).
Proof.
  intros Hp. unfold map_points. fold start end_ n. fold width.
  destruct (Qeq_bool p end_) eqn:E.
  - apply Qeq_bool_iff in E. contradiction.
  - simpl. destruct (Qeq_bool width 0) eqn:E0.
    + apply Qeq_bool_iff in E0. pose proof width_pos. lra.
    + now rewrite int_floordiv.
Qed.

Lemma map_points_end (p : Q) :
  p == end_ -> map_points sp p = Ok (Z.of_nat n - 1)%Z.
Proof.
  intros Hp. unfold map_points. fold start end_ n.
  apply Qeq_bool_iff in Hp. now rewrite Hp.
Qed.

Lemma floor_in_range (p : Q) :
  start <= p -> p < end_ ->
  (0 <= Qfloor ((p - start) / width) < Z.of_nat n)%Z.
Proof.
  intros Hlo Hhi. pose proof width_pos as Hw.
  assert (Hn : width * inject_Z (Z.of_nat n) == end_ - start).
  { unfold width. field. change 0 with (inject_Z 0). rewrite inject_Z_injective. lia. }
  split.
  - change 0%Z with (Qfloor 0). apply Qfloor_resp_le.
    apply Qle_shift_div_l; lra.
  - rewrite Zlt_Qlt.
    apply Qle_lt_trans with ((p - start) / width); [apply Qfloor_le|].
    apply Qlt_shift_div_r; [lra|]. lra.
Qed.

End Evaluator.

(** ** Sorting on entry *)

Section Sorting.

Lemma insert_key_perm (k : Q * nat) (l : list (Q * nat)) :
  Permutation (k :: l) (Np.insert_key k l).
Proof.
  induction l as [|k' l IH]; simpl; [reflexivity|].
  destruct (Qle_bool (fst k) (fst k')); [reflexivity|].
  rewrite perm_swap. now apply perm_skip.
Qed.

Lemma sort_keys_perm (l : list (Q * nat)) : Permutation l (Np.sort_keys l).
Proof.
  induction l as [|k l IH]; simpl; [reflexivity|].
  rewrite <- insert_key_perm. now apply perm_skip.
Qed.

Lemma insert_key_sorted (k : Q * nat) (l : list (Q * nat)) :
  StronglySorted key_le l -> StronglySorted key_le (Np.insert_key k l).
Proof.
  induction 1 as [|k' l Hs IH Hall]; simpl.
  - constructor; constructor.
  - destruct (Qle_bool (fst k) (fst k')) eqn:E.
    + apply Qle_bool_iff in E.
      constructor; [now constructor|].
      constructor; [exact E|].
      eapply Forall_impl; [|exact Hall].
      unfold key_le. intros a Ha. lra.
    + assert (Hk : fst k' < fst k).
      { apply Qnot_le_lt. intros H. apply Qle_bool_iff in H. congruence. }
      constructor; [exact IH|].
      rewrite <- insert_key_perm. constructor; [unfold key_le; lra|exact Hall].
Qed.

Lemma sort_keys_sorted (l : list (Q * nat)) : StronglySorted key_le (Np.sort_keys l).
Proof.
  induction l; simpl; [constructor|]. now apply insert_key_sorted.
Qed.

Variable points : points_t.

(** The row that a (key, index) pair stands for. *)
Let row (k : Q * nat) : Q * Q := nth (snd k) points (0, 0).
Let keys : list (Q * nat) := combine (col0 points) (seq 0 (length points)).

Lemma sort_points_rows : sort_points points = map row (Np.sort_keys keys).
Proof.
  unfold sort_points, take_rows, Np.argsort, col0.
  now rewrite length_map, map_map.
Qed.

Lemma rows_of_keys_from (l : points_t) (d : nat) :
  (forall i, (i < length l)%nat -> nth (d + i) points (0, 0) = nth i l (0, 0)) ->
  map row (combine (col0 l) (seq d (length l))) = l /\
  Forall (fun k => fst (row k) = fst k) (combine (col0 l) (seq d (length l))).
Proof.
  revert d. induction l as [|p l IH]; intros d H; simpl; [split; constructor|].
  assert (H0 : row (fst p, d) = p).
  { unfold row. simpl. specialize (H 0%nat). rewrite Nat.add_0_r in H.
    apply H. simpl. lia. }
  destruct (IH (S d)) as [IH1 IH2].
  { intros i Hi. specialize (H (S i)). rewrite Nat.add_succ_r in H.
    apply H. simpl. lia. }
  split.
  - now rewrite H0, IH1.
  - constructor; [now rewrite H0|exact IH2].
Qed.

Lemma rows_of_keys :
  map row keys = points /\ Forall (fun k => fst (row k) = fst k) keys.
Proof. apply (rows_of_keys_from points 0). intros i _. reflexivity. Qed.

Lemma sort_points_perm : Permutation points (sort_points points).
Proof.
  rewrite sort_points_rows.
  rewrite <- (proj1 rows_of_keys) at 1.
  apply Permutation_map, sort_keys_perm.
Qed.

Lemma sort_points_length : length (sort_points points) = length points.
Proof. symmetry. apply Permutation_length, sort_points_perm. Qed.

Lemma sort_points_le : StronglySorted x_le (sort_points points).
Proof.
  rewrite sort_points_rows.
  assert (Hall : Forall (fun k => fst (row k) = fst k) (Np.sort_keys keys)).
  { rewrite <- sort_keys_perm. apply rows_of_keys. }
  pose proof (sort_keys_sorted keys) as Hs.
  induction Hs as [|k l Hs IH Hk]; simpl; [constructor|].
  inversion Hall as [|? ? Hk0 Hl]; subst.
  constructor; [now apply IH|].
  rewrite Forall_map. rewrite Forall_forall in *.
  intros k' Hin. unfold x_le. rewrite Hk0, (Hl k' Hin). now apply Hk.
Qed.

End Sorting.

Lemma distinct_x_perm (l l' : points_t) :
  Permutation l l' -> distinct_x l -> distinct_x l'.
Proof.
  unfold distinct_x. induction 1 as [|a l l' HP IH|a b l|l l' l'' _ IH1 _ IH2]; intros H.
  - constructor.
  - inversion H; subst. constructor; [now rewrite <- HP|auto].
  - inversion H as [|? ? Hb Hl]; subst. inversion Hl as [|? ? Ha Hl']; subst.
    inversion Hb; subst.
    constructor; [constructor; [|assumption]|constructor; assumption].
    intros E. symmetry in E. contradiction.
  - auto.
Qed.

Lemma sort_points_ascending (points : points_t) :
  distinct_x points -> ascending (sort_points points).
Proof.
  intros Hd. apply (distinct_x_perm _ _ (sort_points_perm points)) in Hd.
  pose proof (sort_points_le points) as Hs.
  unfold ascending, distinct_x in *.
  induction Hs as [|p l Hs IH Hp]; [constructor|].
  inversion Hd as [|? ? Hne Hd']; subst.
  constructor; [now apply IH|].
  rewrite Forall_forall in *. intros q Hq.
  specialize (Hp q Hq). specialize (Hne q Hq). unfold x_le, x_lt in *.
  destruct (Qlt_le_dec (fst p) (fst q)) as [|Hle]; [assumption|].
  exfalso. apply Hne. lra.
Qed.

(** Two ascending arrangements of the same rows are the same list. *)
Lemma ascending_unique (l l' : points_t) :
  ascending l -> ascending l' -> Permutation l l' -> l = l'.
Proof.
  unfold ascending. intros Hl. revert l'.
  induction Hl as [|p l Hs IH Hp]; intros l' Hl' HP.
  - now apply Permutation_nil in HP.
  - destruct Hl' as [|p' l' Hs' Hp'].
    + symmetry in HP. now apply Permutation_nil in HP.
    + assert (E : p = p').
      { assert (Hin : In p (p' :: l')) by (rewrite <- HP; now left).
        assert (Hin' : In p' (p :: l)) by (rewrite HP; now left).
        destruct Hin as [|Hin]; [congruence|].
        destruct Hin' as [|Hin']; [congruence|].
        rewrite Forall_forall in Hp, Hp'.
        specialize (Hp _ Hin'). specialize (Hp' _ Hin). unfold x_lt in *. lra. }
      subst p'. f_equal. apply IH; [assumption|].
      now apply Permutation_cons_inv in HP.
Qed.

Lemma sort_points_invariant (l l' : points_t) :
  distinct_x l -> Permutation l l' -> sort_points l' = sort_points l.
Proof.
  intros Hd HP. apply ascending_unique.
  - apply sort_points_ascending. now apply (distinct_x_perm l).
  - now apply sort_points_ascending.
  - rewrite <- (sort_points_perm l'), <- (sort_points_perm l). now symmetry.
Qed.

(** C7: a valid point set and any permutation of it give, with either
    builder, the same spline, hence the same value at every query point:
    both builders start by sorting the rows by [x], and rows with
    pairwise-distinct [x] have one ascending arrangement only. *)
Theorem C7_order_invariance (points points' : points_t) :
  valid points -> Permutation points points' ->
  cubic_spline4_matrix points' = cubic_spline4_matrix points /\
  cubic_spline4 points' = cubic_spline4 points /\
  (forall q, eval_with cubic_spline4_matrix points' q = eval_with cubic_spline4_matrix points q) /\
  (forall q, eval_with cubic_spline4 points' q = eval_with cubic_spline4 points q).
Proof.
  intros [Hlen Hd] HP.
  pose proof (sort_points_invariant _ _ Hd HP) as Hs.
  pose proof (Permutation_length HP) as HL.
  assert (Hm : cubic_spline4_matrix points' = cubic_spline4_matrix points).
  { destruct points as [|p0 [|p1 l]]; simpl in Hlen; try lia.
    destruct points' as [|p0' [|p1' l']]; simpl in HL; try lia.
    unfold cubic_spline4_matrix. now rewrite Hs. }
  assert (Hc : cubic_spline4 points' = cubic_spline4 points).
  { destruct points as [|p0 l]; simpl in Hlen; try lia.
    destruct points' as [|p0' l']; simpl in HL; try lia.
    unfold cubic_spline4. now rewrite Hs. }
  unfold eval_with. rewrite Hm, Hc. auto.
Qed.

Lemma C7_order_invariance_witness :
  eval_with cubic_spline4 [(2, 5); (0, 3 # 10); (5, 7); (1, 1)] (7 # 10)
  = eval_with cubic_spline4 [(0, 3 # 10); (1, 1); (2, 5); (5, 7)] (7 # 10).
Proof.
  refine (proj2 (proj2 (proj2
    (C7_order_invariance [(0, 3 # 10); (1, 1); (2, 5); (5, 7)]
                         [(2, 5); (0, 3 # 10); (5, 7); (1, 1)] _ _))) (7 # 10)).
  - split; [simpl; lia|].
    unfold distinct_x.
    repeat (constructor; [repeat (constructor; [vm_compute; discriminate|]); constructor|]).
    constructor.
  - apply perm_trans with [(0, 3 # 10); (2, 5); (1, 1); (5, 7)].
    + apply perm_skip, perm_swap.
    + apply perm_trans with [(2, 5); (0, 3 # 10); (1, 1); (5, 7)].
      * apply perm_swap.
      * do 2 apply perm_skip. apply perm_swap.
Defined.

(** ** [numpy.linalg.solve] *)

Section Solve.

Import Np2.
Opaque Qred.

Lemma dot_cons (a b : Q) (la lb : list Q) :
  dot (a :: la) (b :: lb) = a * b + dot la lb.
Proof. reflexivity. Qed.

Lemma dot_nil_r (la : list Q) : dot la [] = 0.
Proof. now destruct la. Qed.

Lemma pivot_some (eqs : list equation) (p : equation) (others : list equation) :
  pivot eqs = Some (p, others) ->
  ~ lead p == 0 /\ Permutation eqs (p :: others).
Proof.
  revert p others. induction eqs as [|e rest IH]; intros p others H; simpl in H.
  - discriminate.
  - destruct (pivot rest) as [[p' others']|].
    + destruct (IH p' others' eq_refl) as [Hp' HP].
      destruct (Qle_bool (Qabs (lead p')) (Qabs (lead e))) eqn:E; inversion H; subst.
      * split; [|reflexivity].
        apply Qle_bool_iff in E. intros Hz. apply Hp'.
        rewrite Hz in E. change (Qabs 0) with 0 in E.
        apply Qabs_Qle_condition in E. lra.
      * split; [assumption|].
        rewrite HP. apply perm_swap.
    + destruct (Qeq_bool (lead e) 0) eqn:E; inversion H; subst.
      split; [now apply Qeq_bool_neq|reflexivity].
Qed.

Lemma pivot_none (eqs : list equation) :
  pivot eqs = None -> Forall (fun e => lead e == 0) eqs.
Proof.
  induction eqs as [|e rest IH]; intros H; simpl in H; [constructor|].
  destruct (pivot rest) as [[p' others']|].
  - destruct (Qle_bool (Qabs (lead p')) (Qabs (lead e))); discriminate.
  - destruct (Qeq_bool (lead e) 0) eqn:E; [|discriminate].
    constructor; [now apply Qeq_bool_iff|now apply IH].
Qed.

Lemma dot_eliminated (m : Q) (ta tb c : list Q) :
  length ta = length tb ->
  dot (Np.map2 (fun a b => Qred (a - m * b)) ta tb) c == dot ta c - m * dot tb c.
Proof.
  revert tb c. induction ta as [|a ta IH]; intros [|b tb] c Hlen; try discriminate.
  - unfold dot; simpl. ring.
  - destruct c as [|q c]; [rewrite !dot_nil_r; ring|].
    cbn [Np.map2]. rewrite !dot_cons, IH by (simpl in Hlen; lia).
    rewrite Qred_correct. ring.
Qed.

(** An equation with a first column, split into that column and the rest. *)
Lemma dot_split (e : equation) (k : nat) (q : Q) (c : list Q) :
  width_is (S k) e ->
  dot (fst e) (q :: c) = lead e * q + dot (tl (fst e)) c.
Proof.
  unfold width_is, lead. destruct (fst e); [discriminate|]. reflexivity.
Qed.

Lemma eliminate_width (k : nat) (p e : equation) :
  width_is (S k) p -> width_is (S k) e -> width_is k (eliminate p e).
Proof.
  unfold width_is, eliminate. cbn [fst]. intros Hp He.
  rewrite length_map2, !length_tl. lia.
Qed.

Lemma dot_eliminate (k : nat) (p e : equation) (c : list Q) :
  width_is (S k) p -> width_is (S k) e ->
  dot (fst (eliminate p e)) c
  == dot (tl (fst e)) c - lead e / lead p * dot (tl (fst p)) c.
Proof.
  intros Hp He. unfold eliminate. cbn [fst]. apply dot_eliminated.
  unfold width_is in *. destruct (fst p), (fst e); try discriminate. simpl in *. lia.
Qed.

Lemma solution_step (k : nat) (p e : equation) (q : Q) (sol : list Q) :
  width_is (S k) p -> width_is (S k) e -> ~ lead p == 0 ->
  q == (snd p - dot (tl (fst p)) sol) / lead p ->
  satisfies sol (eliminate p e) ->
  satisfies (q :: sol) e.
Proof.
  unfold satisfies. intros Hp He Hnz Hq Hs.
  rewrite (dot_eliminate k) in Hs by assumption. unfold eliminate in Hs. cbn [snd] in Hs.
  rewrite Qred_correct in Hs.
  rewrite (dot_split e k) by assumption. rewrite Hq.
  setoid_replace (dot (tl (fst e)) sol)
    with (snd e - lead e / lead p * snd p + lead e / lead p * dot (tl (fst p)) sol)
    by lra.
  field. exact Hnz.
Qed.

(** Soundness: what [gauss] returns solves every equation. *)
Lemma gauss_sound (k : nat) (eqs : list equation) (sol : list Q) :
  length eqs = k -> Forall (width_is k) eqs ->
  gauss k eqs = Some sol ->
  length sol = k /\ Forall (satisfies sol) eqs.
Proof.
  revert eqs sol. induction k as [|k IH]; intros eqs sol Hlen Hw H; cbn [gauss] in H.
  - inversion H; subst. destruct eqs; [|discriminate]. split; [reflexivity|constructor].
  - destruct (pivot eqs) as [[p others]|] eqn:Ep; [|discriminate].
    destruct (pivot_some _ _ _ Ep) as [Hnz HP].
    destruct (gauss k (map (eliminate p) others)) as [sol'|] eqn:Eg; [|discriminate].
    inversion H; subst sol; clear H.
    rewrite HP in Hw. inversion Hw as [|? ? Hwp Hwo]; subst.
    apply Permutation_length in HP as HL. simpl in HL.
    destruct (IH (map (eliminate p) others) sol') as [Hls Hsat].
    + rewrite length_map. lia.
    + rewrite Forall_map. eapply Forall_impl; [|exact Hwo].
      intros e He. now apply eliminate_width.
    + exact Eg.
    + split; [simpl; now rewrite Hls|].
      rewrite HP. constructor.
      * unfold satisfies. rewrite (dot_split p k) by assumption.
        rewrite Qred_correct. field. exact Hnz.
      * rewrite Forall_map in Hsat. rewrite Forall_forall in *.
        intros e He. apply (solution_step k p); auto.
        apply Qred_correct.
Qed.

Lemma dot_zero_r (a c : list Q) : all_zero c -> dot a c == 0.
Proof.
  intros Hc. revert a. induction Hc as [|q c Hq Hc IH]; intros a.
  - now rewrite dot_nil_r.
  - destruct a as [|x a]; [reflexivity|]. rewrite dot_cons, IH, Hq. ring.
Qed.

Lemma kernel_step (k : nat) (p e : equation) (q : Q) (c : list Q) :
  width_is (S k) p -> width_is (S k) e -> ~ lead p == 0 ->
  annihilates (q :: c) p ->
  (annihilates (q :: c) e <-> annihilates c (eliminate p e)).
Proof.
  unfold annihilates. intros Hp He Hnz Hpc.
  rewrite (dot_eliminate k) by assumption.
  rewrite (dot_split p k) in Hpc by assumption.
  rewrite (dot_split e k) by assumption.
  setoid_replace (dot (tl (fst p)) c) with (- (lead p * q)) by lra.
  split; intros H.
  - setoid_replace (dot (tl (fst e)) c) with (- (lead e * q)) by lra.
    field. exact Hnz.
  - assert (E : lead e / lead p * - (lead p * q) == - (lead e * q)) by (field; exact Hnz).
    lra.
Qed.

(** After a successful elimination the kernel of the rows is trivial. *)
Lemma gauss_kernel (k : nat) (eqs : list equation) (sol c : list Q) :
  Forall (width_is k) eqs -> gauss k eqs = Some sol ->
  length c = k -> Forall (annihilates c) eqs -> all_zero c.
Proof.
  revert eqs sol c. induction k as [|k IH]; intros eqs sol c Hw H Hc Hk; cbn [gauss] in H.
  - destruct c; [constructor|discriminate].
  - destruct (pivot eqs) as [[p others]|] eqn:Ep; [|discriminate].
    destruct (pivot_some _ _ _ Ep) as [Hnz HP].
    destruct (gauss k (map (eliminate p) others)) as [sol'|] eqn:Eg; [|discriminate].
    rewrite HP in Hw, Hk.
    inversion Hw as [|? ? Hwp Hwo]; subst. inversion Hk as [|? ? Hkp Hko]; subst.
    destruct c as [|q c]; [discriminate|].
    assert (Hc' : all_zero c).
    { apply (IH (map (eliminate p) others) sol'); auto.
      - rewrite Forall_map. eapply Forall_impl; [|exact Hwo].
        intros e He. now apply eliminate_width.
      - rewrite Forall_map. rewrite Forall_forall in *.
        intros e He. apply (kernel_step k p e q c); auto. }
    constructor; [|exact Hc'].
    unfold annihilates in Hkp. rewrite (dot_split p k) in Hkp by assumption.
    rewrite (dot_zero_r _ _ Hc') in Hkp.
    assert (E : q == (lead p * q) / lead p) by (field; exact Hnz).
    rewrite E. setoid_replace (lead p * q) with 0 by lra. field. exact Hnz.
Qed.

(** A failed elimination exhibits a kernel vector that is not zero. *)
Lemma gauss_complete (k : nat) (eqs : list equation) :
  Forall (width_is k) eqs -> gauss k eqs = None ->
  exists c, length c = k /\ Forall (annihilates c) eqs /\ ~ all_zero c.
Proof.
  revert eqs. induction k as [|k IH]; intros eqs Hw H; cbn [gauss] in H; [discriminate|].
  destruct (pivot eqs) as [[p others]|] eqn:Ep.
  - destruct (pivot_some _ _ _ Ep) as [Hnz HP].
    destruct (gauss k (map (eliminate p) others)) as [sol'|] eqn:Eg; [discriminate|].
    rewrite HP in Hw. inversion Hw as [|? ? Hwp Hwo]; subst.
    destruct (IH (map (eliminate p) others)) as (c & Hc & Hk & Hn); auto.
    { rewrite Forall_map. eapply Forall_impl; [|exact Hwo].
      intros e He. now apply eliminate_width. }
    exists (- dot (tl (fst p)) c / lead p :: c).
    assert (Hp : annihilates (- dot (tl (fst p)) c / lead p :: c) p).
    { unfold annihilates. rewrite (dot_split p k) by assumption. field. exact Hnz. }
    split; [simpl; now rewrite Hc|]. split.
    + rewrite HP. constructor; [exact Hp|].
      rewrite Forall_map in Hk. rewrite Forall_forall in *.
      intros e He. apply (kernel_step k p e); auto.
    + intros Hz. apply Hn. now inversion Hz.
  - apply pivot_none in Ep. exists (1 :: repeat 0 k).
    split; [simpl; now rewrite repeat_length|]. split.
    + rewrite Forall_forall in *. intros e He.
      unfold annihilates. rewrite (dot_split e k) by auto.
      rewrite (Ep e He), dot_zero_r; [ring|].
      unfold all_zero. rewrite Forall_forall. intros q Hq.
      apply repeat_spec in Hq. now subst.
    + intros Hz. inversion Hz as [|? ? H1 _]; subst. discriminate H1.
Qed.

(** *** The interface of [solve] *)

Lemma combine_widths (k : nat) (M : list (list Q)) (A : list Q) :
  Forall (fun r => length r = k) M -> Forall (width_is k) (combine M A).
Proof.
  intros H. revert A. induction H as [|r M Hr HM IH]; intros [|a A]; simpl; constructor; auto.
Qed.

Lemma combine_forall (P : list Q -> Q -> Prop) (M : list (list Q)) (A : list Q) :
  length M = length A ->
  (Forall (fun e => P (fst e) (snd e)) (combine M A)
   <-> forall i, (i < length M)%nat -> P (nth i M []) (nth i A 0)).
Proof.
  revert A. induction M as [|r M IH]; intros [|a A] Hlen; simpl in *; try discriminate.
  - split; [intros _ i Hi; lia|constructor].
  - split.
    + intros H i Hi. inversion H; subst. destruct i; [assumption|].
      apply IH; auto; lia.
    + intros H. constructor; [apply (H 0%nat); lia|].
      apply IH; [lia|]. intros i Hi. apply (H (S i)). lia.
Qed.

Lemma solve_sound (k : nat) (M : list (list Q)) (A sol : list Q) :
  square k M -> length A = k -> solve M A = Ok sol ->
  length sol = k /\
  forall i, (i < k)%nat -> dot (nth i M []) sol == nth i A 0.
Proof.
  intros [HM Hw] HA H. unfold solve in H.
  destruct (gauss (length M) (combine M A)) as [sol'|] eqn:E; inversion H; subst sol'.
  rewrite HM in E.
  assert (HL : length (combine M A) = k) by (rewrite length_combine; lia).
  destruct (gauss_sound k (combine M A) sol HL (combine_widths k M A Hw) E) as [Hl Hs].
  split; [exact Hl|]. intros i Hi.
  apply (proj1 (combine_forall (fun r a => dot r sol == a) M A ltac:(lia)) Hs). lia.
Qed.

(** [solve] succeeds exactly on the matrices with a trivial kernel. *)
Lemma solve_total (k : nat) (M : list (list Q)) (A : list Q) :
  square k M -> length A = k -> kernel_trivial k M ->
  exists sol, solve M A = Ok sol.
Proof.
  intros [HM Hw] HA Hk. unfold solve. rewrite HM.
  destruct (gauss k (combine M A)) as [sol|] eqn:E; [now exists sol|].
  apply gauss_complete in E; [|now apply combine_widths].
  destruct E as (c & Hc & Hann & Hnz). exfalso. apply Hnz, Hk; [exact Hc|].
  intros i Hi.
  apply (proj1 (combine_forall (fun r _ => dot r c == 0) M A ltac:(lia)) Hann). lia.
Qed.

Lemma solve_ok_kernel (k : nat) (M : list (list Q)) (A sol : list Q) :
  square k M -> length A = k -> solve M A = Ok sol -> kernel_trivial k M.
Proof.
  intros [HM Hw] HA H c Hc Hann. unfold solve in H. rewrite HM in H.
  destruct (gauss k (combine M A)) as [sol'|] eqn:E; [|discriminate].
  apply (gauss_kernel k (combine M A) sol'); auto.
  - now apply combine_widths.
  - apply (proj2 (combine_forall (fun r _ => dot r c == 0) M A ltac:(lia))).
    intros i Hi. apply Hann. lia.
Qed.

Transparent Qred.

End Solve.

(** ** The moments builder: shapes, moments at the ends, segments *)

Lemma moment_form_value (A B C D a b p : Q) :
  lambdify (moment_form A B C D a b) p
  == A * (b - p) ^ 3 + B * (p - a) ^ 3 + C * (p - a) + D * (b - p).
Proof. simpl. ring. Qed.

Lemma moment_form_d1 (A B C D a b p : Q) :
  d1 (moment_form A B C D a b) p
  == - (3 * A * (b - p) ^ 2) + 3 * B * (p - a) ^ 2 + C - D.
Proof. unfold d1. simpl. unfold inject_Z. ring. Qed.

Lemma moment_form_d2 (A B C D a b p : Q) :
  d2 (moment_form A B C D a b) p == 6 * A * (b - p) + 6 * B * (p - a).
Proof. unfold d2. simpl. unfold inject_Z. ring. Qed.


Section Moments.

Lemma length_setitem (a : Np.array) (i : nat) (q : Q) :
  length (Np.setitem a i q) = length a.
Proof.
  revert i. induction a as [|x a IH]; intros [|i]; simpl; auto.
Qed.

Lemma nth_setitem_other (a : Np.array) (i j : nat) (q : Q) :
  i <> j -> nth j (Np.setitem a i q) 0 = nth j a 0.
Proof.
  revert i j. induction a as [|x a IH]; intros [|i] [|j] H; simpl; auto; try lia.
Qed.

Lemma nth_setitem_same (a : Np.array) (i : nat) (q : Q) :
  (i < length a)%nat -> nth i (Np.setitem a i q) 0 = q.
Proof.
  revert i. induction a as [|x a IH]; intros [|i] H; simpl in *; auto; try lia.
  apply IH. lia.
Qed.

Lemma length_back_substitute (k : nat) (h u v z : Np.array) :
  length (back_substitute k h u v z) = length z.
Proof.
  revert z. induction k as [|k IH]; intros z; simpl; auto.
  now rewrite IH, length_setitem.
Qed.

(** The loop writes the cells [1 .. k] only. *)
Lemma back_substitute_untouched (k j : nat) (h u v z : Np.array) :
  (j = 0 \/ k < j)%nat ->
  nth j (back_substitute k h u v z) 0 = nth j z 0.
Proof.
  revert z. induction k as [|k IH]; intros z Hj; simpl; auto.
  rewrite IH by lia. apply nth_setitem_other. lia.
Qed.

Variable points : points_t.
Variable n : nat.
Hypothesis points_length : length points = S n.

Let x (i : nat) : Q := nth i (col0 points) 0.
Let y (i : nat) : Q := nth i (col1 points) 0.
Let m : moments := solve_moments points.
Let z (i : nat) : Q := nth i (m_z m) 0.
Let h (i : nat) : Q := nth i (m_h m) 0.

Lemma length_col0 : length (col0 points) = S n.
Proof. unfold col0. now rewrite length_map. Qed.

Lemma length_col1 : length (col1 points) = S n.
Proof. unfold col1. now rewrite length_map. Qed.

Lemma length_widths : length (widths points) = n.
Proof.
  unfold widths, Np.sub. rewrite length_map2, length_tl, length_removelast, length_col0. lia.
Qed.

Lemma widths_nth (i : nat) : (i < n)%nat -> h i = x (S i) - x i.
Proof.
  intros Hi. unfold h, m, solve_moments, m_h, widths, Np.sub.
  rewrite (nth_map2 _ _ _ _ 0 0) by (rewrite ?length_tl, ?length_removelast, length_col0; lia).
  rewrite nth_tl, nth_removelast by (rewrite length_col0; lia). reflexivity.
Qed.

Lemma length_m_z : length (m_z m) = S n.
Proof.
  unfold m, solve_moments, m_z.
  rewrite length_back_substitute, !length_setitem, repeat_length, points_length. lia.
Qed.

Lemma initial_z_nth (k j : nat) :
  nth j (Np.setitem (Np.setitem (repeat 0 (k + 1)) 0 0) k 0) 0 = 0.
Proof.
  destruct (Nat.eq_dec k j) as [E|E].
  - subst j. apply nth_setitem_same. rewrite length_setitem, repeat_length. lia.
  - rewrite nth_setitem_other by assumption.
    destruct (Nat.eq_dec 0 j) as [E0|E0].
    + subst j. apply nth_setitem_same. rewrite repeat_length. lia.
    + rewrite nth_setitem_other by assumption. apply nth_repeat.
Qed.

(** [z[0], z[-1] = 0, 0] survives the loop. *)
Lemma z_first : z 0 = 0.
Proof.
  unfold z, m, solve_moments, m_z. rewrite back_substitute_untouched by lia.
  apply initial_z_nth.
Qed.

Lemma z_last : z n = 0.
Proof.
  unfold z, m, solve_moments, m_z. rewrite points_length.
  replace (S n - 1)%nat with n by lia.
  rewrite back_substitute_untouched by lia. apply initial_z_nth.
Qed.

Lemma length_moments_S : length (moments_S points m) = n.
Proof.
  unfold moments_S, Sym.add, Sym.scale, Sym.pow, Sym.num_minus_x, Sym.x_minus_num,
    Np.sub, Np.div, Np.mul, Np.divs, Np.scale.
  repeat rewrite ?length_map2, ?length_map, ?length_tl, ?length_removelast.
  change (m_h m) with (widths points).
  rewrite length_widths, length_col0, length_col1, length_m_z. lia.
Qed.

(** The expression of segment [i], cell by cell. *)
Lemma moments_segment (i : nat) :
  (i < n)%nat ->
  segment (moments_S points m) i =
  moment_form (z i / (6 * h i)) (z (S i) / (6 * h i))
              (y (S i) / h i - z (S i) * h i / 6) (y i / h i - z i * h i / 6)
              (x i) (x (S i)).
Proof.
  intros Hi.
  pose proof length_col0 as Lx. pose proof length_col1 as Ly.
  pose proof length_m_z as Lz. pose proof length_widths as Lh.
  change (widths points) with (m_h m) in Lh.
  unfold segment, moments_S, Sym.add, Sym.scale, Sym.pow, Sym.num_minus_x,
    Sym.x_minus_num, Np.sub, Np.div, Np.mul, Np.divs, Np.scale.
  repeat first
    [ rewrite (nth_map2 _ _ _ _ (Num 0) (Num 0))
        by (repeat rewrite ?length_map2, ?length_map, ?length_tl, ?length_removelast; lia)
    | rewrite (nth_map2 _ _ _ _ 0 (Num 0))
        by (repeat rewrite ?length_map2, ?length_map, ?length_tl, ?length_removelast; lia)
    | rewrite (nth_map2 _ _ _ _ 0 0)
        by (repeat rewrite ?length_map2, ?length_map, ?length_tl, ?length_removelast; lia)
    | rewrite (nth_map_in _ _ _ 0)
        by (repeat rewrite ?length_map2, ?length_map, ?length_tl, ?length_removelast; lia)
    | rewrite (nth_map_in _ _ _ (Num 0))
        by (repeat rewrite ?length_map2, ?length_map, ?length_tl, ?length_removelast; lia)
    | rewrite nth_tl
    | rewrite nth_removelast by lia ].
  reflexivity.
Qed.

(** Every segment takes the values of its two breakpoints, whatever the
    moments are. *)
Lemma moments_interpolates (i : nat) :
  (i < n)%nat -> ~ h i == 0 ->
  lambdify (segment (moments_S points m) i) (x i) == y i /\
  lambdify (segment (moments_S points m) i) (x (S i)) == y (S i).
Proof.
  intros Hi Hh. rewrite (moments_segment i Hi), !moment_form_value.
  assert (E : x (S i) == x i + h i) by (rewrite (widths_nth i Hi); ring).
  rewrite E. unfold x, y, z, h in *. split; field; exact Hh.
Qed.

(** Neighbouring segments have one second derivative at the breakpoint they
    share, whatever the moments are. *)
Lemma moments_curvature_continuous (i : nat) :
  (S i < n)%nat -> ~ h i == 0 -> ~ h (S i) == 0 ->
  d2 (segment (moments_S points m) i) (x (S i))
  == d2 (segment (moments_S points m) (S i)) (x (S i)).
Proof.
  intros Hi Hh Hh'. rewrite !moments_segment, !moment_form_d2 by lia.
  assert (E : x (S i) == x i + h i) by (rewrite (widths_nth i); [ring|lia]).
  assert (E' : x (S (S i)) == x (S i) + h (S i)) by (rewrite (widths_nth (S i)); [ring|lia]).
  rewrite E', E. unfold x, y, z, h in *. field. split; assumption.
Qed.

(** The jump of the first derivative at the breakpoint two neighbouring
    segments share is the residual of the moments in the equation of that
    breakpoint: the first derivatives agree exactly when
    [h_k z_k + 2 (h_k + h_{k+1}) z_{k+1} + h_{k+1} z_{k+2} = b_{k+1} - b_k]. *)
Lemma moments_slope_jump (k : nat) :
  (S k < n)%nat -> ~ h k == 0 -> ~ h (S k) == 0 ->
  6 * (d1 (segment (moments_S points m) k) (x (S k))
       - d1 (segment (moments_S points m) (S k)) (x (S k)))
  == h k * z k + 2 * (h k + h (S k)) * z (S k) + h (S k) * z (S (S k))
     - ((y (S (S k)) - y (S k)) * (6 / h (S k)) - (y (S k) - y k) * (6 / h k)).
Proof.
  intros Hk Hh Hh'. rewrite !moments_segment, !moment_form_d1 by lia.
  assert (E : x (S k) == x k + h k) by (rewrite (widths_nth k); [ring|lia]).
  assert (E' : x (S (S k)) == x (S k) + h (S k)) by (rewrite (widths_nth (S k)); [ring|lia]).
  rewrite E', E. unfold x, y, z, h in *. field. split; assumption.
Qed.

End Moments.

(** What the two statements under [# rank] compute: cell [i + 1] of [u] is
    lowered by [h_{i+1}^2 / u_i], cell [i + 1] of [v] by
    [v_i * (h_{i+1} / u_i)], with [u_i] and [v_i] as they were before the
    statement ran. *)
Lemma rank_u_nth (h u : Np.array) (i : nat) :
  (S i < length u)%nat -> (S (S i) < length h)%nat ->
  nth (S i) (rank_u h u) 0 = nth (S i) u 0 - nth (S i) h 0 ^ 2 / nth i u 0.
Proof.
  intros Hu Hh. unfold rank_u, Np.isub_tail, Np.sub, Np.div, Np.square, Np.inner.
  destruct u as [|u0 u']; simpl in Hu; [lia|]. cbn [nth].
  assert (Li : (i < length (removelast (tl h)))%nat)
    by (rewrite length_removelast, length_tl; lia).
  assert (Lu : (i < length (removelast (u0 :: u')))%nat)
    by (rewrite length_removelast; simpl; lia).
  rewrite (nth_map2 _ _ _ _ 0 0)
    by (rewrite ?length_map2, ?length_map; lia).
  rewrite (nth_map2 _ _ _ _ 0 0) by (rewrite ?length_map; lia).
  rewrite (nth_map_in _ _ _ 0) by lia.
  rewrite !nth_removelast, nth_tl by (rewrite ?length_tl; simpl; lia).
  reflexivity.
Qed.

Lemma rank_v_nth (h u v : Np.array) (i : nat) :
  (S i < length v)%nat -> (S i < length u)%nat -> (S (S i) < length h)%nat ->
  nth (S i) (rank_v h u v) 0
  = nth (S i) v 0 - nth i v 0 * (nth (S i) h 0 / nth i u 0).
Proof.
  intros Hv Hu Hh. unfold rank_v, Np.isub_tail, Np.sub, Np.mul, Np.div, Np.inner.
  destruct v as [|v0 v']; simpl in Hv; [lia|]. cbn [nth].
  assert (Li : (i < length (removelast (tl h)))%nat)
    by (rewrite length_removelast, length_tl; lia).
  assert (Lu : (i < length (removelast u))%nat) by (rewrite length_removelast; lia).
  assert (Lv : (i < length (removelast (v0 :: v')))%nat)
    by (rewrite length_removelast; simpl; lia).
  rewrite (nth_map2 _ _ _ _ 0 0) by (rewrite ?length_map2; lia).
  rewrite (nth_map2 _ _ _ _ 0 0) by (rewrite ?length_map2; lia).
  rewrite (nth_map2 _ _ _ _ 0 0) by lia.
  rewrite !nth_removelast, nth_tl by (rewrite ?length_tl; simpl; lia).
  reflexivity.
Qed.

(** ** Forward elimination (C3) *)

(** C3, evaluated on [pts5]: the specification's elimination updates [u_2]
    with the [u_1] it has just written and gets [56/15]; the program's
    [u[1:] -= h[1:-1] ** 2 / u[:-1]] evaluates its right-hand side on the
    array as it was and gets [15/4].  The same holds for [v_2]: [-16]
    against [-76/5]. *)
Theorem C3_rank_differs_from_sequential_elimination :
  let p := sort_points pts5 in
  let m := solve_moments p in
  let seq_uv := thomas_forward (widths p) (diagonal p) (rhs p) in
  Np.getitem (m_u m) 2 == 15 # 4 /\ Np.getitem (fst seq_uv) 2 == 56 # 15 /\
  Np.getitem (m_v m) 2 == - (76 # 5) /\ Np.getitem (snd seq_uv) 2 == - (16 # 1) /\
  ~ Np.getitem (m_u m) 2 == Np.getitem (fst seq_uv) 2 /\
  ~ Np.getitem (m_v m) 2 == Np.getitem (snd seq_uv) 2.
Proof.
  intros; by_evaluation.
Qed.

(** ** Continuity of the derivatives (C5) *)

(** C5, evaluated on [pts5] at the interior breakpoint [x_3 = 3]: the
    segments of the moments builder have first derivatives [1673/3375] on
    the left and [79/225] on the right. *)
Theorem C5_moments_first_derivative_jumps :
  let S := cubic_spline4_S pts5 in
  d1 (segment S 2) 3 == 1673 # 3375 /\ d1 (segment S 3) 3 == 79 # 225 /\
  ~ d1 (segment S 2) 3 == d1 (segment S 3) 3.
Proof.
  intros; by_evaluation.
Qed.

(** ** Ascending rows: breakpoints and the domain *)

Section Ascending.

Lemma ascending_nth (l : points_t) (i j : nat) :
  ascending l -> (i < j < length l)%nat ->
  nth i (col0 l) 0 < nth j (col0 l) 0.
Proof.
  intros Hl. revert i j. induction Hl as [|p l Hs IH Hp]; intros i j Hij; simpl in *.
  - lia.
  - destruct j as [|j]; [lia|]. destruct i as [|i].
    + rewrite Forall_forall in Hp.
      assert (Hin : In (nth j l (0, 0)) l) by (apply nth_In; lia).
      specialize (Hp _ Hin). unfold x_lt in Hp.
      unfold col0. now rewrite (nth_map_in fst l j (0, 0)) by lia.
    + apply IH. lia.
Qed.

Lemma fold_min_first (a : Np.array) (q : Q) :
  Forall (fun r => q < r) a -> fold_left Qmin a q == q.
Proof.
  revert q. induction a as [|r a IH]; intros q H; simpl; [reflexivity|].
  inversion H as [|? ? Hr Ha]; subst.
  assert (E : Qmin q r == q) by (apply Q.min_l; lra).
  rewrite <- E at 2. apply IH.
  eapply Forall_impl; [|exact Ha]. intros s Hs. simpl in Hs. rewrite E. exact Hs.
Qed.

Lemma min_ascending (l : points_t) :
  ascending l -> Np.min (col0 l) == nth 0 (col0 l) 0.
Proof.
  intros Hl. destruct Hl as [|p l Hs Hp]; simpl; [reflexivity|].
  apply fold_min_first. unfold col0. rewrite Forall_map.
  eapply Forall_impl; [|exact Hp]. intros q Hq. exact Hq.
Qed.

Lemma fold_max_last (a : Np.array) (q : Q) :
  StronglySorted Qlt (q :: a) -> fold_left Qmax a q == last (q :: a) 0.
Proof.
  revert q. induction a as [|r a IH]; intros q H; [reflexivity|].
  inversion H as [|? ? Hs Hq]; subst. inversion Hq as [|? ? Hr _]; subst.
  cbn [fold_left]. change (last (q :: r :: a) 0) with (last (r :: a) 0).
  rewrite <- (IH r Hs).
  assert (E : Qmax q r == r) by (apply Q.max_r; lra).
  clear -E. revert E. generalize (Qmax q r). clear. intros s. revert s r.
  induction a as [|t a IH]; intros s r E; simpl; [exact E|].
  apply IH. now rewrite E.
Qed.

Lemma ascending_col0 (l : points_t) : ascending l -> StronglySorted Qlt (col0 l).
Proof.
  induction 1 as [|p l Hs IH Hp]; simpl; constructor; auto.
  unfold col0. rewrite Forall_map. exact Hp.
Qed.

Lemma max_ascending (l : points_t) :
  ascending l -> Np.max (col0 l) == nth (length l - 1) (col0 l) 0.
Proof.
  intros Hl. apply ascending_col0 in Hl.
  replace (length l) with (length (col0 l)) by (unfold col0; apply length_map).
  destruct (col0 l) as [|q a]; [reflexivity|].
  unfold Np.max. rewrite (fold_max_last a q Hl).
  clear Hl. revert q. induction a as [|r a IH]; intros q; [reflexivity|].
  change (last (q :: r :: a) 0) with (last (r :: a) 0). rewrite IH.
  simpl. now rewrite Nat.sub_0_r.
Qed.

End Ascending.

(** ** What the builders hand to the evaluator *)

Section Built.

Lemma length_reshape4 (n : nat) (a : list Q) :
  length a = (4 * n)%nat -> length (Np2.reshape4 n a) = n.
Proof.
  revert a. induction n as [|n IH]; intros a Ha; [reflexivity|].
  destruct a as [|q0 [|q1 [|q2 [|q3 a]]]]; simpl in Ha; try lia.
  simpl. f_equal. apply IH. lia.
Qed.

Lemma rows_square (N : nat) (M : Np2.matrix) : square N (Np2.rows N M).
Proof.
  unfold square, Np2.rows. split.
  - now rewrite length_map, length_seq.
  - rewrite Forall_map, Forall_forall. intros r _. now rewrite length_map, length_seq.
Qed.

Lemma length_build_A (y : Np.array) (n : nat) :
  length y = S n -> length (build_A y n) = (4 * n)%nat.
Proof.
  intros Hy. unfold build_A.
  rewrite !length_app, length_removelast, length_tl, repeat_length. lia.
Qed.

Lemma map_S_domain (S : list expr) (points : points_t) :
  ascending points -> (2 <= length points)%nat ->
  sp_start (map_S S points) < sp_end (map_S S points) /\
  sp_start (map_S S points) == nth 0 (col0 points) 0 /\
  sp_end (map_S S points) == nth (length points - 1) (col0 points) 0.
Proof.
  intros Ha Hl. simpl. rewrite (min_ascending _ Ha), (max_ascending _ Ha).
  split; [|split; reflexivity]. apply ascending_nth; [assumption|lia].
Qed.

Lemma valid_sorted (points : points_t) :
  valid points ->
  ascending (sort_points points) /\ (2 <= length (sort_points points))%nat.
Proof.
  intros [Hl Hd]. split; [now apply sort_points_ascending|].
  now rewrite sort_points_length.
Qed.

(** The shape of a built spline: at least one segment, a domain that is
    not empty, and one expression for each segment. *)
Lemma built_shape (sp : spline) :
  built sp ->
  (0 < sp_n sp)%nat /\ sp_start sp < sp_end sp /\ length (sp_S sp) = sp_n sp.
Proof.
  intros (points & Hv & H).
  destruct (valid_sorted points Hv) as [Ha Hl].
  destruct Hv as [Hlen Hd].
  destruct points as [|p0 [|p1 l]]; simpl in Hlen; try lia.
  remember (p0 :: p1 :: l) as points eqn:Ep.
  destruct H as [H|H].
  - unfold cubic_spline4_matrix in H. rewrite Ep in H at 1.
    destruct (Np2.solve _ _) as [coeff|e] eqn:Es; simpl in H; [|discriminate].
    inversion H; subst sp; clear H.
    pose proof (map_S_domain (dense_S coeff (length (sort_points points) - 1)) _ Ha Hl)
      as [Hd1 _].
    split; [simpl; lia|]. split; [exact Hd1|].
    simpl. unfold dense_S. rewrite length_map. apply length_reshape4.
    eapply solve_sound; [apply rows_square| |exact Es].
    apply length_build_A. unfold col1. rewrite length_map. lia.
  - unfold cubic_spline4 in H. rewrite Ep in H at 1.
    inversion H; subst sp; clear H.
    pose proof (map_S_domain (moments_S (sort_points points)
                                (solve_moments (sort_points points))) _ Ha Hl) as [Hd1 _].
    split; [simpl; lia|]. split; [exact Hd1|].
    simpl. apply length_moments_S. lia.
Qed.

End Built.

(** ** The segment lookup (C8)

    The lookup on doubles: where the two operands of [//] are finite, the
    width is not zero and the quotient stays below [2^50] in magnitude, the
    index is the floor of the quotient. *)
Lemma overflow_beyond_integers : 2 ^ 50 < F64.overflow.
Proof. apply Qlt_alt. vm_compute. reflexivity. Qed.

Lemma int_floordiv_finite (x y : PrimFloat.float) (a w : Q) :
  F64.exact x = Some a -> F64.exact y = Some w -> ~ w == 0 -> Qabs (a / w) < 2 ^ 50 ->
  F64.int_floordiv x y = Ok (Qfloor (a / w)).
Proof.
  intros Ex Ey Hw Hb. unfold F64.int_floordiv. rewrite Ex, Ey.
  destruct (Qeq_bool w 0) eqn:E0; [apply Qeq_bool_iff in E0; contradiction|].
  destruct (Qle_bool F64.overflow (Qabs (a / w))) eqn:E1; [|reflexivity].
  apply Qle_bool_iff in E1. pose proof overflow_beyond_integers. lra.
Qed.

Lemma floor_cell_of (a w : Q) :
  0 < w ->
  inject_Z (Qfloor (a / w)) * w <= a /\ a < inject_Z (Qfloor (a / w) + 1) * w.
Proof.
  intros Hw. pose proof (Qfloor_le (a / w)) as Hl. pose proof (Qlt_floor (a / w)) as Hh.
  assert (E : a / w * w == a) by (field; lra).
  split.
  - rewrite <- E at 2. apply Qmult_le_compat_r; lra.
  - rewrite <- E at 1. apply Qmult_lt_compat_r; lra.
Qed.


Lemma in_domain_lookup (sp : spline) (p : Q) :
  built sp -> sp_start sp <= p <= sp_end sp ->
  exists i : Z,
    map_points sp p = Ok i /\ (0 <= i < Z.of_nat (sp_n sp))%Z /\
    (Z.to_nat i < length (sp_S sp))%nat /\
    splines sp p = Ok (lambdify (segment (sp_S sp) (Z.to_nat i)) p).
Proof.
  intros Hb [Hlo Hhi]. destruct (built_shape sp Hb) as (Hn & Hd & Hlen).
  destruct (Qeq_dec p (sp_end sp)) as [E|E].
  - exists (Z.of_nat (sp_n sp) - 1)%Z.
    pose proof (map_points_end sp p E) as Hm.
    split; [exact Hm|]. split; [lia|]. split; [lia|].
    apply splines_at_index; [exact Hm|]. lia.
  - exists (Qfloor ((p - sp_start sp)
                    / ((sp_end sp - sp_start sp) / inject_Z (Z.of_nat (sp_n sp))))).
    pose proof (map_points_inside sp Hn Hd p E) as Hm.
    assert (Hp : p < sp_end sp) by lra.
    pose proof (floor_in_range sp Hn Hd p Hlo Hp) as Hr.
    split; [exact Hm|]. split; [exact Hr|]. split; [lia|].
    apply splines_at_index; [exact Hm|]. lia.
Qed.

(** In exact arithmetic a query inside the domain of a built spline
    selects an index among [0 .. n - 1], and the call returns the value of
    that segment. *)
Lemma index_in_range_exact (sp : spline) (p : Q) :
  built sp -> sp_start sp <= p <= sp_end sp ->
  sp_start sp < sp_end sp /\ length (sp_S sp) = sp_n sp /\
  exists i : Z,
    map_points sp p = Ok i /\ (0 <= i < Z.of_nat (sp_n sp))%Z /\
    (Z.to_nat i < length (sp_S sp))%nat /\
    splines sp p = Ok (lambdify (segment (sp_S sp) (Z.to_nat i)) p).
Proof.
  intros Hb Hp. destruct (built_shape sp Hb) as (Hn & Hd & Hlen).
  split; [exact Hd|]. split; [exact Hlen|]. now apply in_domain_lookup.
Qed.

(** C10, evaluated on [pts_around_zero] at the query [F64.below_one]: the
    spline has [n = 2] segments on the domain [[-1, 1]], and the query lies
    in the domain and is not its end.  In doubles [p - start] is
    [(1 - 2^-53) + 1], which rounds to [2.0], the width is [2.0 / 2 = 1.0],
    and the index is [int(2.0 // 1.0) = 2 = n]: [func[2]] raises
    [IndexError].  On the exact value of the same query the index is [1]. *)
Theorem C10_rounding_reaches_index_n :
  exists sp,
    cubic_spline4 pts_around_zero = Ok sp /\
    sp_n sp = 2%nat /\ length (sp_S sp) = 2%nat /\
    sp_start sp == - (1) /\ sp_end sp == 1 /\
    PrimFloat.leb F64.minus_one F64.below_one = true /\
    PrimFloat.ltb F64.below_one F64.one = true /\
    F64.exact F64.below_one = Some (9007199254740991 # 9007199254740992) /\
    PrimFloat.eqb (PrimFloat.sub F64.below_one F64.minus_one) F64.two = true /\
    F64.map_points F64.minus_one F64.one 2 F64.below_one = Ok 2%Z /\
    list_getitem (map lambdify (sp_S sp)) 2 = Raise IndexError /\
    map_points sp (9007199254740991 # 9007199254740992) = Ok 1%Z.
Proof.
  eexists. split; [vm_compute; reflexivity|].
  repeat (split; [vm_compute; reflexivity|]). vm_compute; reflexivity.
Qed.

(** ** Index-array assignment *)

Section Assign.

Import Np2.

Variables (R C : ndarray nat) (V : ndarray Q).

Let step (M : matrix) (ij : nat * nat) : matrix :=
  setitem M (cell R (fst ij) (snd ij)) (cell C (fst ij) (snd ij))
          (cell V (fst ij) (snd ij)).

Lemma setitem_same (M : matrix) (r c : nat) (q : Q) : setitem M r c q r c = q.
Proof. unfold setitem. now rewrite !Nat.eqb_refl. Qed.

Lemma setitem_other (M : matrix) (r c r' c' : nat) (q : Q) :
  r' <> r \/ c' <> c -> setitem M r c q r' c' = M r' c'.
Proof.
  intros H. unfold setitem.
  destruct (Nat.eqb_spec r' r), (Nat.eqb_spec c' c); simpl; auto. lia.
Qed.

Lemma fold_step_miss (l : list (nat * nat)) (M : matrix) (r c : nat) :
  (forall ij, In ij l ->
     cell R (fst ij) (snd ij) <> r \/ cell C (fst ij) (snd ij) <> c) ->
  fold_left step l M r c = M r c.
Proof.
  revert M. induction l as [|ij l IH]; intros M H; simpl; [reflexivity|].
  rewrite IH by (intros; apply H; now right).
  unfold step. apply setitem_other.
  destruct (H ij (or_introl eq_refl)); auto.
Qed.

Lemma fold_step_hit (l : list (nat * nat)) (M : matrix) (ij : nat * nat) :
  In ij l ->
  (forall ij', In ij' l ->
     cell R (fst ij') (snd ij') = cell R (fst ij) (snd ij) ->
     cell C (fst ij') (snd ij') = cell C (fst ij) (snd ij) ->
     cell V (fst ij') (snd ij') = cell V (fst ij) (snd ij)) ->
  fold_left step l M (cell R (fst ij) (snd ij)) (cell C (fst ij) (snd ij))
  = cell V (fst ij) (snd ij).
Proof.
  revert M. induction l as [|a l IH] using rev_ind; intros M Hin Hf; [contradiction|].
  rewrite fold_left_app. simpl. unfold step at 1.
  destruct (Nat.eq_dec (cell R (fst a) (snd a)) (cell R (fst ij) (snd ij))) as [Er|Er];
    [destruct (Nat.eq_dec (cell C (fst a) (snd a)) (cell C (fst ij) (snd ij))) as [Ec|Ec]|].
  - rewrite <- Er, <- Ec, setitem_same. apply Hf; auto. apply in_or_app. right. now left.
  - rewrite setitem_other by auto. apply IH.
    + apply in_app_or in Hin. destruct Hin as [|[E|[]]]; auto. subst a. contradiction.
    + intros ij' Hin'. apply Hf. apply in_or_app. now left.
  - rewrite setitem_other by auto. apply IH.
    + apply in_app_or in Hin. destruct Hin as [|[E|[]]]; auto. subst a. contradiction.
    + intros ij' Hin'. apply Hf. apply in_or_app. now left.
Qed.

Lemma in_cells (ij : nat * nat) :
  In ij (list_prod (seq 0 (nrows R)) (seq 0 (ncols R)))
  <-> (fst ij < nrows R /\ snd ij < ncols R)%nat.
Proof.
  destruct ij as [i j]. rewrite in_prod_iff, !in_seq. simpl. lia.
Qed.

(** The index arrays of the builder write one band of the matrix: cell
    [(i, j)] of the arrays goes to row [i + off], column [4 i + j + coff]. *)
Variables (off coff : nat).
Hypothesis rows_of_R :
  forall i j, (i < nrows R)%nat -> (j < ncols R)%nat -> cell R i j = (i + off)%nat.
Hypothesis cols_of_C :
  forall i j, (i < nrows R)%nat -> (j < ncols R)%nat -> cell C i j = (4 * i + j + coff)%nat.
Hypothesis narrow : (ncols R <= 4)%nat.

Lemma assign_hit (M : matrix) (r c i j : nat) :
  (i < nrows R)%nat -> (j < ncols R)%nat ->
  r = (i + off)%nat -> c = (4 * i + j + coff)%nat ->
  assign M R C V r c = cell V i j.
Proof.
  intros Hi Hj -> ->. unfold assign.
  rewrite <- (rows_of_R i j Hi Hj), <- (cols_of_C i j Hi Hj).
  apply (fold_step_hit _ M (i, j)).
  - apply in_cells. simpl. lia.
  - intros [i' j'] Hin Er Ec. apply in_cells in Hin. simpl in *.
    destruct Hin as [Hi' Hj'].
    rewrite rows_of_R in Er by assumption. rewrite (rows_of_R i j) in Er by assumption.
    rewrite cols_of_C in Ec by assumption. rewrite (cols_of_C i j) in Ec by assumption.
    assert (i' = i) by lia. subst i'. assert (j' = j) by lia. now subst j'.
Qed.

Lemma assign_miss (M : matrix) (r c : nat) :
  (r < off \/ off + nrows R <= r \/
   c < 4 * (r - off) + coff \/ 4 * (r - off) + coff + ncols R <= c)%nat ->
  assign M R C V r c = M r c.
Proof.
  intros H. unfold assign. apply fold_step_miss.
  intros [i j] Hin. apply in_cells in Hin. simpl in *. destruct Hin as [Hi Hj].
  rewrite rows_of_R, cols_of_C by assumption. lia.
Qed.

End Assign.

(** ** The cells of the dense system *)

Lemma div4 (i j : nat) : (j < 4)%nat -> ((4 * i + j) / 4)%nat = i.
Proof. intros H. symmetry. apply (Nat.div_unique _ 4 i j); lia. Qed.

(** Side conditions on the index arrays. *)
Ltac cells :=
  cbn [Np2.cell Np2.nrows Np2.ncols Np2.imap Np2.arange4 Np2.take Np2.neg Np2.mul_row
       Np2.but_last_row Np2.but_first_row Np2.but_last_col Np2.but_first_col] in *.
Ltac band := solve [ lia | cells; intros; rewrite ?div4 by lia; lia ].

Section Cells.

Import Np2.

Variables (X : ndarray Q) (n : nat) (M : matrix).

(** *** Lines 24-25 *)

Lemma values_left (i j : nat) :
  (i < n)%nat -> (j < 4)%nat ->
  assign_values X n M i (4 * i + j)%nat = cell X i j.
Proof.
  intros Hi Hj. unfold assign_values.
  rewrite assign_miss with (off := n) (coff := 0%nat) by band.
  rewrite assign_hit with (off := 0%nat) (coff := 0%nat) (i := i) (j := j) by band.
  reflexivity.
Qed.

Lemma values_right (i j : nat) :
  (i < n)%nat -> (j < 4)%nat ->
  assign_values X n M (n + i)%nat (4 * i + j)%nat = cell X (S i) j.
Proof.
  intros Hi Hj. unfold assign_values.
  rewrite assign_hit with (off := n) (coff := 0%nat) (i := i) (j := j) by band.
  reflexivity.
Qed.

Lemma values_left_else (i c : nat) :
  (i < n)%nat -> (c < 4 * i \/ 4 * i + 4 <= c)%nat ->
  assign_values X n M i c = M i c.
Proof.
  intros Hi Hc. unfold assign_values.
  rewrite assign_miss with (off := n) (coff := 0%nat) by band.
  rewrite assign_miss with (off := 0%nat) (coff := 0%nat) by band.
  reflexivity.
Qed.

Lemma values_right_else (i c : nat) :
  (i < n)%nat -> (c < 4 * i \/ 4 * i + 4 <= c)%nat ->
  assign_values X n M (n + i)%nat c = M (n + i)%nat c.
Proof.
  intros Hi Hc. unfold assign_values.
  rewrite assign_miss with (off := n) (coff := 0%nat) by band.
  rewrite assign_miss with (off := 0%nat) (coff := 0%nat) by band.
  reflexivity.
Qed.

Lemma values_below (r c : nat) :
  (2 * n <= r)%nat -> assign_values X n M r c = M r c.
Proof.
  intros Hr. unfold assign_values.
  rewrite assign_miss with (off := n) (coff := 0%nat) by band.
  rewrite assign_miss with (off := 0%nat) (coff := 0%nat) by band.
  reflexivity.
Qed.

(** *** Lines 26-28 *)

Lemma slopes_left (i j : nat) :
  (i < n - 1)%nat -> (j < 3)%nat ->
  assign_slopes X n M (2 * n + i)%nat (4 * i + j)%nat
  = cell X (S i) (S j) * nth j [3; 2; 1] 0.
Proof.
  intros Hi Hj. unfold assign_slopes.
  rewrite assign_miss with (off := (n * 2)%nat) (coff := 4%nat) by band.
  rewrite assign_hit with (off := (n * 2)%nat) (coff := 0%nat) (i := i) (j := j) by band.
  reflexivity.
Qed.

Lemma slopes_right (i j : nat) :
  (i < n - 1)%nat -> (j < 3)%nat ->
  assign_slopes X n M (2 * n + i)%nat (4 * i + 4 + j)%nat
  = - (cell X (S i) (S j) * nth j [3; 2; 1] 0).
Proof.
  intros Hi Hj. unfold assign_slopes.
  rewrite assign_hit with (off := (n * 2)%nat) (coff := 4%nat) (i := i) (j := j) by band.
  cells. rewrite div4 by lia.
  rewrite assign_hit with (off := (n * 2)%nat) (coff := 0%nat) (i := i) (j := j) by band.
  reflexivity.
Qed.

Lemma slopes_else (i c : nat) :
  (i < n - 1)%nat ->
  (c < 4 * i \/ c = 4 * i + 3 \/ 4 * i + 7 <= c)%nat ->
  assign_slopes X n M (2 * n + i)%nat c = M (2 * n + i)%nat c.
Proof.
  intros Hi Hc. unfold assign_slopes.
  rewrite assign_miss with (off := (n * 2)%nat) (coff := 4%nat) by band.
  rewrite assign_miss with (off := (n * 2)%nat) (coff := 0%nat) by band.
  reflexivity.
Qed.

Lemma slopes_other_rows (r c : nat) :
  (r < 2 * n \/ 3 * n - 1 <= r)%nat -> assign_slopes X n M r c = M r c.
Proof.
  intros Hr. unfold assign_slopes.
  rewrite assign_miss with (off := (n * 2)%nat) (coff := 4%nat) by band.
  rewrite assign_miss with (off := (n * 2)%nat) (coff := 0%nat) by band.
  reflexivity.
Qed.

(** *** Lines 29-31 *)

Lemma curvatures_left (i j : nat) :
  (i < n - 1)%nat -> (j < 2)%nat ->
  assign_curvatures X n M (3 * n - 1 + i)%nat (4 * i + j)%nat
  = cell X (S i) (S (S j)) * nth j [6; 2] 0.
Proof.
  intros Hi Hj. unfold assign_curvatures.
  rewrite assign_miss with (off := (n * 3 - 1)%nat) (coff := 4%nat) by band.
  rewrite assign_hit with (off := (n * 3 - 1)%nat) (coff := 0%nat) (i := i) (j := j)
    by band.
  reflexivity.
Qed.

Lemma curvatures_right (i j : nat) :
  (i < n - 1)%nat -> (j < 2)%nat ->
  assign_curvatures X n M (3 * n - 1 + i)%nat (4 * i + 4 + j)%nat
  = - (cell X (S i) (S (S j)) * nth j [6; 2] 0).
Proof.
  intros Hi Hj. unfold assign_curvatures.
  rewrite assign_hit with (off := (n * 3 - 1)%nat) (coff := 4%nat) (i := i) (j := j)
    by band.
  cells. rewrite div4 by lia.
  rewrite assign_hit with (off := (n * 3 - 1)%nat) (coff := 0%nat) (i := i) (j := j)
    by band.
  reflexivity.
Qed.

Lemma curvatures_else (i c : nat) :
  (i < n - 1)%nat ->
  (c < 4 * i \/ 4 * i + 2 <= c < 4 * i + 4 \/ 4 * i + 6 <= c)%nat ->
  assign_curvatures X n M (3 * n - 1 + i)%nat c = M (3 * n - 1 + i)%nat c.
Proof.
  intros Hi Hc. unfold assign_curvatures.
  rewrite assign_miss with (off := (n * 3 - 1)%nat) (coff := 4%nat) by band.
  rewrite assign_miss with (off := (n * 3 - 1)%nat) (coff := 0%nat) by band.
  reflexivity.
Qed.

Lemma curvatures_other_rows (r c : nat) :
  (r < 3 * n - 1 \/ 4 * n - 2 <= r)%nat -> assign_curvatures X n M r c = M r c.
Proof.
  intros Hr. unfold assign_curvatures.
  rewrite assign_miss with (off := (n * 3 - 1)%nat) (coff := 4%nat) by band.
  rewrite assign_miss with (off := (n * 3 - 1)%nat) (coff := 0%nat) by band.
  reflexivity.
Qed.

End Cells.

Section Rows.

Import Np2.

Variables (x : Np.array) (n : nat).
Hypothesis n_pos : (0 < n)%nat.

Let xs (i : nat) : Q := Np.getitem x i.
Let X := vander4 x.

(** *** Line 32 *)

Ltac decide_cells :=
  unfold setitem;
  repeat match goal with
         | |- context [(?a =? ?b)%nat] => destruct (Nat.eqb_spec a b)
         end;
  try lia; reflexivity.

Lemma natural_other_rows (M : matrix) (r c : nat) :
  (r < 4 * n - 2)%nat -> assign_natural X n M r c = M r c.
Proof.
  intros Hr. unfold assign_natural, assign_slice. simpl fold_left. decide_cells.
Qed.

Lemma natural_first (M : matrix) (c : nat) :
  assign_natural X n M (4 * n - 2)%nat c
  = match c with
    | 0%nat => xs 0 * 6
    | 1%nat => 1 * 2
    | _ => M (4 * n - 2)%nat c
    end.
Proof.
  unfold assign_natural, assign_slice. simpl fold_left.
  destruct c as [|[|c]]; decide_cells.
Qed.

Lemma natural_last (M : matrix) (c : nat) :
  assign_natural X n M (4 * n - 1)%nat c
  = if (c =? 4 * n - 4)%nat then xs (length x - 1) * 6
    else if (c =? 4 * n - 3)%nat then 1 * 2
    else M (4 * n - 1)%nat c.
Proof.
  unfold assign_natural, assign_slice. simpl fold_left. decide_cells.
Qed.

(** *** The rows of [build_M] *)

Lemma row_left (i j : nat) :
  (i < n)%nat -> (j < 4)%nat ->
  build_M x n i (4 * i + j)%nat = xs i ^ Z.of_nat (3 - j).
Proof.
  intros Hi Hj. unfold build_M.
  rewrite natural_other_rows, curvatures_other_rows, slopes_other_rows by lia.
  now rewrite values_left.
Qed.

Lemma row_left_else (i c : nat) :
  (i < n)%nat -> (c < 4 * i \/ 4 * i + 4 <= c)%nat -> build_M x n i c = 0.
Proof.
  intros Hi Hc. unfold build_M.
  rewrite natural_other_rows, curvatures_other_rows, slopes_other_rows by lia.
  now rewrite values_left_else.
Qed.

Lemma row_right (i j : nat) :
  (i < n)%nat -> (j < 4)%nat ->
  build_M x n (n + i)%nat (4 * i + j)%nat = xs (S i) ^ Z.of_nat (3 - j).
Proof.
  intros Hi Hj. unfold build_M.
  rewrite natural_other_rows, curvatures_other_rows, slopes_other_rows by lia.
  now rewrite values_right.
Qed.

Lemma row_right_else (i c : nat) :
  (i < n)%nat -> (c < 4 * i \/ 4 * i + 4 <= c)%nat -> build_M x n (n + i)%nat c = 0.
Proof.
  intros Hi Hc. unfold build_M.
  rewrite natural_other_rows, curvatures_other_rows, slopes_other_rows by lia.
  now rewrite values_right_else.
Qed.

Lemma row_slope_left (i j : nat) :
  (i < n - 1)%nat -> (j < 3)%nat ->
  build_M x n (2 * n + i)%nat (4 * i + j)%nat
  = xs (S i) ^ Z.of_nat (3 - S j) * nth j [3; 2; 1] 0.
Proof.
  intros Hi Hj. unfold build_M.
  rewrite natural_other_rows, curvatures_other_rows by lia.
  now rewrite slopes_left.
Qed.

Lemma row_slope_right (i j : nat) :
  (i < n - 1)%nat -> (j < 3)%nat ->
  build_M x n (2 * n + i)%nat (4 * i + 4 + j)%nat
  = - (xs (S i) ^ Z.of_nat (3 - S j) * nth j [3; 2; 1] 0).
Proof.
  intros Hi Hj. unfold build_M.
  rewrite natural_other_rows, curvatures_other_rows by lia.
  now rewrite slopes_right.
Qed.

Lemma row_slope_else (i c : nat) :
  (i < n - 1)%nat -> (c < 4 * i \/ c = 4 * i + 3 \/ 4 * i + 7 <= c)%nat ->
  build_M x n (2 * n + i)%nat c = 0.
Proof.
  intros Hi Hc. unfold build_M.
  rewrite natural_other_rows, curvatures_other_rows by lia.
  rewrite slopes_else by assumption. now rewrite values_below by lia.
Qed.

Lemma row_curvature_left (i j : nat) :
  (i < n - 1)%nat -> (j < 2)%nat ->
  build_M x n (3 * n - 1 + i)%nat (4 * i + j)%nat
  = xs (S i) ^ Z.of_nat (3 - S (S j)) * nth j [6; 2] 0.
Proof.
  intros Hi Hj. unfold build_M.
  rewrite natural_other_rows by lia.
  now rewrite curvatures_left.
Qed.

Lemma row_curvature_right (i j : nat) :
  (i < n - 1)%nat -> (j < 2)%nat ->
  build_M x n (3 * n - 1 + i)%nat (4 * i + 4 + j)%nat
  = - (xs (S i) ^ Z.of_nat (3 - S (S j)) * nth j [6; 2] 0).
Proof.
  intros Hi Hj. unfold build_M.
  rewrite natural_other_rows by lia.
  now rewrite curvatures_right.
Qed.

Lemma row_curvature_else (i c : nat) :
  (i < n - 1)%nat ->
  (c < 4 * i \/ 4 * i + 2 <= c < 4 * i + 4 \/ 4 * i + 6 <= c)%nat ->
  build_M x n (3 * n - 1 + i)%nat c = 0.
Proof.
  intros Hi Hc. unfold build_M.
  rewrite natural_other_rows by lia.
  rewrite curvatures_else by assumption.
  rewrite slopes_other_rows by lia. now rewrite values_below by lia.
Qed.

Lemma row_natural_first (c : nat) :
  build_M x n (4 * n - 2)%nat c
  = match c with 0%nat => xs 0 * 6 | 1%nat => 1 * 2 | _ => 0 end.
Proof.
  unfold build_M. rewrite natural_first. destruct c as [|[|c]]; try reflexivity.
  rewrite curvatures_other_rows, slopes_other_rows by lia. now rewrite values_below by lia.
Qed.

Lemma row_natural_last (c : nat) :
  build_M x n (4 * n - 1)%nat c
  = if (c =? 4 * n - 4)%nat then xs (length x - 1) * 6
    else if (c =? 4 * n - 3)%nat then 1 * 2 else 0.
Proof.
  unfold build_M. rewrite natural_last.
  destruct (c =? 4 * n - 4)%nat; [reflexivity|].
  destruct (c =? 4 * n - 3)%nat; [reflexivity|].
  rewrite curvatures_other_rows, slopes_other_rows by lia. now rewrite values_below by lia.
Qed.

End Rows.

(** ** Rows as equations on the coefficients *)

Section Sums.

Import Np2.

Lemma big_app (g : nat -> Q) (l l' : list nat) : big g (l ++ l') == big g l + big g l'.
Proof.
  unfold big. induction l as [|a l IH]; simpl; [ring|]. rewrite IH. ring.
Qed.

Lemma big_zero (g : nat -> Q) (l : list nat) :
  (forall k, In k l -> g k == 0) -> big g l == 0.
Proof.
  unfold big. induction l as [|a l IH]; intros H; simpl; [reflexivity|].
  rewrite IH by (intros; apply H; now right). rewrite (H a) by now left. ring.
Qed.

Lemma big_ext (g g' : nat -> Q) (l : list nat) :
  (forall k, In k l -> g k == g' k) -> big g l == big g' l.
Proof.
  unfold big. induction l as [|a l IH]; intros H; simpl; [reflexivity|].
  rewrite IH by (intros; apply H; now right). rewrite (H a) by now left. reflexivity.
Qed.

Lemma big_window (g : nat -> Q) (N a w : nat) :
  (a + w <= N)%nat ->
  (forall k, (k < N)%nat -> (k < a \/ a + w <= k)%nat -> g k == 0) ->
  big g (seq 0 N) == big g (seq a w).
Proof.
  intros Hw Hz.
  replace N with (a + (w + (N - a - w)))%nat at 1 by lia.
  rewrite !seq_app, !big_app. simpl.
  rewrite (big_zero g (seq 0 a)), (big_zero g (seq (a + w) _)).
  - ring.
  - intros k Hk. apply in_seq in Hk. apply Hz; lia.
  - intros k Hk. apply in_seq in Hk. apply Hz; lia.
Qed.

Lemma dot_map_seq_from (f : nat -> Q) (s : nat) (c : list Q) :
  dot (map f (seq s (length c))) c
  == big (fun k => f k * nth (k - s) c 0) (seq s (length c)).
Proof.
  revert s. induction c as [|q c IH]; intros s; [reflexivity|].
  cbn [length seq map]. rewrite dot_cons, IH.
  unfold big at 2. cbn [map fold_right]. fold (big (fun k => f k * nth (k - s) (q :: c) 0)
                                                 (seq (S s) (length c))).
  rewrite Nat.sub_diag. cbn [nth].
  apply Qplus_comp; [reflexivity|].
  apply big_ext. intros k Hk. apply in_seq in Hk.
  replace (k - s)%nat with (S (k - S s)) by lia. reflexivity.
Qed.

(** The product of a row of cells with [c], when the row vanishes outside
    the columns [a .. a + w - 1]. *)
Lemma dot_window (f : nat -> Q) (N a w : nat) (c : list Q) :
  length c = N -> (a + w <= N)%nat ->
  (forall k, (k < N)%nat -> (k < a \/ a + w <= k)%nat -> f k == 0) ->
  dot (map f (seq 0 N)) c == big (fun k => f k * nth k c 0) (seq a w).
Proof.
  intros Hc Hw Hz. subst N. rewrite dot_map_seq_from.
  rewrite (big_ext _ (fun k => f k * nth k c 0)).
  - apply big_window; [assumption|].
    intros k Hk Hout. rewrite (Hz k Hk Hout). ring.
  - intros k _. now rewrite Nat.sub_0_r.
Qed.

Lemma nth_rows (N : nat) (M : matrix) (r : nat) :
  (r < N)%nat -> nth r (rows N M) [] = map (M r) (seq 0 N).
Proof. intros Hr. unfold rows. now rewrite nth_map_seq. Qed.

End Sums.

Section Equations.

Import Np2.

Variables (x : Np.array) (n : nat) (c : list Q).
Hypothesis n_pos : (0 < n)%nat.
Hypothesis c_length : length c = (4 * n)%nat.

Let xs (i : nat) : Q := Np.getitem x i.
Let co (k : nat) : Q := nth k c 0.
Let lhs (r : nat) : Q := dot (nth r (rows (4 * n) (build_M x n)) []) c.

Lemma pow_cell_1 (q : Q) : q ^ 1 = q.
Proof. reflexivity. Qed.

Lemma pow_cell_0 (q : Q) : q ^ 0 = 1.
Proof. reflexivity. Qed.

Ltac powers :=
  cbn [Nat.sub Z.of_nat Pos.of_succ_nat Pos.succ nth];
  rewrite ?pow_cell_1, ?pow_cell_0; unfold xs.

Lemma big_seq2 (g : nat -> Q) (a : nat) :
  big g (seq a 2) == g a + g (a + 1)%nat.
Proof.
  unfold big. cbn [seq map fold_right].
  replace (S a) with (a + 1)%nat by lia. ring.
Qed.

Lemma big_seq4 (g : nat -> Q) (a : nat) :
  big g (seq a 4) == g (a + 0)%nat + g (a + 1)%nat + g (a + 2)%nat + g (a + 3)%nat.
Proof.
  unfold big. cbn [seq map fold_right].
  replace (S (S (S a))) with (a + 3)%nat by lia.
  replace (S (S a)) with (a + 2)%nat by lia.
  replace (S a) with (a + 1)%nat by lia.
  replace a with (a + 0)%nat at 1 by lia. ring.
Qed.

Lemma big_seq8 (g : nat -> Q) (a : nat) :
  big g (seq a 8)
  == g (a + 0)%nat + g (a + 1)%nat + g (a + 2)%nat + g (a + 3)%nat
     + g (a + 4 + 0)%nat + g (a + 4 + 1)%nat + g (a + 4 + 2)%nat + g (a + 4 + 3)%nat.
Proof.
  change 8%nat with (4 + 4)%nat. rewrite seq_app, big_app, !big_seq4. ring.
Qed.

Lemma equation_left (i : nat) :
  (i < n)%nat ->
  lhs i == xs i ^ 3 * co (4 * i) + xs i ^ 2 * co (4 * i + 1)
           + xs i * co (4 * i + 2) + co (4 * i + 3).
Proof.
  intros Hi. unfold lhs. rewrite nth_rows by lia.
  rewrite (dot_window _ (4 * n) (4 * i) 4); [|assumption|lia|].
  - rewrite big_seq4, !row_left by lia.
    replace (4 * i + 0)%nat with (4 * i)%nat by lia.
    unfold co. powers. ring.
  - intros k Hk Hout. rewrite row_left_else by lia. reflexivity.
Qed.

Lemma equation_right (i : nat) :
  (i < n)%nat ->
  lhs (n + i) == xs (S i) ^ 3 * co (4 * i) + xs (S i) ^ 2 * co (4 * i + 1)
                 + xs (S i) * co (4 * i + 2) + co (4 * i + 3).
Proof.
  intros Hi. unfold lhs. rewrite nth_rows by lia.
  rewrite (dot_window _ (4 * n) (4 * i) 4); [|assumption|lia|].
  - rewrite big_seq4, !row_right by lia.
    replace (4 * i + 0)%nat with (4 * i)%nat by lia.
    unfold co. powers. ring.
  - intros k Hk Hout. rewrite row_right_else by lia. reflexivity.
Qed.

Lemma equation_slope (i : nat) :
  (i < n - 1)%nat ->
  lhs (2 * n + i)
  == (3 * xs (S i) ^ 2 * co (4 * i) + 2 * xs (S i) * co (4 * i + 1) + co (4 * i + 2))
     - (3 * xs (S i) ^ 2 * co (4 * i + 4) + 2 * xs (S i) * co (4 * i + 5)
        + co (4 * i + 6)).
Proof.
  intros Hi. unfold lhs. rewrite nth_rows by lia.
  rewrite (dot_window _ (4 * n) (4 * i) 8); [|assumption|lia|].
  - rewrite big_seq8, !row_slope_left, !row_slope_right by lia.
    rewrite (row_slope_else _ _ n_pos i (4 * i + 3)) by lia.
    rewrite (row_slope_else _ _ n_pos i (4 * i + 4 + 3)) by lia.
    replace (4 * i + 0)%nat with (4 * i)%nat by lia.
    replace (4 * i + 4 + 0)%nat with (4 * i + 4)%nat by lia.
    replace (4 * i + 4 + 1)%nat with (4 * i + 5)%nat by lia.
    replace (4 * i + 4 + 2)%nat with (4 * i + 6)%nat by lia.
    unfold co. powers. ring.
  - intros k Hk Hout. rewrite row_slope_else by lia. reflexivity.
Qed.

Lemma equation_curvature (i : nat) :
  (i < n - 1)%nat ->
  lhs (3 * n - 1 + i)
  == (6 * xs (S i) * co (4 * i) + 2 * co (4 * i + 1))
     - (6 * xs (S i) * co (4 * i + 4) + 2 * co (4 * i + 5)).
Proof.
  intros Hi. unfold lhs. rewrite nth_rows by lia.
  rewrite (dot_window _ (4 * n) (4 * i) 8); [|assumption|lia|].
  - rewrite big_seq8, !row_curvature_left, !row_curvature_right by lia.
    rewrite (row_curvature_else _ _ n_pos i (4 * i + 2)) by lia.
    rewrite (row_curvature_else _ _ n_pos i (4 * i + 3)) by lia.
    rewrite (row_curvature_else _ _ n_pos i (4 * i + 4 + 2)) by lia.
    rewrite (row_curvature_else _ _ n_pos i (4 * i + 4 + 3)) by lia.
    replace (4 * i + 0)%nat with (4 * i)%nat by lia.
    replace (4 * i + 4 + 0)%nat with (4 * i + 4)%nat by lia.
    replace (4 * i + 4 + 1)%nat with (4 * i + 5)%nat by lia.
    unfold co. powers. ring.
  - intros k Hk Hout. rewrite row_curvature_else by lia. reflexivity.
Qed.

Lemma equation_natural_first :
  lhs (4 * n - 2) == 6 * xs 0 * co 0 + 2 * co 1.
Proof.
  unfold lhs. rewrite nth_rows by lia.
  rewrite (dot_window _ (4 * n) 0 2); [|assumption|lia|].
  - rewrite big_seq2, !row_natural_first by lia. unfold co, xs. cbn [Nat.add]. ring.
  - intros k Hk Hout. rewrite row_natural_first by lia.
    destruct k as [|[|k]]; [lia|lia|reflexivity].
Qed.

Lemma equation_natural_last :
  lhs (4 * n - 1)
  == 6 * xs (length x - 1) * co (4 * n - 4) + 2 * co (4 * n - 3).
Proof.
  unfold lhs. rewrite nth_rows by lia.
  rewrite (dot_window _ (4 * n) (4 * n - 4) 2); [|assumption|lia|].
  - rewrite big_seq2, !row_natural_last by lia.
    rewrite Nat.eqb_refl.
    replace (4 * n - 4 + 1)%nat with (4 * n - 3)%nat by lia.
    destruct (Nat.eqb_spec (4 * n - 3) (4 * n - 4)); [lia|].
    rewrite Nat.eqb_refl. unfold co, xs. ring.
  - intros k Hk Hout. rewrite row_natural_last by lia.
    destruct (Nat.eqb_spec k (4 * n - 4)); [lia|].
    destruct (Nat.eqb_spec k (4 * n - 3)); [lia|]. reflexivity.
Qed.

End Equations.

(** ** The segments of the dense builder *)

Lemma nth_reshape4 (n : nat) (c : list Q) (i : nat) :
  length c = (4 * n)%nat -> (i < n)%nat ->
  nth i (Np2.reshape4 n c) []
  = [nth (4 * i) c 0; nth (4 * i + 1) c 0; nth (4 * i + 2) c 0; nth (4 * i + 3) c 0].
Proof.
  revert c i. induction n as [|n IH]; intros c i Hc Hi; [lia|].
  destruct c as [|q0 [|q1 [|q2 [|q3 c]]]]; simpl in Hc; try lia.
  destruct i as [|i]; [reflexivity|].
  cbn [Np2.reshape4 nth]. rewrite IH by lia.
  replace (4 * S i)%nat with (S (S (S (S (4 * i))))) by lia.
  replace (S (S (S (S (4 * i)))) + 1)%nat with (S (S (S (S (4 * i + 1))))) by lia.
  replace (S (S (S (S (4 * i)))) + 2)%nat with (S (S (S (S (4 * i + 2))))) by lia.
  replace (S (S (S (S (4 * i)))) + 3)%nat with (S (S (S (S (4 * i + 3))))) by lia.
  reflexivity.
Qed.

Lemma cubic_value (a b c d p : Q) :
  lambdify (cubic [a; b; c; d]) p == a * p ^ 3 + b * p ^ 2 + c * p + d.
Proof. simpl. ring. Qed.

Lemma cubic_d1 (a b c d p : Q) :
  d1 (cubic [a; b; c; d]) p == 3 * a * p ^ 2 + 2 * b * p + c.
Proof. unfold d1. simpl. ring. Qed.

Lemma cubic_d2 (a b c d p : Q) :
  d2 (cubic [a; b; c; d]) p == 6 * a * p + 2 * b.
Proof. unfold d2. simpl. ring. Qed.

Section Dense.

Variable points : points_t.
Variable n : nat.
Hypothesis n_pos : (0 < n)%nat.
Hypothesis points_length : length points = S n.

Let x (i : nat) : Q := nth i (col0 points) 0.
Let y (i : nat) : Q := nth i (col1 points) 0.

Variable coeff : list Q.
Hypothesis solved :
  Np2.solve (Np2.rows (4 * n) (build_M (col0 points) n)) (build_A (col1 points) n)
  = Ok coeff.

Let segs : list expr := dense_S coeff n.

Lemma coeff_length : length coeff = (4 * n)%nat.
Proof.
  eapply solve_sound; [apply rows_square| |exact solved].
  apply length_build_A. unfold col1. now rewrite length_map.
Qed.

Lemma coeff_equation (r : nat) :
  (r < 4 * n)%nat ->
  Np2.dot (nth r (Np2.rows (4 * n) (build_M (col0 points) n)) []) coeff
  == nth r (build_A (col1 points) n) 0.
Proof.
  intros Hr. eapply solve_sound; [apply rows_square| |exact solved|exact Hr].
  apply length_build_A. unfold col1. now rewrite length_map.
Qed.

Lemma build_A_left (i : nat) : (i < n)%nat -> nth i (build_A (col1 points) n) 0 = y i.
Proof.
  intros Hi. unfold build_A.
  rewrite app_nth1 by (rewrite length_removelast, length_col1 with (n := n); auto; lia).
  apply nth_removelast. rewrite length_col1 with (n := n); auto; lia.
Qed.

Lemma build_A_right (i : nat) :
  (i < n)%nat -> nth (n + i) (build_A (col1 points) n) 0 = y (S i).
Proof.
  intros Hi. unfold build_A.
  rewrite app_nth2 by (rewrite length_removelast, length_col1 with (n := n); auto; lia).
  rewrite length_removelast, length_col1 with (n := n) by auto.
  rewrite app_nth1 by (rewrite length_tl, length_col1 with (n := n); auto; lia).
  rewrite nth_tl. unfold y. f_equal. lia.
Qed.

Lemma build_A_zero (r : nat) :
  (2 * n <= r)%nat -> nth r (build_A (col1 points) n) 0 = 0.
Proof.
  intros Hr. unfold build_A.
  rewrite app_nth2 by (rewrite length_removelast, length_col1 with (n := n); auto; lia).
  rewrite length_removelast, length_col1 with (n := n) by auto.
  rewrite app_nth2 by (rewrite length_tl, length_col1 with (n := n); auto; lia).
  apply nth_repeat.
Qed.

Lemma dense_segment (i : nat) :
  (i < n)%nat ->
  segment segs i
  = cubic [nth (4 * i) coeff 0; nth (4 * i + 1) coeff 0;
           nth (4 * i + 2) coeff 0; nth (4 * i + 3) coeff 0].
Proof.
  intros Hi. unfold segment, segs, dense_S.
  rewrite (nth_map_in cubic _ _ []) by (rewrite length_reshape4; [lia|apply coeff_length]).
  now rewrite nth_reshape4 by (auto using coeff_length).
Qed.

(** Every segment takes the values of its two breakpoints. *)
Lemma dense_interpolates (i : nat) :
  (i < n)%nat ->
  lambdify (segment segs i) (x i) == y i /\
  lambdify (segment segs i) (x (S i)) == y (S i).
Proof.
  intros Hi. rewrite dense_segment, !cubic_value by assumption.
  pose proof (coeff_equation i ltac:(lia)) as E1.
  pose proof (coeff_equation (n + i) ltac:(lia)) as E2.
  rewrite (equation_left _ _ _ n_pos coeff_length i Hi), build_A_left in E1 by assumption.
  rewrite (equation_right _ _ _ n_pos coeff_length i Hi), build_A_right in E2 by assumption.
  unfold Np.getitem in E1, E2. fold (x i) in E1. fold (x (S i)) in E2.
  split; [rewrite <- E1|rewrite <- E2]; ring.
Qed.

(** First and second derivatives agree at the interior breakpoints. *)
Lemma dense_smooth (i : nat) :
  (i < n - 1)%nat ->
  d1 (segment segs i) (x (S i)) == d1 (segment segs (S i)) (x (S i)) /\
  d2 (segment segs i) (x (S i)) == d2 (segment segs (S i)) (x (S i)).
Proof.
  intros Hi. rewrite !dense_segment, !cubic_d1, !cubic_d2 by lia.
  pose proof (coeff_equation (2 * n + i) ltac:(lia)) as E1.
  pose proof (coeff_equation (3 * n - 1 + i) ltac:(lia)) as E2.
  rewrite (equation_slope _ _ _ n_pos coeff_length i Hi), build_A_zero in E1 by lia.
  rewrite (equation_curvature _ _ _ n_pos coeff_length i Hi), build_A_zero in E2 by lia.
  unfold Np.getitem in E1, E2. fold (x (S i)) in E1, E2.
  replace (4 * S i)%nat with (4 * i + 4)%nat by lia.
  replace (4 * i + 4 + 1)%nat with (4 * i + 5)%nat by lia.
  replace (4 * i + 4 + 2)%nat with (4 * i + 6)%nat by lia.
  split; lra.
Qed.

(** The second derivative vanishes at both ends. *)
Lemma dense_natural :
  d2 (segment segs 0) (x 0) == 0 /\ d2 (segment segs (n - 1)) (x n) == 0.
Proof.
  rewrite !dense_segment, !cubic_d2 by lia.
  pose proof (coeff_equation (4 * n - 2) ltac:(lia)) as E1.
  pose proof (coeff_equation (4 * n - 1) ltac:(lia)) as E2.
  rewrite (equation_natural_first _ _ _ n_pos coeff_length), build_A_zero in E1 by lia.
  rewrite (equation_natural_last _ _ _ n_pos coeff_length), build_A_zero in E2 by lia.
  unfold Np.getitem in E1, E2. rewrite length_col0 with (n := n) in E2 by assumption.
  replace (S n - 1)%nat with n in E2 by lia. fold (x 0%nat) in E1. fold (x n) in E2.
  replace (4 * 0)%nat with 0%nat by lia.
  replace (4 * (n - 1))%nat with (4 * n - 4)%nat by lia.
  replace (4 * n - 4 + 1)%nat with (4 * n - 3)%nat by lia.
  cbn [Nat.add]. split; lra.
Qed.

End Dense.

(** ** The dense system has one solution only

    With all right-hand sides zero, the equations of the dense system force
    every coefficient to be zero when the breakpoints ascend: the moments
    [m_k] (second derivatives at the breakpoints) satisfy
    [h_k m_k + 2 (h_k + h_{k+1}) m_{k+1} + h_{k+1} m_{k+2} = 0] with
    [m_0 = m_n = 0], hence [2 |m_k| <= |m_{k+1}|] from left to right and
    [m_k = 0] from right to left. *)

Section Homogeneous.

Variables (xs co : nat -> Q) (n : nat).
Hypothesis n_pos : (0 < n)%nat.
Hypothesis xs_ascend : forall i, (i < n)%nat -> xs i < xs (S i).

Hypothesis left_zero : forall i, (i < n)%nat ->
  xs i ^ 3 * co (4 * i) + xs i ^ 2 * co (4 * i + 1)
  + xs i * co (4 * i + 2) + co (4 * i + 3) == 0.
Hypothesis right_zero : forall i, (i < n)%nat ->
  xs (S i) ^ 3 * co (4 * i) + xs (S i) ^ 2 * co (4 * i + 1)
  + xs (S i) * co (4 * i + 2) + co (4 * i + 3) == 0.
Hypothesis slope_zero : forall i, (i < n - 1)%nat ->
  (3 * xs (S i) ^ 2 * co (4 * i) + 2 * xs (S i) * co (4 * i + 1) + co (4 * i + 2))
  - (3 * xs (S i) ^ 2 * co (4 * i + 4) + 2 * xs (S i) * co (4 * i + 5)
     + co (4 * i + 6)) == 0.
Hypothesis curvature_zero : forall i, (i < n - 1)%nat ->
  (6 * xs (S i) * co (4 * i) + 2 * co (4 * i + 1))
  - (6 * xs (S i) * co (4 * i + 4) + 2 * co (4 * i + 5)) == 0.
Hypothesis first_zero : 6 * xs 0 * co 0 + 2 * co 1 == 0.
Hypothesis last_zero : 6 * xs n * co (4 * n - 4) + 2 * co (4 * n - 3) == 0.

Let h (i : nat) : Q := xs (S i) - xs i.

(** Second derivative of segment [i] at its left and right end, first
    derivative likewise. *)
Let zL (i : nat) : Q := 6 * xs i * co (4 * i) + 2 * co (4 * i + 1).
Let zR (i : nat) : Q := 6 * xs (S i) * co (4 * i) + 2 * co (4 * i + 1).
Let sL (i : nat) : Q :=
  3 * xs i ^ 2 * co (4 * i) + 2 * xs i * co (4 * i + 1) + co (4 * i + 2).
Let sR (i : nat) : Q :=
  3 * xs (S i) ^ 2 * co (4 * i) + 2 * xs (S i) * co (4 * i + 1) + co (4 * i + 2).

(** The moment at breakpoint [k]. *)
Let m (k : nat) : Q :=
  match k with
  | O => zL 0
  | S i => zR i
  end.

Lemma h_pos (i : nat) : (i < n)%nat -> 0 < h i.
Proof. intros Hi. unfold h. specialize (xs_ascend i Hi). lra. Qed.

Lemma zL_moment (i : nat) : (i < n)%nat -> zL i == m i.
Proof.
  intros Hi. destruct i as [|i]; [reflexivity|].
  pose proof (curvature_zero i ltac:(lia)) as H.
  unfold m, zL, zR.
  replace (4 * S i)%nat with (4 * i + 4)%nat by lia.
  replace (4 * i + 4 + 1)%nat with (4 * i + 5)%nat by lia. lra.
Qed.

Lemma m_first : m 0 == 0.
Proof. unfold m, zL. exact first_zero. Qed.

Lemma m_last : m n == 0.
Proof.
  destruct n as [|k] eqn:E; [lia|]. unfold m, zR.
  replace (4 * k)%nat with (4 * S k - 4)%nat by lia.
  replace (4 * S k - 4 + 1)%nat with (4 * S k - 3)%nat by lia. exact last_zero.
Qed.

Lemma slope_left (i : nat) :
  (i < n)%nat -> 6 * sL i == - (h i * (2 * zL i + zR i)).
Proof.
  intros Hi. pose proof (h_pos i Hi) as Hh.
  pose proof (left_zero i Hi) as H1. pose proof (right_zero i Hi) as H2.
  assert (E : h i * (6 * sL i + h i * (2 * zL i + zR i))
              == 6 * ((xs (S i) ^ 3 * co (4 * i) + xs (S i) ^ 2 * co (4 * i + 1)
                       + xs (S i) * co (4 * i + 2) + co (4 * i + 3))
                      - (xs i ^ 3 * co (4 * i) + xs i ^ 2 * co (4 * i + 1)
                         + xs i * co (4 * i + 2) + co (4 * i + 3)))).
  { unfold h, sL, zL, zR. ring. }
  rewrite H1, H2 in E.
  assert (E' : 6 * sL i + h i * (2 * zL i + zR i) == 0).
  { apply (Qmult_integral_l (h i)); [lra|]. rewrite E. ring. }
  lra.
Qed.

Lemma slope_right (i : nat) :
  (i < n)%nat -> 6 * sR i == h i * (zL i + 2 * zR i).
Proof.
  intros Hi. pose proof (h_pos i Hi) as Hh.
  pose proof (left_zero i Hi) as H1. pose proof (right_zero i Hi) as H2.
  assert (E : h i * (6 * sR i - h i * (zL i + 2 * zR i))
              == 6 * ((xs (S i) ^ 3 * co (4 * i) + xs (S i) ^ 2 * co (4 * i + 1)
                       + xs (S i) * co (4 * i + 2) + co (4 * i + 3))
                      - (xs i ^ 3 * co (4 * i) + xs i ^ 2 * co (4 * i + 1)
                         + xs i * co (4 * i + 2) + co (4 * i + 3)))).
  { unfold h, sR, zL, zR. ring. }
  rewrite H1, H2 in E.
  assert (E' : 6 * sR i - h i * (zL i + 2 * zR i) == 0).
  { apply (Qmult_integral_l (h i)); [lra|]. rewrite E. ring. }
  lra.
Qed.

(** The equation of the moments at the interior breakpoint [k + 1]. *)
Lemma moment_equation (k : nat) :
  (k < n - 1)%nat ->
  h k * m k + 2 * (h k + h (S k)) * m (S k) + h (S k) * m (S (S k)) == 0.
Proof.
  intros Hk.
  pose proof (slope_right k ltac:(lia)) as HR.
  pose proof (slope_left (S k) ltac:(lia)) as HL.
  pose proof (slope_zero k Hk) as Hs.
  assert (E : sR k == sL (S k)).
  { unfold sR, sL.
    replace (4 * S k)%nat with (4 * k + 4)%nat by lia.
    replace (4 * k + 4 + 1)%nat with (4 * k + 5)%nat by lia.
    replace (4 * k + 4 + 2)%nat with (4 * k + 6)%nat by lia. lra. }
  rewrite (zL_moment k) in HR by lia. rewrite (zL_moment (S k)) in HL by lia.
  change (zR k) with (m (S k)) in HR. change (zR (S k)) with (m (S (S k))) in HL.
  rewrite E in HR. lra.
Qed.

Lemma moments_grow (k : nat) :
  (k < n)%nat -> 2 * Qabs (m k) <= Qabs (m (S k)).
Proof.
  induction k as [|k IH]; intros Hk.
  - rewrite m_first. change (Qabs 0) with 0. pose proof (Qabs_nonneg (m 1)). lra.
  - specialize (IH ltac:(lia)).
    pose proof (moment_equation k ltac:(lia)) as E.
    pose proof (h_pos k ltac:(lia)) as Hh. pose proof (h_pos (S k) Hk) as Hh'.
    set (A := Qabs (m k)) in *. set (B := Qabs (m (S k))) in *.
    set (C := Qabs (m (S (S k)))).
    assert (HB : 2 * (h k + h (S k)) * B <= h k * A + h (S k) * C).
    { assert (E1 : 2 * (h k + h (S k)) * m (S k) == - (h k * m k) + - (h (S k) * m (S (S k))))
        by lra.
      assert (E2 : 2 * (h k + h (S k)) * B == Qabs (2 * (h k + h (S k)) * m (S k))).
      { unfold B. rewrite Qabs_Qmult, (Qabs_pos (2 * (h k + h (S k)))) by lra.
        reflexivity. }
      rewrite E2, E1.
      eapply Qle_trans; [apply Qabs_triangle|].
      rewrite !Qabs_opp, !Qabs_Qmult, (Qabs_pos (h k)), (Qabs_pos (h (S k))) by lra.
      apply Qle_refl. }
    assert (HA : h k * A <= h k * B).
    { apply Qmult_le_l; [assumption|]. pose proof (Qabs_nonneg (m k)). fold A in H. lra. }
    assert (HC : h (S k) * (2 * B) <= h (S k) * C).
    { assert (0 <= h k * B).
      { apply Qmult_le_0_compat; [lra|apply Qabs_nonneg]. }
      lra. }
    apply Qmult_le_l in HC; assumption.
Qed.

Lemma moments_vanish (k : nat) : (k <= n)%nat -> m k == 0.
Proof.
  intros Hk. replace k with (n - (n - k))%nat by lia.
  assert (Hj : (n - k <= n)%nat) by lia. revert Hj. generalize (n - k)%nat as d.
  clear k Hk. intros d. induction d as [|j IH]; intros Hj.
  - rewrite Nat.sub_0_r. exact m_last.
  - specialize (IH ltac:(lia)).
    pose proof (moments_grow (n - S j) ltac:(lia)) as G.
    replace (S (n - S j)) with (n - j)%nat in G by lia.
    rewrite IH in G. change (Qabs 0) with 0 in G.
    pose proof (Qabs_nonneg (m (n - S j))) as P.
    assert (Z : Qabs (m (n - S j)) <= 0) by lra.
    apply Qabs_Qle_condition in Z. lra.
Qed.

(** Every coefficient vanishes. *)
Lemma coefficients_vanish (i : nat) :
  (i < n)%nat ->
  co (4 * i) == 0 /\ co (4 * i + 1) == 0 /\ co (4 * i + 2) == 0 /\ co (4 * i + 3) == 0.
Proof.
  intros Hi. pose proof (h_pos i Hi) as Hh. unfold h in Hh.
  pose proof (moments_vanish i ltac:(lia)) as Z1. rewrite <- (zL_moment i Hi) in Z1.
  pose proof (moments_vanish (S i) ltac:(lia)) as Z2. change (m (S i)) with (zR i) in Z2.
  unfold zL, zR in Z1, Z2.
  pose proof (left_zero i Hi) as H1. pose proof (right_zero i Hi) as H2.
  assert (Ea : co (4 * i) == 0).
  { apply (Qmult_integral_l (xs (S i) - xs i)); [lra|]. lra. }
  rewrite Ea in *.
  assert (Eb : co (4 * i + 1) == 0) by lra.
  rewrite Eb in *.
  assert (Ec : co (4 * i + 2) == 0).
  { apply (Qmult_integral_l (xs (S i) - xs i)); [lra|]. lra. }
  rewrite Ec in *.
  repeat split; try reflexivity; try assumption. lra.
Qed.

End Homogeneous.

(** ** The exact solve returns on every valid point set *)

Lemma dense_kernel_trivial (points : points_t) (n : nat) :
  (0 < n)%nat -> length points = S n -> ascending points ->
  kernel_trivial (4 * n) (Np2.rows (4 * n) (build_M (col0 points) n)).
Proof.
  intros Hn Hlen Hasc c Hc Hker.
  assert (Hco : forall i, (i < n)%nat ->
            nth (4 * i) c 0 == 0 /\ nth (4 * i + 1) c 0 == 0 /\
            nth (4 * i + 2) c 0 == 0 /\ nth (4 * i + 3) c 0 == 0).
  { apply (coefficients_vanish (Np.getitem (col0 points)) (fun k => nth k c 0) n Hn).
    - intros i Hi. apply ascending_nth; [assumption|lia].
    - intros i Hi. rewrite <- (equation_left _ _ _ Hn Hc i Hi). apply Hker. lia.
    - intros i Hi. rewrite <- (equation_right _ _ _ Hn Hc i Hi). apply Hker. lia.
    - intros i Hi. rewrite <- (equation_slope _ _ _ Hn Hc i Hi). apply Hker. lia.
    - intros i Hi. rewrite <- (equation_curvature _ _ _ Hn Hc i Hi). apply Hker. lia.
    - rewrite <- (equation_natural_first _ _ _ Hn Hc). apply Hker. lia.
    - pose proof (equation_natural_last (col0 points) n c Hn Hc) as E.
      rewrite (length_col0 points n Hlen) in E.
      replace (S n - 1)%nat with n in E by lia.
      rewrite <- E. apply Hker. lia. }
  unfold all_zero. apply Forall_nth. intros k d Hk.
  rewrite (nth_indep _ d 0 Hk).
  assert (Hq : (k / 4 < n)%nat) by (apply Nat.Div0.div_lt_upper_bound; lia).
  destruct (Hco (k / 4)%nat Hq) as (H0 & H1 & H2 & H3).
  pose proof (Nat.div_mod_eq k 4) as E.
  pose proof (Nat.mod_upper_bound k 4 ltac:(lia)) as Hm.
  destruct (k mod 4)%nat as [|[|[|[|r]]]] eqn:Er; try lia.
  - rewrite Nat.add_0_r in E. now rewrite E.
  - now rewrite E.
  - now rewrite E.
  - now rewrite E.
Qed.

(** The body of the builder past its shape check. *)
Lemma cubic_spline4_matrix_body (points : points_t) :
  (2 <= length points)%nat ->
  cubic_spline4_matrix points =
  (let sorted := sort_points points in
   let n := (length sorted - 1)%nat in
   coeff <- Np2.solve (Np2.rows (4 * n) (build_M (col0 sorted) n))
                      (build_A (col1 sorted) n) ;;
   Ok (map_S (dense_S coeff n) sorted)).
Proof.
  intros Hl. destruct points as [|p0 [|p1 l]]; simpl in Hl; try lia. reflexivity.
Qed.

Lemma cubic_spline4_body (points : points_t) :
  (1 <= length points)%nat ->
  cubic_spline4 points =
  (let sorted := sort_points points in
   Ok (map_S (moments_S sorted (solve_moments sorted)) sorted)).
Proof.
  intros Hl. destruct points as [|p0 l]; simpl in Hl; try lia. reflexivity.
Qed.

(** With the exact elimination for [numpy.linalg.solve] the dense builder
    returns on every valid point set: the system has one solution only.
    This is a fact of the exact system; the solve on doubles can still meet
    a zero pivot where two x-values are close. *)
Lemma cubic_spline4_matrix_total (points : points_t) :
  valid points -> exists sp, cubic_spline4_matrix points = Ok sp.
Proof.
  intros Hv. destruct (valid_sorted points Hv) as [Hasc Hlen].
  destruct Hv as [Hl _].
  rewrite (cubic_spline4_matrix_body points Hl). cbv zeta.
  set (n := (length (sort_points points) - 1)%nat).
  assert (Hn : (0 < n)%nat) by (unfold n; lia).
  assert (HL : length (sort_points points) = S n) by (unfold n; lia).
  destruct (solve_total (4 * n) (Np2.rows (4 * n) (build_M (col0 (sort_points points)) n))
              (build_A (col1 (sort_points points)) n)) as [coeff Hc].
  - apply rows_square.
  - apply length_build_A. unfold col1. now rewrite length_map.
  - now apply dense_kernel_trivial.
  - rewrite Hc. simpl. eexists. reflexivity.
Qed.

(** ** Builder equivalence (C2) *)

(** C2, evaluated on [pts5] at the query [1/2], inside the domain [0, 4]:
    the dense builder's spline gives [43/56], the moments builder's gives
    [3451/4500]. *)
Theorem C2_builders_differ_on_five_points :
  exists sd sm a b,
    cubic_spline4_matrix pts5 = Ok sd /\ cubic_spline4 pts5 = Ok sm /\
    splines sd (1 # 2) = Ok a /\ splines sm (1 # 2) = Ok b /\
    a == 43 # 56 /\ b == 3451 # 4500 /\ ~ a == b.
Proof.
  do 4 eexists.
  split; [vm_compute; reflexivity|].
  split; [vm_compute; reflexivity|].
  split; [vm_compute; reflexivity|].
  split; [vm_compute; reflexivity|].
  by_evaluation.
Qed.

(** ** Natural boundary (C6) *)

Lemma moments_natural (points : points_t) (n : nat) :
  (0 < n)%nat -> length points = S n ->
  let S := moments_S points (solve_moments points) in
  d2 (segment S 0) (nth 0 (col0 points) 0) == 0 /\
  d2 (segment S (n - 1)) (nth n (col0 points) 0) == 0.
Proof.
  intros Hn Hlen S. unfold S.
  rewrite !(moments_segment points n Hlen), !moment_form_d2 by lia.
  rewrite (z_first points n Hlen).
  replace (Datatypes.S (n - 1)) with n by lia.
  rewrite (z_last points n Hlen).
  unfold Qdiv. split; ring.
Qed.

Lemma segment_nth_error (segs : list expr) (i : nat) :
  (i < length segs)%nat -> nth_error segs i = Some (segment segs i).
Proof. intros Hi. unfold segment. now apply nth_error_nth'. Qed.

(** C6: for every valid point set of [n + 1] points, the moments builder
    returns a spline of [n] segments in which the second derivative of the
    first segment at the first breakpoint [x_0], and of the last segment at
    the last breakpoint [x_n], is zero; and every spline that the dense
    builder returns for the point set has [n] segments with the same two
    properties.  (Whether the dense builder returns is decided by its
    linear solve.) *)
Theorem C6_natural_boundary (points : points_t) :
  valid points ->
  let xs := col0 (sort_points points) in
  let n := (length points - 1)%nat in
  (exists sm s_first s_last,
     cubic_spline4 points = Ok sm /\ length (sp_S sm) = n /\
     nth_error (sp_S sm) 0 = Some s_first /\ nth_error (sp_S sm) (n - 1) = Some s_last /\
     d2 s_first (nth 0 xs 0) == 0 /\ d2 s_last (nth n xs 0) == 0) /\
  (forall sd,
     cubic_spline4_matrix points = Ok sd ->
     length (sp_S sd) = n /\
     exists s_first s_last,
       nth_error (sp_S sd) 0 = Some s_first /\ nth_error (sp_S sd) (n - 1) = Some s_last /\
       d2 s_first (nth 0 xs 0) == 0 /\ d2 s_last (nth n xs 0) == 0).
Proof.
  intros Hv xs n.
  destruct Hv as [Hl Hdist].
  assert (Hn : (0 < n)%nat) by (unfold n; lia).
  assert (HL : length (sort_points points) = S n)
    by (rewrite sort_points_length; unfold n; lia).
  split.
  - assert (Lm : length (moments_S (sort_points points) (solve_moments (sort_points points)))
                 = n) by apply (length_moments_S _ n HL).
    destruct (moments_natural (sort_points points) n Hn HL) as [M1 M2].
    eexists. eexists. eexists.
    split; [apply cubic_spline4_body; lia|]. cbv zeta. cbn [sp_S map_S].
    split; [exact Lm|].
    split; [apply segment_nth_error; lia|].
    split; [apply segment_nth_error; lia|].
    split; [exact M1|exact M2].
  - intros sd Hd.
    rewrite (cubic_spline4_matrix_body points Hl) in Hd. cbv zeta in Hd.
    replace (length (sort_points points) - 1)%nat with n in Hd by lia.
    destruct (Np2.solve _ _) as [coeff|e] eqn:Es; simpl in Hd; [|discriminate].
    inversion Hd; subst sd; clear Hd. cbn [sp_S map_S].
    assert (Ld : length (dense_S coeff n) = n).
    { unfold dense_S. rewrite length_map. apply length_reshape4.
      apply (coeff_length (sort_points points) n HL coeff Es). }
    destruct (dense_natural (sort_points points) n Hn HL coeff Es) as [D1 D2].
    split; [exact Ld|]. eexists. eexists.
    split; [apply segment_nth_error; lia|].
    split; [apply segment_nth_error; lia|].
    split; [exact D1|exact D2].
Qed.


(** ** Interpolation on evenly spaced points

    Where the breakpoints are evenly spaced the even partition of the
    evaluator is the partition by the breakpoints, and in exact arithmetic
    both splines pass through every input point. *)

Lemma even_lookup (points : points_t) (S : list expr) (i : nat) :
  valid points -> evenly_spaced points ->
  length S = (length points - 1)%nat -> (i < length points)%nat ->
  let n := (length points - 1)%nat in
  splines (map_S S (sort_points points)) (nth i (col0 (sort_points points)) 0)
  = Ok (lambdify (segment S (Nat.min i (n - 1))) (nth i (col0 (sort_points points)) 0)).
Proof.
  intros Hv (w & Hw & He) HS Hi n.
  destruct (valid_sorted points Hv) as [Hasc Hlen].
  pose proof (sort_points_length points) as HL.
  destruct (map_S_domain S _ Hasc Hlen) as (Hd & Hst & Hen).
  set (sp := map_S S (sort_points points)) in *.
  set (xs := col0 (sort_points points)) in *.
  assert (Hn : sp_n sp = n) by (unfold sp, n; simpl; lia).
  assert (Hnpos : (0 < n)%nat) by (unfold n; lia).
  rewrite HL in Hen. fold n in Hen.
  destruct (Nat.eq_dec i n) as [E|E].
  - subst i. replace (Nat.min n (n - 1)) with (n - 1)%nat by lia.
    assert (Hm : map_points sp (nth n xs 0) = Ok (Z.of_nat n - 1)%Z).
    { pose proof (map_points_end sp (nth n xs 0)) as Hm. rewrite Hn in Hm.
      apply Hm. now rewrite Hen. }
    rewrite (splines_at_index sp _ _ Hm) by (cbn [sp_S sp map_S]; lia).
    replace (Z.to_nat (Z.of_nat n - 1)) with (n - 1)%nat by lia. reflexivity.
  - assert (Hlt : nth i xs 0 < nth n xs 0).
    { apply ascending_nth; [assumption|]. rewrite HL. unfold n. lia. }
    assert (Hne : ~ nth i xs 0 == sp_end sp) by (rewrite Hen; lra).
    assert (Hnpos' : (0 < sp_n sp)%nat) by lia.
    pose proof (map_points_inside sp Hnpos' Hd _ Hne) as Hm.
    assert (Q : (nth i xs 0 - sp_start sp)
                / ((sp_end sp - sp_start sp) / inject_Z (Z.of_nat (sp_n sp)))
                == inject_Z (Z.of_nat i)).
    { rewrite Hst, Hen, Hn, (He i Hi), (He n ltac:(unfold n; lia)).
      assert (Hz : 0 < inject_Z (Z.of_nat n)).
      { change 0 with (inject_Z 0). rewrite <- Zlt_Qlt. lia. }
      pose proof (Qmult_lt_0_compat _ _ Hz Hw) as Hzw.
      field. split; lra. }
    rewrite (Qfloor_comp _ _ Q), Qfloor_Z in Hm.
    rewrite (splines_at_index sp _ _ Hm) by (cbn [sp_S sp map_S]; lia).
    rewrite Nat2Z.id. replace (Nat.min i (n - 1)) with i by lia. reflexivity.
Qed.

(** On a valid, evenly spaced point set both builders return a spline that
    takes the value [y_i] at every input [x_i]. *)
Theorem interpolation_on_even_spacing (points : points_t) (i : nat) :
  valid points -> evenly_spaced points -> (i < length points)%nat ->
  let xi := nth i (col0 (sort_points points)) 0 in
  let yi := nth i (col1 (sort_points points)) 0 in
  exists sd sm vd vm,
    cubic_spline4_matrix points = Ok sd /\ cubic_spline4 points = Ok sm /\
    splines sd xi = Ok vd /\ splines sm xi = Ok vm /\ vd == yi /\ vm == yi.
Proof.
  intros Hv He Hi xi yi.
  destruct (cubic_spline4_matrix_total points Hv) as [sd Hd].
  destruct (valid_sorted points Hv) as [Hasc Hlen].
  pose proof (sort_points_length points) as HL.
  destruct Hv as [Hl Hdist].
  set (n := (length points - 1)%nat).
  assert (Hn : (0 < n)%nat) by (unfold n; lia).
  assert (HLn : length (sort_points points) = S n) by (unfold n; lia).
  pose proof Hd as Hd'.
  rewrite (cubic_spline4_matrix_body points Hl) in Hd'. cbv zeta in Hd'.
  replace (length (sort_points points) - 1)%nat with n in Hd' by lia.
  destruct (Np2.solve _ _) as [coeff_|e] eqn:Es; cbn [bind] in Hd'; [|discriminate].
  inversion Hd' as [Esd]. clear Hd'. subst sd.
  eexists. eexists.
  exists (lambdify (segment (dense_S coeff_ n) (Nat.min i (n - 1))) xi).
  exists (lambdify (segment (moments_S (sort_points points)
                               (solve_moments (sort_points points)))
                            (Nat.min i (n - 1))) xi).
  split; [exact Hd|]. split; [apply cubic_spline4_body; lia|].
  split; [|split].
  - apply (even_lookup points (dense_S coeff_ n) i); auto; [split; auto|].
    unfold dense_S. rewrite length_map, length_reshape4; [reflexivity|].
    apply (coeff_length (sort_points points) n HLn coeff_ Es).
  - apply (even_lookup points _ i); auto; [split; auto|].
    apply (length_moments_S (sort_points points) n HLn).
  - assert (Hh : forall k, (k < n)%nat ->
              ~ nth k (m_h (solve_moments (sort_points points))) 0 == 0).
    { intros k Hk. rewrite (widths_nth (sort_points points) n HLn k Hk).
      pose proof (ascending_nth _ k (S k) Hasc ltac:(lia)). lra. }
    destruct (Nat.eq_dec i n) as [E|E].
    + subst i. replace (Nat.min n (n - 1)) with (n - 1)%nat by lia.
      destruct (dense_interpolates (sort_points points) n Hn HLn coeff_ Es (n - 1)
                  ltac:(lia)) as [_ D].
      destruct (moments_interpolates (sort_points points) n HLn (n - 1) ltac:(lia)
                  (Hh (n - 1)%nat ltac:(lia))) as [_ M].
      replace (S (n - 1)) with n in D, M by lia. split; assumption.
    + replace (Nat.min i (n - 1)) with i by lia.
      destruct (dense_interpolates (sort_points points) n Hn HLn coeff_ Es i
                  ltac:(lia)) as [D _].
      destruct (moments_interpolates (sort_points points) n HLn i ltac:(lia)
                  (Hh i ltac:(lia))) as [M _].
      split; assumption.
Qed.

Example pts5_evenly_spaced : evenly_spaced pts5.
Proof.
  exists 1. split; [reflexivity|]. intros i Hi. simpl in Hi.
  destruct i as [|[|[|[|[|i]]]]]; try lia; vm_compute; reflexivity.
Qed.

(** ** Interpolation on unevenly spaced points (C1) *)

(** C1, evaluated on [pts_uneven] at its third point [(2, 0)]: the width
    is [10/3], the evaluator sends [2] to segment [0], and both splines
    return [-80/71], the value at [2] of the cubic fitted to [[0, 1]]. *)
Theorem C1_uneven_spacing_misses_point :
  In (2, 0) pts_uneven /\
  exists sd sm a b,
    cubic_spline4_matrix pts_uneven = Ok sd /\ cubic_spline4 pts_uneven = Ok sm /\
    map_points sd 2 = Ok 0%Z /\ map_points sm 2 = Ok 0%Z /\
    splines sd 2 = Ok a /\ splines sm 2 = Ok b /\
    a == - (80 # 71) /\ b == - (80 # 71) /\ ~ a == 0 /\ ~ b == 0.
Proof.
  split; [simpl; auto|].
  do 4 eexists.
  split; [vm_compute; reflexivity|].
  split; [vm_compute; reflexivity|].
  split; [vm_compute; reflexivity|].
  split; [vm_compute; reflexivity|].
  split; [vm_compute; reflexivity|].
  split; [vm_compute; reflexivity|].
  by_evaluation.
Qed.

(** ** Two points (C9) *)

Section TwoPoints.

(** The sorted rows [(a, ya)], [(b, yb)] with [a < b]. *)
Variables (a ya b yb : Q).
Hypothesis a_lt_b : a < b.

Let sorted : points_t := [(a, ya); (b, yb)].
Let line (q : Q) : Q := ya + (yb - ya) * (q - a) / (b - a).

Lemma two_points_moments :
  exists s, moments_S sorted (solve_moments sorted) = [s] /\
    coeff s 3 == 0 /\ coeff s 2 == 0 /\ forall q, lambdify s q == line q.
Proof.
  eexists. split; [reflexivity|].
  unfold coeff, line. simpl. unfold Qdiv.
  repeat split; try ring. intros q. field. lra.
Qed.

Lemma two_points_dense (coeff_ : list Q) :
  Np2.solve (Np2.rows 4 (build_M (col0 sorted) 1)) (build_A (col1 sorted) 1) = Ok coeff_ ->
  exists s, dense_S coeff_ 1 = [s] /\
    coeff s 3 == 0 /\ coeff s 2 == 0 /\ forall q, lambdify s q == line q.
Proof.
  intros Hs.
  assert (Hn : (0 < 1)%nat) by lia.
  assert (HL : length sorted = 2%nat) by reflexivity.
  pose proof (coeff_length sorted 1 HL coeff_ Hs) as Hc.
  destruct (dense_interpolates sorted 1 Hn HL coeff_ Hs 0%nat Hn) as [I1 I2].
  destruct (dense_natural sorted 1 Hn HL coeff_ Hs) as [N1 N2].
  destruct coeff_ as [|c0 [|c1 [|c2 [|c3 [|]]]]]; simpl in Hc; try lia.
  exists (cubic [c0; c1; c2; c3]). split; [reflexivity|].
  change (segment (dense_S [c0; c1; c2; c3] 1) (1 - 1)) with (cubic [c0; c1; c2; c3]) in N2.
  change (segment (dense_S [c0; c1; c2; c3] 1) 0) with (cubic [c0; c1; c2; c3]) in *.
  rewrite cubic_d2 in N1, N2. rewrite cubic_value in I1, I2.
  cbn [nth col0 col1 sorted map fst snd] in *.
  assert (E0 : c0 == 0).
  { apply (Qmult_integral_l (b - a)); [lra|]. lra. }
  assert (E1 : c1 == 0) by (rewrite E0 in N1; lra).
  rewrite E0, E1 in I1, I2.
  assert (E2 : c2 * (b - a) == yb - ya) by lra.
  split; [|split].
  - unfold coeff. simpl. rewrite E0. ring.
  - unfold coeff. simpl. rewrite E1. ring.
  - intros q. rewrite cubic_value, E0, E1. unfold line.
    setoid_replace ((yb - ya) * (q - a) / (b - a)) with (c2 * (q - a)).
    + lra.
    + rewrite <- E2. field. lra.
Qed.

End TwoPoints.

Lemma sort_two (x0 y0 x1 y1 : Q) :
  (x0 < x1 -> sort_points [(x0, y0); (x1, y1)] = [(x0, y0); (x1, y1)]) /\
  (x1 < x0 -> sort_points [(x0, y0); (x1, y1)] = [(x1, y1); (x0, y0)]).
Proof.
  unfold sort_points, take_rows, Np.argsort, Np.sort_keys. simpl.
  destruct (Qle_bool x0 x1) eqn:E.
  - apply Qle_bool_iff in E. split; intros H; [reflexivity|lra].
  - split; intros H; [|reflexivity].
    assert (E' : Qle_bool x0 x1 = true) by (apply Qle_bool_iff; lra). congruence.
Qed.

Lemma valid_two (x0 y0 x1 y1 : Q) : ~ x0 == x1 -> valid [(x0, y0); (x1, y1)].
Proof.
  intros H. split; [simpl; lia|].
  unfold distinct_x. repeat constructor. exact H.
Qed.

(** Both builders on two points whose sorted rows are [(a, ya)], [(b, yb)]. *)
Lemma two_points_segments (points : points_t) (a ya b yb : Q) :
  a < b -> valid points -> sort_points points = [(a, ya); (b, yb)] ->
  exists sd sm s_dense s_moments,
    cubic_spline4_matrix points = Ok sd /\ cubic_spline4 points = Ok sm /\
    sp_S sd = [s_dense] /\ sp_S sm = [s_moments] /\
    coeff s_dense 3 == 0 /\ coeff s_dense 2 == 0 /\
    coeff s_moments 3 == 0 /\ coeff s_moments 2 == 0 /\
    (forall q, lambdify s_dense q == ya + (yb - ya) * (q - a) / (b - a)) /\
    (forall q, lambdify s_moments q == ya + (yb - ya) * (q - a) / (b - a)).
Proof.
  intros Hab Hv Hs.
  destruct (cubic_spline4_matrix_total points Hv) as [sd Hd].
  assert (Hm : cubic_spline4 points
               = Ok (map_S (moments_S (sort_points points)
                              (solve_moments (sort_points points))) (sort_points points)))
    by (apply cubic_spline4_body; destruct Hv; lia).
  pose proof Hd as Hd'.
  rewrite (cubic_spline4_matrix_body points ltac:(destruct Hv; lia)) in Hd'. cbv zeta in Hd'.
  destruct (two_points_moments a ya b yb Hab) as (s_m & Em & M3 & M2 & Mv).
  rewrite Hs in *. cbn [length Nat.sub] in Hd'.
  destruct (Np2.solve _ _) as [coeff_|e] eqn:Es; cbn [bind] in Hd'; [|discriminate].
  inversion Hd' as [Esd]. clear Hd'.
  destruct (two_points_dense a ya b yb Hab coeff_ Es) as (s_d & Ed & D3 & D2 & Dv).
  exists sd, (map_S (moments_S [(a, ya); (b, yb)] (solve_moments [(a, ya); (b, yb)]))
                [(a, ya); (b, yb)]), s_d, s_m.
  split; [exact Hd|]. split; [exact Hm|].
  split; [rewrite <- Esd; exact Ed|]. split; [exact Em|].
  repeat (split; [assumption|]). assumption.
Qed.

(** C9, evaluated on the two points [(-1, 0)], [(1, 2)]: both builders
    return one segment, which is the straight line through the two points
    (no cubic and no quadratic term, the value
    [y_0 + (y_1 - y_0) (q - x_0) / (x_1 - x_0)] at every [q]).  The
    evaluator, however, does not return it at every query between the two
    [x]: for the largest double below [x_1 = 1], in doubles [p - start]
    is [(1 - 2^-53) + 1], which rounds to [2.0], the width is [2.0], and
    the index is [int(2.0 // 2.0) = 1 = n]; [func[1]] raises
    [IndexError]. *)
Theorem C9_two_points_query_below_end_raises :
  let points := [(- (1), 0); (1, 2)] in
  exists sd sm s_dense s_moments,
    cubic_spline4_matrix points = Ok sd /\ cubic_spline4 points = Ok sm /\
    sp_S sd = [s_dense] /\ sp_S sm = [s_moments] /\
    coeff s_dense 3 == 0 /\ coeff s_dense 2 == 0 /\
    coeff s_moments 3 == 0 /\ coeff s_moments 2 == 0 /\
    (forall q, lambdify s_dense q == 0 + (2 - 0) * (q - - (1)) / (1 - - (1))) /\
    (forall q, lambdify s_moments q == 0 + (2 - 0) * (q - - (1)) / (1 - - (1))) /\
    F64.min (map fst F64.pts_two) = F64.minus_one /\
    F64.max (map fst F64.pts_two) = F64.one /\
    PrimFloat.leb F64.minus_one F64.below_one = true /\
    PrimFloat.ltb F64.below_one F64.one = true /\
    PrimFloat.eqb (PrimFloat.sub F64.below_one F64.minus_one) F64.two = true /\
    (forall func, F64.index (F64.map_S func F64.pts_two) F64.below_one = Ok 1%Z) /\
    (forall f, F64.splines (F64.map_S [f] F64.pts_two) F64.below_one = Raise IndexError).
Proof.
  intros points.
  assert (Hab : - (1) < 1) by (apply Qlt_alt; reflexivity).
  assert (Hv : valid points) by (apply valid_two; intros E; vm_compute in E; discriminate E).
  assert (Hs : sort_points points = [(- (1), 0); (1, 2)])
    by (apply (proj1 (sort_two _ _ _ _)), Hab).
  destruct (two_points_segments points _ _ _ _ Hab Hv Hs)
    as (sd & sm & s_d & s_m & H1 & H2 & H3 & H4 & H5 & H6 & H7 & H8 & H9 & H10).
  exists sd, sm, s_d, s_m.
  repeat (split; [assumption|]).
  repeat (split; [vm_compute; reflexivity|]).
  split; intros; vm_compute; reflexivity.
Qed.


(** ** Repeated x-values (C4) *)

Lemma ascending_distinct (l : points_t) : ascending l -> distinct_x l.
Proof.
  unfold ascending, distinct_x. induction 1 as [|p l Hs IH Hp]; constructor; auto.
  eapply Forall_impl; [|exact Hp]. unfold x_lt. intros q Hq E. lra.
Qed.

Lemma solve_raises (M : list (list Q)) (A : list Q) (e : exn) :
  Np2.solve M A = Raise e -> e = LinAlgError.
Proof.
  unfold Np2.solve. destruct (Np2.gauss _ _); intros H; [discriminate H|].
  now inversion H.
Qed.

Lemma repeated_x_length (points : points_t) : repeated_x points -> (2 <= length points)%nat.
Proof. intros (i & j & Hij & _). lia. Qed.

(** C4, as the program has it: a point set with a repeated x-value is not
    checked by either builder, and neither raises InvalidInputError.  The
    moments builder raises nothing and returns a spline.  The dense builder
    goes on to its linear solve, and whatever it raises is the solver's
    [LinAlgError]; on the specification's example [[(1,1),(1,2)]] it does
    raise it. *)
Theorem C4_repeated_x_is_not_validated (points : points_t) :
  repeated_x points ->
  (forall e, cubic_spline4_matrix points = Raise e -> e = LinAlgError) /\
  (exists sp, cubic_spline4 points = Ok sp) /\
  cubic_spline4_matrix points <> Raise InvalidInputError /\
  cubic_spline4 points <> Raise InvalidInputError /\
  (points = [(1, 1); (1, 2)] -> cubic_spline4_matrix points = Raise LinAlgError).
Proof.
  intros Hr. pose proof (repeated_x_length points Hr) as Hl.
  assert (Hm : exists sp, cubic_spline4 points = Ok sp)
    by (rewrite (cubic_spline4_body points) by lia; eexists; reflexivity).
  assert (Hd : forall e, cubic_spline4_matrix points = Raise e -> e = LinAlgError).
  { intros e. rewrite (cubic_spline4_matrix_body points Hl). cbv zeta.
    destruct (Np2.solve _ _) as [coeff|e'] eqn:Es; cbn [bind]; intros H; [discriminate H|].
    inversion H; subst e'. exact (solve_raises _ _ e Es). }
  split; [exact Hd|]. split; [exact Hm|]. split; [|split].
  - intros H. specialize (Hd _ H). discriminate Hd.
  - destruct Hm as [sp Hm]. rewrite Hm. discriminate.
  - intros E. subst points. vm_compute. reflexivity.
Qed.

Lemma C4_repeated_x_is_not_validated_witness :
  repeated_x [(1, 1); (1, 2)] /\
  (forall e, cubic_spline4_matrix [(1, 1); (1, 2)] = Raise e -> e = LinAlgError) /\
  (exists sp, cubic_spline4 [(1, 1); (1, 2)] = Ok sp) /\
  cubic_spline4_matrix [(1, 1); (1, 2)] <> Raise InvalidInputError /\
  cubic_spline4 [(1, 1); (1, 2)] <> Raise InvalidInputError /\
  ([(1, 1); (1, 2)] = [(1, 1); (1, 2)] ->
   cubic_spline4_matrix [(1, 1); (1, 2)] = Raise LinAlgError).
Proof.
  assert (H : repeated_x [(1, 1); (1, 2)]).
  { exists 0%nat, 1%nat. split; [simpl; lia|]. reflexivity. }
  split; [exact H|]. exact (C4_repeated_x_is_not_validated [(1, 1); (1, 2)] H).
Defined.

(** C4 as stated fails on the specification's own example: on
    [[(1,1),(1,2)]] neither builder raises InvalidInputError. *)
Lemma C4_counterexample :
  cubic_spline4_matrix [(1, 1); (1, 2)] <> Raise InvalidInputError /\
  cubic_spline4 [(1, 1); (1, 2)] <> Raise InvalidInputError.
Proof.
  split; intros H; vm_compute in H; discriminate H.
Qed.

(** ** The theorems at sample inputs *)

(** Validity of a point set that is written out. *)
Ltac concrete_valid :=
  split;
  [ simpl; lia
  | unfold distinct_x;
    repeat (constructor; [repeat (constructor; [vm_compute; discriminate|]); constructor|]);
    constructor ].

Lemma C6_natural_boundary_witness :
  valid pts_sample /\
  let xs := col0 (sort_points pts_sample) in
  let n := (length pts_sample - 1)%nat in
  (exists sm s_first s_last,
     cubic_spline4 pts_sample = Ok sm /\ length (sp_S sm) = n /\
     nth_error (sp_S sm) 0 = Some s_first /\ nth_error (sp_S sm) (n - 1) = Some s_last /\
     d2 s_first (nth 0 xs 0) == 0 /\ d2 s_last (nth n xs 0) == 0) /\
  (exists sd,
     cubic_spline4_matrix pts_sample = Ok sd /\
     length (sp_S sd) = n /\
     exists s_first s_last,
       nth_error (sp_S sd) 0 = Some s_first /\ nth_error (sp_S sd) (n - 1) = Some s_last /\
       d2 s_first (nth 0 xs 0) == 0 /\ d2 s_last (nth n xs 0) == 0).
Proof.
  assert (H : valid pts_sample) by concrete_valid.
  split; [exact H|].
  destruct (C6_natural_boundary pts_sample H) as [Hm Hd].
  split; [exact Hm|].
  eexists. split; [vm_compute; reflexivity|]. apply Hd. vm_compute. reflexivity.
Defined.


(** * Further properties of the program *)

(** ** Sorting on entry, and what the evaluator is handed *)

Lemma sort_points_fixes_ascending (points : points_t) :
  ascending points -> sort_points points = points.
Proof.
  intros Ha. apply ascending_unique.
  - apply sort_points_ascending, ascending_distinct, Ha.
  - exact Ha.
  - symmetry. apply sort_points_perm.
Qed.

(** X1: the first step of both builders, [points[points[:, 0].argsort()]],
    returns the input rows rearranged in ascending order of [x]: the result
    is a permutation of the rows, no row has a larger [x] than a later one,
    the order is strict when the x-values are pairwise distinct, and rows
    that already ascend strictly are left as they are. *)
Theorem X1_sorting_arranges_rows (points : points_t) :
  Permutation points (sort_points points) /\
  StronglySorted x_le (sort_points points) /\
  (distinct_x points -> ascending (sort_points points)) /\
  (ascending points -> sort_points points = points).
Proof.
  split; [apply sort_points_perm|]. split; [apply sort_points_le|].
  split; [apply sort_points_ascending|apply sort_points_fixes_ascending].
Qed.

(** What either builder returns for a valid point set is [map_S] of its
    segments and the sorted points. *)
Lemma built_from (points : points_t) (sp : spline) :
  valid points ->
  cubic_spline4_matrix points = Ok sp \/ cubic_spline4 points = Ok sp ->
  exists segs, sp = map_S segs (sort_points points) /\
    length segs = (length points - 1)%nat.
Proof.
  intros Hv H. pose proof (sort_points_length points) as HL.
  destruct Hv as [Hl Hd]. destruct H as [H|H].
  - rewrite (cubic_spline4_matrix_body points Hl) in H. cbv zeta in H.
    destruct (Np2.solve _ _) as [coeff_|e] eqn:Es; cbn [bind] in H; [|discriminate].
    inversion H as [E]. eexists. split; [reflexivity|].
    unfold dense_S. rewrite length_map, <- HL. apply length_reshape4.
    eapply solve_sound; [apply rows_square| |exact Es].
    apply length_build_A. unfold col1. rewrite length_map. lia.
  - rewrite (cubic_spline4_body points) in H by lia. cbv zeta in H.
    inversion H as [E]. eexists. split; [reflexivity|].
    apply length_moments_S. lia.
Qed.

(** X2: a spline that either builder returns for a valid point set has
    [n = len(points) - 1], one expression for each of its [n] segments, and
    the domain [[start, end]] spanned by the input: every input [x] lies in
    it, and [start] and [end] are themselves input x-values. *)
Theorem X2_domain_covers_inputs (points : points_t) (sp : spline) :
  valid points ->
  cubic_spline4_matrix points = Ok sp \/ cubic_spline4 points = Ok sp ->
  sp_n sp = (length points - 1)%nat /\ length (sp_S sp) = sp_n sp /\
  (forall q, In q (col0 points) -> sp_start sp <= q <= sp_end sp) /\
  (exists q, In q (col0 points) /\ sp_start sp == q) /\
  (exists q, In q (col0 points) /\ sp_end sp == q).
Proof.
  intros Hv H. destruct (built_from points sp Hv H) as (segs & E & Hs).
  destruct (valid_sorted points Hv) as [Hasc Hlen].
  pose proof (sort_points_length points) as HL.
  destruct (map_S_domain segs _ Hasc Hlen) as (_ & Hst & Hen).
  rewrite <- E in Hst, Hen.
  assert (Hn : sp_n sp = (length points - 1)%nat) by (rewrite E; simpl; lia).
  assert (Hperm : Permutation (col0 points) (col0 (sort_points points))).
  { unfold col0. apply Permutation_map, sort_points_perm. }
  assert (Lx : length (col0 (sort_points points)) = length points).
  { unfold col0. now rewrite length_map. }
  split; [exact Hn|]. split; [rewrite Hn, E; exact Hs|]. split; [|split].
  - intros q Hq. apply (Permutation_in _ Hperm) in Hq.
    destruct (In_nth _ _ 0 Hq) as (j & Hj & Ej). rewrite Lx in Hj.
    rewrite Hst, Hen, HL, <- Ej. split.
    + destruct j as [|j]; [lra|].
      apply Qlt_le_weak, ascending_nth; [assumption|]. rewrite HL. lia.
    + destruct (Nat.eq_dec j (length points - 1)) as [Ej'|Ej']; [rewrite Ej'; lra|].
      apply Qlt_le_weak, ascending_nth; [assumption|]. rewrite HL. lia.
  - exists (nth 0 (col0 (sort_points points)) 0). split; [|exact Hst].
    apply (Permutation_in _ (Permutation_sym Hperm)), nth_In. rewrite Lx. lia.
  - exists (nth (length (sort_points points) - 1) (col0 (sort_points points)) 0).
    split; [|exact Hen].
    apply (Permutation_in _ (Permutation_sym Hperm)), nth_In. rewrite Lx. lia.
Qed.


(** ** Values and derivatives at the breakpoints *)

(** What the builders return for a valid point set: the moments builder
    its segments over the sorted points; the dense builder, when its solve
    returns, the cubics of the solution. *)
Lemma moments_returned (points : points_t) :
  (1 <= length points)%nat ->
  let sorted := sort_points points in
  cubic_spline4 points = Ok (map_S (moments_S sorted (solve_moments sorted)) sorted) /\
  length (moments_S sorted (solve_moments sorted)) = (length points - 1)%nat.
Proof.
  intros Hl sorted. split; [now apply cubic_spline4_body|].
  apply length_moments_S. unfold sorted. rewrite sort_points_length. lia.
Qed.

Lemma dense_returned (points : points_t) (sd : spline) :
  (2 <= length points)%nat -> cubic_spline4_matrix points = Ok sd ->
  let sorted := sort_points points in
  let n := (length points - 1)%nat in
  exists coeff_,
    Np2.solve (Np2.rows (4 * n) (build_M (col0 sorted) n)) (build_A (col1 sorted) n)
    = Ok coeff_ /\
    sd = map_S (dense_S coeff_ n) sorted /\ length (dense_S coeff_ n) = n.
Proof.
  intros Hl Hd sorted n.
  pose proof (sort_points_length points) as HL.
  rewrite (cubic_spline4_matrix_body points Hl) in Hd. cbv zeta in Hd.
  replace (length (sort_points points) - 1)%nat with n in Hd by (unfold n; lia).
  fold sorted in Hd.
  destruct (Np2.solve _ _) as [coeff_|e] eqn:Es; cbn [bind] in Hd; [|discriminate].
  exists coeff_. split; [reflexivity|]. split; [now inversion Hd|].
  unfold dense_S. rewrite length_map. apply length_reshape4.
  apply (coeff_length sorted n); [unfold sorted, n; lia|exact Es].
Qed.

Lemma widths_nonzero (points : points_t) (n k : nat) :
  length points = S n -> ascending points -> (k < n)%nat ->
  ~ nth k (m_h (solve_moments points)) 0 == 0.
Proof.
  intros HL Hasc Hk. rewrite (widths_nth points n HL k Hk).
  pose proof (ascending_nth _ k (S k) Hasc ltac:(lia)). lra.
Qed.



(** X8: for a valid point set the segments of the moments builder share
    their second derivative at every interior breakpoint, whatever moments
    the elimination has produced. *)
Theorem X8_moments_second_derivative_continuous (points : points_t) (i : nat) :
  valid points -> (S (S i) < length points)%nat ->
  let x := nth (S i) (col0 (sort_points points)) 0 in
  exists sm,
    cubic_spline4 points = Ok sm /\ length (sp_S sm) = (length points - 1)%nat /\
    d2 (segment (sp_S sm) i) x == d2 (segment (sp_S sm) (S i)) x.
Proof.
  intros Hv Hi x.
  destruct (valid_sorted points Hv) as [Hasc Hlen].
  pose proof (sort_points_length points) as HL.
  destruct (moments_returned points ltac:(lia)) as [Hm Lm].
  set (n := (length points - 1)%nat) in *.
  assert (HLn : length (sort_points points) = S n) by (unfold n; lia).
  eexists. split; [exact Hm|]. cbn [sp_S map_S]. split; [exact Lm|].
  apply (moments_curvature_continuous (sort_points points) n HLn i).
  - unfold n. lia.
  - apply (widths_nonzero _ n); auto. unfold n. lia.
  - apply (widths_nonzero _ n); auto. unfold n. lia.
Qed.

(** ** The elimination and the back substitution of the moments builder *)

Lemma back_substitute_cell (k i : nat) (h u v z : Np.array) :
  (1 <= i <= k)%nat -> (k < length z)%nat ->
  nth i (back_substitute k h u v z) 0
  = (nth (i - 1) v 0 - nth i h 0 * nth (S i) (back_substitute k h u v z) 0)
    / nth (i - 1) u 0.
Proof.
  revert z. induction k as [|k IH]; intros z Hi Hk; [lia|].
  cbn [back_substitute]. destruct (Nat.eq_dec i (S k)) as [E|E].
  - subst i. rewrite !back_substitute_untouched by lia.
    rewrite nth_setitem_same by lia. rewrite nth_setitem_other by lia.
    unfold Np.getitem. replace (S k - 1)%nat with k by lia. reflexivity.
  - apply IH; [lia|]. rewrite length_setitem. lia.
Qed.

Lemma isub_tail_head (a w : Np.array) : nth 0 (Np.isub_tail a w) 0 = nth 0 a 0.
Proof. destruct a; reflexivity. Qed.

Section Elimination.

Variable points : points_t.
Variable n : nat.
Hypothesis points_length : length points = S n.
Hypothesis points_ascend : ascending points.

Let x (i : nat) : Q := nth i (col0 points) 0.
Let y (i : nat) : Q := nth i (col1 points) 0.
Let m : moments := solve_moments points.
Let z (i : nat) : Q := nth i (m_z m) 0.
Let h (i : nat) : Q := nth i (m_h m) 0.
Let u (i : nat) : Q := nth i (m_u m) 0.
Let v (i : nat) : Q := nth i (m_v m) 0.
Let u0 (i : nat) : Q := nth i (diagonal points) 0.
Let v0 (i : nat) : Q := nth i (rhs points) 0.
Let b (i : nat) : Q := nth i (slopes points) 0.

Lemma width_positive (i : nat) : (i < n)%nat -> 0 < h i.
Proof.
  intros Hi. unfold h, m. rewrite (widths_nth points n points_length i Hi).
  pose proof (ascending_nth _ i (S i) points_ascend ltac:(lia)). lra.
Qed.

Lemma length_diagonal : length (diagonal points) = (n - 1)%nat.
Proof.
  unfold diagonal, Np.scale, Np.add.
  rewrite length_map, length_map2, length_tl, length_removelast.
  rewrite (length_widths points n points_length). lia.
Qed.

Lemma length_slopes : length (slopes points) = n.
Proof.
  unfold slopes, Np.mul, Np.sub, Np.rdiv.
  rewrite !length_map2, length_map, length_tl, length_removelast.
  rewrite (length_widths points n points_length), (length_col1 points n points_length). lia.
Qed.

Lemma length_rhs : length (rhs points) = (n - 1)%nat.
Proof.
  unfold rhs, Np.sub. rewrite length_map2, length_tl, length_removelast, length_slopes. lia.
Qed.

Lemma diagonal_nth (k : nat) : (S k < n)%nat -> u0 k = 2 * (h (S k) + h k).
Proof.
  intros Hk. pose proof (length_widths points n points_length) as Lh.
  unfold u0, diagonal, Np.scale, Np.add.
  rewrite (nth_map_in _ _ _ 0) by (rewrite length_map2, length_tl, length_removelast; lia).
  rewrite (nth_map2 _ _ _ _ 0 0) by (rewrite ?length_tl, ?length_removelast; lia).
  rewrite nth_tl, nth_removelast by lia. reflexivity.
Qed.

Lemma slopes_nth (k : nat) : (k < n)%nat -> b k = (y (S k) - y k) * (6 / h k).
Proof.
  intros Hk. pose proof (length_widths points n points_length) as Lh.
  pose proof (length_col1 points n points_length) as Ly.
  unfold b, slopes, Np.mul, Np.sub, Np.rdiv.
  rewrite (nth_map2 _ _ _ _ 0 0)
    by (rewrite ?length_map2, ?length_map, ?length_tl, ?length_removelast; lia).
  rewrite (nth_map2 _ _ _ _ 0 0) by (rewrite ?length_tl, ?length_removelast; lia).
  rewrite (nth_map_in _ _ _ 0) by lia.
  rewrite nth_tl, nth_removelast by lia. reflexivity.
Qed.

Lemma rhs_nth (k : nat) : (S k < n)%nat -> v0 k = b (S k) - b k.
Proof.
  intros Hk. pose proof length_slopes as Lb.
  unfold v0, rhs, Np.sub.
  rewrite (nth_map2 _ _ _ _ 0 0) by (rewrite ?length_tl, ?length_removelast; lia).
  rewrite nth_tl, nth_removelast by lia. reflexivity.
Qed.

Lemma diagonal_positive (k : nat) : (S k < n)%nat -> 0 < u0 k.
Proof.
  intros Hk. rewrite (diagonal_nth k Hk).
  pose proof (width_positive k ltac:(lia)). pose proof (width_positive (S k) ltac:(lia)).
  lra.
Qed.

Lemma u_head : u 0 = u0 0.
Proof. apply isub_tail_head. Qed.

Lemma v_head : v 0 = v0 0.
Proof. apply isub_tail_head. Qed.

Lemma u_tail (k : nat) :
  (S (S k) < n)%nat -> u (S k) = u0 (S k) - h (S k) ^ 2 / u0 k.
Proof.
  intros Hk. apply rank_u_nth.
  - rewrite length_diagonal. lia.
  - rewrite (length_widths points n points_length). lia.
Qed.

Lemma length_m_u : length (m_u m) = (n - 1)%nat.
Proof.
  unfold m, solve_moments, m_u, rank_u, Np.isub_tail.
  pose proof length_diagonal as Lu.
  destruct (diagonal points) as [|d0 d]; simpl in Lu; [simpl; lia|].
  cbn [length]. unfold Np.sub, Np.div, Np.square, Np.inner.
  rewrite !length_map2, length_map, !length_removelast, length_tl.
  rewrite (length_widths points n points_length). simpl. lia.
Qed.

Lemma v_tail (k : nat) :
  (S (S k) < n)%nat -> v (S k) = v0 (S k) - v0 k * (h (S k) / u k).
Proof.
  intros Hk. apply rank_v_nth.
  - rewrite length_rhs. lia.
  - change (S k < length (m_u m))%nat. rewrite length_m_u. lia.
  - rewrite (length_widths points n points_length). lia.
Qed.

(** The divisors of the builder are positive on ascending points: the
    widths, and every cell of [u] after the elimination. *)
Lemma u_positive (k : nat) : (S k < n)%nat -> 0 < u k.
Proof.
  intros Hk. destruct k as [|j].
  - rewrite u_head. now apply diagonal_positive.
  - rewrite (u_tail j Hk), (diagonal_nth (S j) Hk), (diagonal_nth j ltac:(lia)).
    pose proof (width_positive j ltac:(lia)) as H0.
    pose proof (width_positive (S j) ltac:(lia)) as H1.
    pose proof (width_positive (S (S j)) ltac:(lia)) as H2.
    set (a := h j) in *. set (c := h (S j)) in *. set (d := h (S (S j))) in *.
    assert (L : c ^ 2 / (2 * (c + a)) < 2 * (d + c)).
    { apply Qlt_shift_div_r; [lra|].
      pose proof (Qmult_lt_0_compat _ _ H1 H1). pose proof (Qmult_lt_0_compat _ _ H2 H1).
      pose proof (Qmult_lt_0_compat _ _ H2 H0). pose proof (Qmult_lt_0_compat _ _ H1 H0).
      setoid_replace (c ^ 2) with (c * c) by ring.
      setoid_replace (2 * (d + c) * (2 * (c + a)))
        with (4 * (d * c) + 4 * (d * a) + 4 * (c * c) + 4 * (c * a)) by ring.
      lra. }
    lra.
Qed.

(** The cell the loop writes at [i] is the solution of row [i - 1] of the
    eliminated system, with the cell [z_{i+1}] as the loop leaves it. *)
Lemma z_cell (i : nat) :
  (1 <= i)%nat -> (S i <= n)%nat ->
  z i = (v (i - 1) - h i * z (S i)) / u (i - 1).
Proof.
  intros H1 H2. unfold z, m, solve_moments, m_z.
  apply back_substitute_cell; [rewrite points_length; lia|].
  rewrite !length_setitem, repeat_length, points_length. lia.
Qed.

Lemma z_row (i : nat) :
  (1 <= i)%nat -> (S i <= n)%nat ->
  u (i - 1) * z i + h i * z (S i) == v (i - 1).
Proof.
  intros H1 H2. rewrite (z_cell i H1 H2).
  pose proof (u_positive (i - 1) ltac:(lia)) as Hu.
  field. lra.
Qed.

(** The first two equations of the tridiagonal system hold for the moments
    the builder computes. *)
Lemma first_row :
  (2 <= n)%nat -> h 0 * z 0 + 2 * (h 0 + h 1) * z 1 + h 1 * z 2 == b 1 - b 0.
Proof.
  intros Hn. pose proof (z_row 1 ltac:(lia) ltac:(lia)) as R.
  cbn [Nat.sub] in R. rewrite u_head, v_head, (diagonal_nth 0), (rhs_nth 0) in R by lia.
  unfold z at 1. unfold m. rewrite (z_first points n points_length). lra.
Qed.

Lemma second_row :
  (3 <= n)%nat -> h 1 * z 1 + 2 * (h 1 + h 2) * z 2 + h 2 * z 3 == b 2 - b 1.
Proof.
  intros Hn. pose proof (z_row 1 ltac:(lia) ltac:(lia)) as R1.
  pose proof (z_row 2 ltac:(lia) ltac:(lia)) as R2.
  cbn [Nat.sub] in R1, R2.
  rewrite (u_tail 0), (v_tail 0) in R2 by lia.
  rewrite u_head, v_head in *.
  pose proof (diagonal_positive 0 ltac:(lia)) as Hu.
  rewrite (diagonal_nth 1), (rhs_nth 1) in R2 by lia.
  rewrite (rhs_nth 0) in * by lia.
  set (d := u0 0) in *. 
  assert (E : h 1 * z 1 == h 1 * ((b 1 - b 0) - h 1 * z 2) / d).
  { rewrite <- R1. field. lra. }
  rewrite E.
  assert (E2 : (2 * (h 2 + h 1) - h 1 ^ 2 / d) * z 2 + h 2 * z 3
               == 2 * (h 1 + h 2) * z 2 + h 2 * z 3 - h 1 * (h 1 * z 2) / d).
  { field. lra. }
  rewrite E2 in R2.
  assert (E3 : h 1 * (b 1 - b 0 - h 1 * z 2) / d
               == (b 1 - b 0) * (h 1 / d) - h 1 * (h 1 * z 2) / d) by (field; lra).
  rewrite E3. lra.
Qed.

(** *** Points on a line *)

Variables (ca cb : Q).
Hypothesis on_line : collinear ca cb points.

Lemma line_y (i : nat) : (i <= n)%nat -> y i == ca * x i + cb.
Proof.
  intros Hi. unfold y, x, col0, col1.
  rewrite (nth_map_in snd points i (0, 0)), (nth_map_in fst points i (0, 0)) by lia.
  unfold collinear in on_line. rewrite Forall_forall in on_line.
  apply on_line, nth_In. lia.
Qed.

Lemma line_slopes (k : nat) : (k < n)%nat -> b k == 6 * ca.
Proof.
  intros Hk. rewrite (slopes_nth k Hk), (line_y k), (line_y (S k)) by lia.
  pose proof (width_positive k Hk) as Hh.
  assert (E : x (S k) == x k + h k).
  { unfold h, m. rewrite (widths_nth points n points_length k Hk). unfold x. ring. }
  rewrite E. field. lra.
Qed.

Lemma line_rhs (k : nat) : (S k < n)%nat -> v0 k == 0.
Proof.
  intros Hk. rewrite (rhs_nth k Hk), !line_slopes by lia. ring.
Qed.

Lemma line_v (k : nat) : (S k < n)%nat -> v k == 0.
Proof.
  intros Hk. destruct k as [|j].
  - rewrite v_head. now apply line_rhs.
  - rewrite (v_tail j Hk), !line_rhs by lia. ring.
Qed.

(** All moments are zero. *)
Lemma line_z (i : nat) : (i <= n)%nat -> z i == 0.
Proof.
  intros Hi. remember (n - i)%nat as d eqn:Ed. revert i Hi Ed.
  induction d as [|d IH]; intros i Hi Ed.
  - replace i with n by lia. unfold z, m. now rewrite (z_last points n points_length).
  - destruct i as [|i].
    + unfold z, m. now rewrite (z_first points n points_length).
    + rewrite (z_cell (S i)) by lia.
      rewrite (IH (S (S i))) by lia. rewrite line_v by lia.
      pose proof (u_positive (S i - 1) ltac:(lia)) as Hu.
      field. lra.
Qed.

Lemma line_segment (i : nat) (q : Q) :
  (i < n)%nat -> lambdify (segment (moments_S points m) i) q == ca * q + cb.
Proof.
  intros Hi. unfold m. rewrite (moments_segment points n points_length i Hi).
  rewrite moment_form_value.
  pose proof (line_z i ltac:(lia)) as Z0. pose proof (line_z (S i) ltac:(lia)) as Z1.
  pose proof (line_y i ltac:(lia)) as Y0. pose proof (line_y (S i) ltac:(lia)) as Y1.
  pose proof (width_positive i Hi) as Hh.
  assert (E : x (S i) == x i + h i).
  { unfold h, m. rewrite (widths_nth points n points_length i Hi). unfold x. ring. }
  unfold z, y, x, h, m in *. rewrite Z0, Z1, Y0, Y1, E. field. lra.
Qed.

Lemma line_slopes_agree (k : nat) :
  (S k < n)%nat ->
  d1 (segment (moments_S points m) k) (x (S k))
  == d1 (segment (moments_S points m) (S k)) (x (S k)).
Proof.
  intros Hk.
  pose proof (moments_slope_jump points n points_length k Hk) as J. cbv beta in J.
  pose proof (width_positive k ltac:(lia)) as H0.
  pose proof (width_positive (S k) ltac:(lia)) as H1.
  pose proof (slopes_nth k ltac:(lia)) as B0. pose proof (slopes_nth (S k) ltac:(lia)) as B1.
  pose proof (line_slopes k ltac:(lia)) as L0. pose proof (line_slopes (S k) ltac:(lia)) as L1.
  pose proof (line_z k ltac:(lia)) as Z0. pose proof (line_z (S k) ltac:(lia)) as Z1.
  pose proof (line_z (S (S k)) ltac:(lia)) as Z2.
  unfold z, y, x, h, b, m in *.
  rewrite <- B0, <- B1, L0, L1, Z0, Z1, Z2 in J by lra.
  specialize (J ltac:(lra) ltac:(lra)). lra.
Qed.

End Elimination.



(** The cubic with the expanded coefficients of a segment of the moments
    builder is that segment, as a function and in both derivatives. *)
Lemma moment_form_expanded (A B C D a b p : Q) :
  let s := moment_form A B C D a b in
  lambdify (cubic (expanded s)) p == lambdify s p /\
  d1 (cubic (expanded s)) p == d1 s p /\
  d2 (cubic (expanded s)) p == d2 s p.
Proof.
  intros s. unfold expanded. rewrite cubic_value, cubic_d1, cubic_d2.
  unfold s. rewrite moment_form_value, moment_form_d1, moment_form_d2.
  unfold coeff. cbn [as_poly moment_form padd pmul ppow pscale map nth].
  repeat split; ring.
Qed.

Lemma length_expanded_all (segs : list expr) :
  length (expanded_all segs) = (4 * length segs)%nat.
Proof.
  induction segs as [|s segs IH]; [reflexivity|].
  unfold expanded_all in *. cbn [flat_map length app expanded]. rewrite IH. lia.
Qed.

Lemma nth_expanded_all (segs : list expr) (i j : nat) :
  (i < length segs)%nat -> (j < 4)%nat ->
  nth (4 * i + j) (expanded_all segs) 0 = nth j (expanded (segment segs i)) 0.
Proof.
  revert i. induction segs as [|s segs IH]; intros i Hi Hj; simpl in Hi; [lia|].
  destruct i as [|i].
  - unfold expanded_all, segment. cbn [flat_map nth Nat.mul Nat.add].
    rewrite app_nth1 by (simpl; lia). reflexivity.
  - unfold expanded_all, segment in *. cbn [flat_map nth].
    rewrite app_nth2 by (simpl; lia). cbn [length expanded].
    replace (4 * S i + j - 4)%nat with (4 * i + j)%nat by lia.
    apply IH; lia.
Qed.

(** ** One solution only *)

Lemma dot_sub (r a c : list Q) :
  length a = length c ->
  Np2.dot r (Np.map2 Qminus a c) == Np2.dot r a - Np2.dot r c.
Proof.
  revert a c. induction r as [|q r IH]; intros [|qa a] [|qc c] H; simpl in H; try lia;
    try (unfold Np2.dot; simpl; ring).
  cbn [Np.map2]. rewrite !dot_cons, IH by lia. ring.
Qed.

Lemma solve_unique (k : nat) (M : list (list Q)) (A sol c : list Q) :
  square k M -> length A = k -> Np2.solve M A = Ok sol ->
  length c = k ->
  (forall i, (i < k)%nat -> Np2.dot (nth i M []) c == nth i A 0) ->
  forall j, nth j sol 0 == nth j c 0.
Proof.
  intros HM HA Hs Hc Hrows j.
  pose proof (solve_ok_kernel k M A sol HM HA Hs) as Hker.
  destruct (solve_sound k M A sol HM HA Hs) as [Hl Hsol].
  assert (Hz : all_zero (Np.map2 Qminus sol c)).
  { apply Hker.
    - rewrite length_map2. lia.
    - intros i Hi. rewrite dot_sub by lia. rewrite (Hsol i Hi), (Hrows i Hi). ring. }
  destruct (Nat.lt_ge_cases j k) as [Hj|Hj].
  - unfold all_zero in Hz. rewrite Forall_forall in Hz.
    assert (E : nth j (Np.map2 Qminus sol c) 0 == 0).
    { apply Hz, nth_In. rewrite length_map2. lia. }
    rewrite (nth_map2 _ _ _ _ 0 0) in E by lia. lra.
  - rewrite !nth_overflow by lia. reflexivity.
Qed.

(** ** Where the two builders agree

    The segments of the moments builder take the values of their
    breakpoints, share their second derivatives at the interior breakpoints
    and have none at the two ends.  When their first derivatives agree at
    the interior breakpoints as well, their expanded coefficients solve the
    system of the dense builder, which has one solution only. *)

Section Agreement.

Variable points : points_t.
Variable n : nat.
Hypothesis n_pos : (0 < n)%nat.
Hypothesis points_length : length points = S n.
Hypothesis points_ascend : ascending points.

Let x (i : nat) : Q := nth i (col0 points) 0.
Let y (i : nat) : Q := nth i (col1 points) 0.
Let segs : list expr := moments_S points (solve_moments points).
Let co (k : nat) : Q := nth k (expanded_all segs) 0.

Hypothesis slopes_agree : forall k, (S k < n)%nat ->
  d1 (segment segs k) (x (S k)) == d1 (segment segs (S k)) (x (S k)).

Variable coeff_ : list Q.
Hypothesis solved :
  Np2.solve (Np2.rows (4 * n) (build_M (col0 points) n)) (build_A (col1 points) n)
  = Ok coeff_.

Lemma expanded_cells (i : nat) (p : Q) :
  (i < n)%nat ->
  lambdify (segment segs i) p
  == p ^ 3 * co (4 * i) + p ^ 2 * co (4 * i + 1) + p * co (4 * i + 2) + co (4 * i + 3) /\
  d1 (segment segs i) p
  == 3 * p ^ 2 * co (4 * i) + 2 * p * co (4 * i + 1) + co (4 * i + 2) /\
  d2 (segment segs i) p == 6 * p * co (4 * i) + 2 * co (4 * i + 1).
Proof.
  intros Hi.
  assert (Ls : length segs = n) by apply (length_moments_S points n points_length).
  assert (C0 : co (4 * i) = coeff (segment segs i) 3).
  { unfold co. replace (4 * i)%nat with (4 * i + 0)%nat by lia.
    now rewrite nth_expanded_all by lia. }
  assert (C1 : co (4 * i + 1) = coeff (segment segs i) 2)
    by (unfold co; now rewrite nth_expanded_all by lia).
  assert (C2 : co (4 * i + 2) = coeff (segment segs i) 1)
    by (unfold co; now rewrite nth_expanded_all by lia).
  assert (C3 : co (4 * i + 3) = coeff (segment segs i) 0)
    by (unfold co; now rewrite nth_expanded_all by lia).
  rewrite C0, C1, C2, C3. clear C0 C1 C2 C3.
  unfold segs. rewrite (moments_segment points n points_length i Hi).
  match goal with
  | |- context [moment_form ?A ?B ?C ?D ?a ?b] =>
      destruct (moment_form_expanded A B C D a b p) as (E0 & E1 & E2);
      set (s := moment_form A B C D a b) in *
  end.
  clearbody s. rewrite <- E0, <- E1, <- E2. unfold expanded.
  rewrite cubic_value, cubic_d1, cubic_d2. cbn [nth].
  repeat split; ring.
Qed.

Lemma moments_solve_dense (r : nat) :
  (r < 4 * n)%nat ->
  Np2.dot (nth r (Np2.rows (4 * n) (build_M (col0 points) n)) []) (expanded_all segs)
  == nth r (build_A (col1 points) n) 0.
Proof.
  intros Hr.
  assert (Ls : length segs = n) by apply (length_moments_S points n points_length).
  assert (Lc : length (expanded_all segs) = (4 * n)%nat)
    by (rewrite length_expanded_all, Ls; reflexivity).
  assert (Hh : forall k, (k < n)%nat -> ~ nth k (m_h (solve_moments points)) 0 == 0)
    by (intros k Hk; now apply (widths_nonzero points n k)).
  destruct (Nat.lt_ge_cases r n) as [H1|H1];
    [|destruct (Nat.lt_ge_cases r (2 * n)) as [H2|H2];
      [|destruct (Nat.lt_ge_cases r (3 * n - 1)) as [H3|H3];
        [|destruct (Nat.lt_ge_cases r (4 * n - 2)) as [H4|H4]]]].
  - rewrite (equation_left _ _ _ n_pos Lc r H1), (build_A_left points n n_pos points_length) by lia.
    destruct (expanded_cells r (x r) H1) as (E & _ & _).
    destruct (moments_interpolates points n points_length r H1 (Hh r H1)) as [I _].
    unfold Np.getitem. fold (x r). fold (y r). fold segs in I. fold (x r) in I.
    fold (y r) in I. unfold co in E. rewrite <- I, E. reflexivity.
  - replace r with (n + (r - n))%nat by lia. set (i := (r - n)%nat).
    assert (Hi : (i < n)%nat) by (unfold i; lia).
    rewrite (equation_right _ _ _ n_pos Lc i Hi), (build_A_right points n n_pos points_length)
      by lia.
    destruct (expanded_cells i (x (S i)) Hi) as (E & _ & _).
    destruct (moments_interpolates points n points_length i Hi (Hh i Hi)) as [_ I].
    unfold Np.getitem. fold (x (S i)). fold (y (S i)). fold segs in I. fold (x (S i)) in I.
    fold (y (S i)) in I. unfold co in E. rewrite <- I, E. reflexivity.
  - replace r with (2 * n + (r - 2 * n))%nat by lia. set (i := (r - 2 * n)%nat).
    assert (Hi : (i < n - 1)%nat) by (unfold i; lia).
    rewrite (equation_slope _ _ _ n_pos Lc i Hi), (build_A_zero points n n_pos points_length)
      by lia.
    destruct (expanded_cells i (x (S i)) ltac:(lia)) as (_ & E & _).
    destruct (expanded_cells (S i) (x (S i)) ltac:(lia)) as (_ & E' & _).
    pose proof (slopes_agree i ltac:(lia)) as I.
    unfold Np.getitem. fold (x (S i)). unfold co in E, E'.
    replace (4 * S i)%nat with (4 * i + 4)%nat in E' by lia.
    replace (4 * i + 4 + 1)%nat with (4 * i + 5)%nat in E' by lia.
    replace (4 * i + 4 + 2)%nat with (4 * i + 6)%nat in E' by lia.
    rewrite <- E, <- E'. unfold x in *. lra.
  - replace r with (3 * n - 1 + (r - (3 * n - 1)))%nat by lia.
    set (i := (r - (3 * n - 1))%nat).
    assert (Hi : (i < n - 1)%nat) by (unfold i; lia).
    rewrite (equation_curvature _ _ _ n_pos Lc i Hi), (build_A_zero points n n_pos points_length)
      by lia.
    destruct (expanded_cells i (x (S i)) ltac:(lia)) as (_ & _ & E).
    destruct (expanded_cells (S i) (x (S i)) ltac:(lia)) as (_ & _ & E').
    pose proof (moments_curvature_continuous points n points_length i ltac:(lia)
                  (Hh i ltac:(lia)) (Hh (S i) ltac:(lia))) as I.
    fold segs in I. fold (x (S i)) in I.
    unfold Np.getitem. fold (x (S i)). unfold co in E, E'.
    replace (4 * S i)%nat with (4 * i + 4)%nat in E' by lia.
    replace (4 * i + 4 + 1)%nat with (4 * i + 5)%nat in E' by lia.
    rewrite <- E, <- E'. unfold x in *. lra.
  - destruct (moments_natural points n n_pos points_length) as [N1 N2].
    fold segs in N1, N2. fold (x 0%nat) in N1. fold (x n) in N2.
    rewrite (build_A_zero points n n_pos points_length) by lia.
    destruct (Nat.eq_dec r (4 * n - 2)) as [E|E].
    + subst r. rewrite (equation_natural_first _ _ _ n_pos Lc).
      destruct (expanded_cells 0 (x 0%nat) n_pos) as (_ & _ & E0).
      unfold Np.getitem. fold (x 0%nat). unfold co in E0. cbn [Nat.mul Nat.add] in E0.
      rewrite <- E0. exact N1.
    + replace r with (4 * n - 1)%nat by lia.
      rewrite (equation_natural_last _ _ _ n_pos Lc).
      destruct (expanded_cells (n - 1) (x n) ltac:(lia)) as (_ & _ & E0).
      unfold Np.getitem. rewrite (length_col0 points n points_length).
      replace (S n - 1)%nat with n by lia. fold (x n). unfold co in E0.
      replace (4 * (n - 1))%nat with (4 * n - 4)%nat in E0 by lia.
      replace (4 * n - 4 + 1)%nat with (4 * n - 3)%nat in E0 by lia.
      rewrite <- E0. exact N2.
Qed.

(** Segment by segment, the two builders return one function. *)
Lemma segments_agree (i : nat) (q : Q) :
  (i < n)%nat ->
  lambdify (segment (dense_S coeff_ n) i) q == lambdify (segment segs i) q.
Proof.
  intros Hi.
  assert (Ls : length segs = n) by apply (length_moments_S points n points_length).
  assert (Lc : length (expanded_all segs) = (4 * n)%nat)
    by (rewrite length_expanded_all, Ls; reflexivity).
  assert (U : forall j, nth j coeff_ 0 == nth j (expanded_all segs) 0).
  { apply (solve_unique (4 * n) _ _ _ _ (rows_square _ _)
             (length_build_A _ _ (length_col1 points n points_length)) solved Lc).
    apply moments_solve_dense. }
  rewrite (dense_segment points n n_pos points_length coeff_ solved i Hi), cubic_value.
  destruct (expanded_cells i q Hi) as (E & _ & _). rewrite E. unfold co.
  rewrite !U. ring.
Qed.

End Agreement.

(** The first derivatives of the moments builder's segments agree at the
    first two interior breakpoints. *)
Lemma moments_slope_early (points : points_t) (n k : nat) :
  length points = S n -> ascending points -> (k <= 1)%nat -> (S k < n)%nat ->
  let segs := moments_S points (solve_moments points) in
  d1 (segment segs k) (nth (S k) (col0 points) 0)
  == d1 (segment segs (S k)) (nth (S k) (col0 points) 0).
Proof.
  intros HL Hasc Hk Hn segs. unfold segs.
  pose proof (moments_slope_jump points n HL k Hn
                (widths_nonzero points n k HL Hasc ltac:(lia))
                (widths_nonzero points n (S k) HL Hasc ltac:(lia))) as J.
  pose proof (slopes_nth points n HL k ltac:(lia)) as B0.
  pose proof (slopes_nth points n HL (S k) ltac:(lia)) as B1.
  cbv beta in J, B0, B1. rewrite <- B0, <- B1 in J. clear B0 B1.
  destruct k as [|[|k]]; [| |lia].
  - pose proof (first_row points n HL Hasc ltac:(lia)) as R. cbv beta in R. lra.
  - pose proof (second_row points n HL Hasc ltac:(lia)) as R. cbv beta in R. lra.
Qed.

(** X11: for a valid point set the segments of the moments builder share
    their first derivative at the first two interior breakpoints [x_1] and
    [x_2]: the first two rows of the tridiagonal system are eliminated as
    they should be. *)
Theorem X11_moments_slope_continuous_at_first_two (points : points_t) (k : nat) :
  valid points -> (k <= 1)%nat -> (S (S k) < length points)%nat ->
  let x := nth (S k) (col0 (sort_points points)) 0 in
  exists sm,
    cubic_spline4 points = Ok sm /\ length (sp_S sm) = (length points - 1)%nat /\
    d1 (segment (sp_S sm) k) x == d1 (segment (sp_S sm) (S k)) x.
Proof.
  intros Hv Hk Hl x.
  destruct (valid_sorted points Hv) as [Hasc Hlen].
  pose proof (sort_points_length points) as HL.
  destruct (moments_returned points ltac:(lia)) as [Hm Lm].
  eexists. split; [exact Hm|]. cbn [sp_S map_S]. split; [exact Lm|].
  apply (moments_slope_early (sort_points points) (length points - 1) k); auto; lia.
Qed.


(** X13: when the points of a valid set, evenly spaced or not, lie on one
    line [y = a x + b], every segment is that line, in the spline of the
    moments builder and in every spline the dense builder returns. *)
Theorem X13_collinear_points_give_the_line (points : points_t) (a b : Q) :
  valid points -> collinear a b points ->
  let n := (length points - 1)%nat in
  (exists sm,
     cubic_spline4 points = Ok sm /\ length (sp_S sm) = n /\
     forall i q, (i < n)%nat -> lambdify (segment (sp_S sm) i) q == a * q + b) /\
  (forall sd,
     cubic_spline4_matrix points = Ok sd ->
     length (sp_S sd) = n /\
     forall i q, (i < n)%nat -> lambdify (segment (sp_S sd) i) q == a * q + b).
Proof.
  intros Hv Hline n.
  destruct (valid_sorted points Hv) as [Hasc Hlen].
  pose proof (sort_points_length points) as HL.
  destruct Hv as [Hl Hdist].
  assert (Hn : (0 < n)%nat) by (unfold n; lia).
  assert (HLn : length (sort_points points) = S n) by (unfold n; lia).
  assert (Hline' : collinear a b (sort_points points)).
  { unfold collinear in *. eapply Permutation_Forall; [apply sort_points_perm|exact Hline]. }
  destruct (moments_returned points ltac:(lia)) as [Hm Lm]. fold n in Lm.
  split.
  - eexists. split; [exact Hm|]. cbn [sp_S map_S]. split; [exact Lm|].
    intros i q Hi. apply (line_segment (sort_points points) n HLn Hasc a b Hline' i q Hi).
  - intros sd Hd. destruct (dense_returned points sd Hl Hd) as (coeff_ & Es & E & Ld).
    fold n in Es, E, Ld. subst sd. cbn [sp_S map_S]. split; [exact Ld|].
    intros i q Hi.
    rewrite <- (line_segment (sort_points points) n HLn Hasc a b Hline' i q Hi).
    apply (segments_agree (sort_points points) n Hn HLn Hasc); [|exact Es|exact Hi].
    intros k Hk. apply (line_slopes_agree (sort_points points) n HLn Hasc a b Hline' k Hk).
Qed.

(** X9: the back substitution of the moments builder, on a valid point
    set: the end moments [z_0] and [z_n] stay zero, and for every [i] in
    [1 .. n - 1] the moments left by the loop satisfy row [i - 1] of the
    eliminated system, [u_{i-1} z_i + h_i z_{i+1} = v_{i-1}]. *)
Theorem X9_back_substitution_solves_rows (points : points_t) (i : nat) :
  valid points -> (1 <= i)%nat -> (S i < length points)%nat ->
  let m := solve_moments (sort_points points) in
  let z k := nth k (m_z m) 0 in
  z 0%nat = 0 /\ z (length points - 1)%nat = 0 /\
  nth (i - 1) (m_u m) 0 * z i + nth i (m_h m) 0 * z (S i) == nth (i - 1) (m_v m) 0.
Proof.
  intros Hv H1 H2 m z.
  destruct (valid_sorted points Hv) as [Hasc Hlen].
  pose proof (sort_points_length points) as HL.
  set (n := (length points - 1)%nat).
  assert (HLn : length (sort_points points) = S n) by (unfold n; lia).
  split; [apply (z_first _ n HLn)|]. split; [apply (z_last _ n HLn)|].
  apply (z_row _ n HLn Hasc i H1). unfold n. lia.
Qed.

(** ** What the rows of the dense system say *)

Lemma dense_segment_any (c : list Q) (n i : nat) :
  length c = (4 * n)%nat -> (i < n)%nat ->
  segment (dense_S c n) i
  = cubic [nth (4 * i) c 0; nth (4 * i + 1) c 0; nth (4 * i + 2) c 0; nth (4 * i + 3) c 0].
Proof.
  intros Hc Hi. unfold segment, dense_S.
  rewrite (nth_map_in cubic _ _ []) by (rewrite length_reshape4; [lia|exact Hc]).
  now rewrite nth_reshape4.
Qed.

Lemma system_rows (points : points_t) (n : nat) (c : list Q) :
  (0 < n)%nat -> length points = S n -> length c = (4 * n)%nat ->
  let x i := nth i (col0 points) 0 in
  let y i := nth i (col1 points) 0 in
  let s i := segment (dense_S c n) i in
  let lhs r := Np2.dot (nth r (Np2.rows (4 * n) (build_M (col0 points) n)) []) c in
  let rhs_ r := nth r (build_A (col1 points) n) 0 in
  (forall i, (i < n)%nat ->
     lhs i == lambdify (s i) (x i) /\ rhs_ i = y i /\
     lhs (n + i)%nat == lambdify (s i) (x (S i)) /\ rhs_ (n + i)%nat = y (S i)) /\
  (forall i, (S i < n)%nat ->
     lhs (2 * n + i)%nat == d1 (s i) (x (S i)) - d1 (s (S i)) (x (S i)) /\
     rhs_ (2 * n + i)%nat = 0 /\
     lhs (3 * n - 1 + i)%nat == d2 (s i) (x (S i)) - d2 (s (S i)) (x (S i)) /\
     rhs_ (3 * n - 1 + i)%nat = 0) /\
  lhs (4 * n - 2)%nat == d2 (s 0%nat) (x 0%nat) /\ rhs_ (4 * n - 2)%nat = 0 /\
  lhs (4 * n - 1)%nat == d2 (s (n - 1)%nat) (x n) /\ rhs_ (4 * n - 1)%nat = 0.
Proof.
  intros Hn HL Hc x y s lhs rhs_. unfold lhs, rhs_, s.
  split; [|split; [|split; [|split; [|split]]]].
  - intros i Hi. rewrite (dense_segment_any c n i Hc Hi), !cubic_value.
    rewrite (equation_left _ _ _ Hn Hc i Hi), (equation_right _ _ _ Hn Hc i Hi).
    rewrite (build_A_left points n Hn HL i Hi), (build_A_right points n Hn HL i Hi).
    unfold Np.getitem. fold (x i). fold (x (S i)).
    split; [ring|]. split; [reflexivity|]. split; [ring|reflexivity].
  - intros i Hi.
    rewrite (dense_segment_any c n i Hc) by lia.
    rewrite (dense_segment_any c n (S i) Hc) by lia.
    rewrite !cubic_d1, !cubic_d2.
    rewrite (equation_slope _ _ _ Hn Hc i) by lia.
    rewrite (equation_curvature _ _ _ Hn Hc i) by lia.
    rewrite !(build_A_zero points n Hn HL) by lia.
    unfold Np.getitem. fold (x (S i)).
    replace (4 * S i)%nat with (4 * i + 4)%nat by lia.
    replace (4 * i + 4 + 1)%nat with (4 * i + 5)%nat by lia.
    replace (4 * i + 4 + 2)%nat with (4 * i + 6)%nat by lia.
    split; [ring|]. split; [reflexivity|]. split; [ring|reflexivity].
  - rewrite (dense_segment_any c n 0 Hc Hn), cubic_d2.
    rewrite (equation_natural_first _ _ _ Hn Hc).
    unfold Np.getitem. fold (x 0%nat). cbn [Nat.mul Nat.add]. ring.
  - apply (build_A_zero points n Hn HL). lia.
  - rewrite (dense_segment_any c n (n - 1) Hc) by lia. rewrite cubic_d2.
    rewrite (equation_natural_last _ _ _ Hn Hc).
    unfold Np.getitem. rewrite (length_col0 points n HL).
    replace (S n - 1)%nat with n by lia. fold (x n).
    replace (4 * (n - 1))%nat with (4 * n - 4)%nat by lia.
    replace (4 * n - 4 + 1)%nat with (4 * n - 3)%nat by lia. ring.
  - apply (build_A_zero points n Hn HL). lia.
Qed.

Section System.

Variables (points : points_t) (n : nat) (c : list Q).
Hypothesis n_pos : (0 < n)%nat.
Hypothesis points_length : length points = S n.
Hypothesis c_length : length c = (4 * n)%nat.

Let lhs (r : nat) : Q :=
  Np2.dot (nth r (Np2.rows (4 * n) (build_M (col0 points) n)) []) c.
Let rhs_ (r : nat) : Q := nth r (build_A (col1 points) n) 0.

Lemma conditions_from_rows :
  (forall r, (r < 4 * n)%nat -> lhs r == rhs_ r) -> spline_conditions points (dense_S c n).
Proof.
  intros H. destruct (system_rows points n c n_pos points_length c_length)
    as (V & SM & N0 & A0 & N1 & A1).
  unfold lhs, rhs_ in *.
  unfold spline_conditions. rewrite points_length.
  replace (S n - 1)%nat with n by lia. cbv zeta.
  split; [|split; [|split]].
  - intros i Hi. destruct (V i Hi) as (L1 & R1 & L2 & R2).
    rewrite <- L1, <- L2, <- R1, <- R2. split; apply H; lia.
  - intros i Hi. destruct (SM i Hi) as (L1 & R1 & L2 & R2).
    pose proof (H (2 * n + i)%nat ltac:(lia)) as E1.
    pose proof (H (3 * n - 1 + i)%nat ltac:(lia)) as E2.
    rewrite L1, R1 in E1. rewrite L2, R2 in E2. split; lra.
  - rewrite <- N0, <- A0. apply H. lia.
  - rewrite <- N1, <- A1. apply H. lia.
Qed.

Lemma rows_from_conditions :
  spline_conditions points (dense_S c n) ->
  forall r, (r < 4 * n)%nat -> lhs r == rhs_ r.
Proof.
  unfold spline_conditions. rewrite points_length.
  replace (S n - 1)%nat with n by lia. cbv zeta.
  intros (CV & CS & C0 & C1) r Hr.
  destruct (system_rows points n c n_pos points_length c_length)
    as (V & SM & N0 & A0 & N1 & A1).
  unfold lhs, rhs_ in *.
  destruct (Nat.lt_ge_cases r n) as [H1|H1];
    [|destruct (Nat.lt_ge_cases r (2 * n)) as [H2|H2];
      [|destruct (Nat.lt_ge_cases r (3 * n - 1)) as [H3|H3];
        [|destruct (Nat.lt_ge_cases r (4 * n - 2)) as [H4|H4]]]].
  - destruct (V r H1) as (L1 & R1 & _). rewrite L1, R1. apply CV, H1.
  - replace r with (n + (r - n))%nat by lia.
    destruct (V (r - n)%nat ltac:(lia)) as (_ & _ & L2 & R2). rewrite L2, R2.
    apply CV. lia.
  - replace r with (2 * n + (r - 2 * n))%nat by lia.
    destruct (SM (r - 2 * n)%nat ltac:(lia)) as (L1 & R1 & _). rewrite L1, R1.
    destruct (CS (r - 2 * n)%nat ltac:(lia)) as [E _]. lra.
  - replace r with (3 * n - 1 + (r - (3 * n - 1)))%nat by lia.
    destruct (SM (r - (3 * n - 1))%nat ltac:(lia)) as (_ & _ & L2 & R2). rewrite L2, R2.
    destruct (CS (r - (3 * n - 1))%nat ltac:(lia)) as [_ E]. lra.
  - destruct (Nat.eq_dec r (4 * n - 2)) as [E|E].
    + subst r. rewrite N0, A0. exact C0.
    + replace r with (4 * n - 1)%nat by lia. rewrite N1, A1. exact C1.
Qed.

End System.



(** ** The elimination on at most four points *)

Lemma rank_small (h u v : Np.array) :
  (length u <= 2)%nat -> length v = length u ->
  (length u = 2%nat -> length h = 3%nat) ->
  Forall2 Qeq (rank_u h u) (fst (thomas_forward h u v)) /\
  Forall2 Qeq (rank_v h (rank_u h u) v) (snd (thomas_forward h u v)).
Proof.
  intros Hu Hv Hh.
  destruct u as [|u0 [|u1 [|u2 u]]]; simpl in Hu; try lia;
    destruct v as [|v0 [|v1 [|v2 v]]]; simpl in Hv; try lia;
    destruct h as [|h0 [|h1 [|h2 [|h3 h]]]]; simpl in Hh; try (specialize (Hh eq_refl); lia);
    (split; repeat constructor; try reflexivity).
  all: cbn [Np.getitem nth Nat.sub]; unfold Qdiv; try ring.
Qed.

(** X10: on at most four points the two vectorized statements under
    [# rank] compute what the sequential elimination of the specification
    computes, cell by cell: with at most two unknowns no cell is read after
    it has been written. *)
Theorem X10_elimination_is_sequential_up_to_four_points (points : points_t) :
  (length points <= 4)%nat ->
  let p := sort_points points in
  let m := solve_moments p in
  let seq_uv := thomas_forward (widths p) (diagonal p) (rhs p) in
  Forall2 Qeq (m_u m) (fst seq_uv) /\ Forall2 Qeq (m_v m) (snd seq_uv).
Proof.
  intros Hl p m seq_uv.
  pose proof (sort_points_length points) as HL. fold p in HL.
  destruct (Nat.eq_dec (length points) 0) as [E0|E0].
  - assert (Ep : p = []) by (destruct p; [reflexivity|simpl in HL; lia]).
    unfold m, seq_uv. rewrite Ep. split; constructor.
  - set (n := (length points - 1)%nat).
    assert (HLn : length p = S n) by (unfold n; lia).
    apply rank_small.
    + rewrite (length_diagonal p n HLn). unfold n. lia.
    + now rewrite (length_rhs p n HLn), (length_diagonal p n HLn).
    + rewrite (length_diagonal p n HLn), (length_widths p n HLn). unfold n. lia.
Qed.

(** ** The theorems above at sample inputs *)

Lemma X2_domain_covers_inputs_witness :
  valid pts_sample /\
  (cubic_spline4_matrix pts_sample = Ok sample_spline \/
   cubic_spline4 pts_sample = Ok sample_spline) /\
  sp_n sample_spline = (length pts_sample - 1)%nat /\
  length (sp_S sample_spline) = sp_n sample_spline /\
  (forall q, In q (col0 pts_sample) -> sp_start sample_spline <= q <= sp_end sample_spline) /\
  (exists q, In q (col0 pts_sample) /\ sp_start sample_spline == q) /\
  (exists q, In q (col0 pts_sample) /\ sp_end sample_spline == q).
Proof.
  assert (H : valid pts_sample) by concrete_valid.
  assert (B : cubic_spline4_matrix pts_sample = Ok sample_spline \/
              cubic_spline4 pts_sample = Ok sample_spline)
    by (right; vm_compute; reflexivity).
  split; [exact H|]. split; [exact B|].
  exact (X2_domain_covers_inputs pts_sample sample_spline H B).
Defined.






Lemma X8_moments_second_derivative_continuous_witness :
  valid pts5 /\ (4 < length pts5)%nat /\
  let x := nth 3 (col0 (sort_points pts5)) 0 in
  exists sm,
    cubic_spline4 pts5 = Ok sm /\ length (sp_S sm) = (length pts5 - 1)%nat /\
    d2 (segment (sp_S sm) 2) x == d2 (segment (sp_S sm) 3) x.
Proof.
  assert (H1 : valid pts5) by concrete_valid.
  assert (H2 : (4 < length pts5)%nat) by (simpl; lia).
  split; [exact H1|]. split; [exact H2|].
  exact (X8_moments_second_derivative_continuous pts5 2 H1 H2).
Defined.

Lemma X9_back_substitution_solves_rows_witness :
  valid pts5 /\ (1 <= 2)%nat /\ (3 < length pts5)%nat /\
  let m := solve_moments (sort_points pts5) in
  let z k := nth k (m_z m) 0 in
  z 0%nat = 0 /\ z (length pts5 - 1)%nat = 0 /\
  nth (2 - 1) (m_u m) 0 * z 2%nat + nth 2 (m_h m) 0 * z 3%nat == nth (2 - 1) (m_v m) 0.
Proof.
  assert (H1 : valid pts5) by concrete_valid.
  assert (H2 : (1 <= 2)%nat) by lia.
  assert (H3 : (3 < length pts5)%nat) by (simpl; lia).
  split; [exact H1|]. split; [exact H2|]. split; [exact H3|].
  exact (X9_back_substitution_solves_rows pts5 2 H1 H2 H3).
Defined.

Lemma X10_elimination_is_sequential_up_to_four_points_witness :
  (length pts_uneven <= 4)%nat /\
  let p := sort_points pts_uneven in
  let m := solve_moments p in
  let seq_uv := thomas_forward (widths p) (diagonal p) (rhs p) in
  Forall2 Qeq (m_u m) (fst seq_uv) /\ Forall2 Qeq (m_v m) (snd seq_uv).
Proof.
  assert (H : (length pts_uneven <= 4)%nat) by (simpl; lia).
  split; [exact H|]. exact (X10_elimination_is_sequential_up_to_four_points pts_uneven H).
Defined.

Lemma X11_moments_slope_continuous_at_first_two_witness :
  valid pts5 /\ (1 <= 1)%nat /\ (3 < length pts5)%nat /\
  let x := nth 2 (col0 (sort_points pts5)) 0 in
  exists sm,
    cubic_spline4 pts5 = Ok sm /\ length (sp_S sm) = (length pts5 - 1)%nat /\
    d1 (segment (sp_S sm) 1) x == d1 (segment (sp_S sm) 2) x.
Proof.
  assert (H1 : valid pts5) by concrete_valid.
  assert (H2 : (1 <= 1)%nat) by lia.
  assert (H3 : (3 < length pts5)%nat) by (simpl; lia).
  split; [exact H1|]. split; [exact H2|]. split; [exact H3|].
  exact (X11_moments_slope_continuous_at_first_two pts5 1 H1 H2 H3).
Defined.


Lemma X13_collinear_points_give_the_line_witness :
  valid [(0, 1); (1, 3); (3, 7)] /\ collinear 2 1 [(0, 1); (1, 3); (3, 7)] /\
  let n := (length [(0, 1); (1, 3); (3, 7)] - 1)%nat in
  (exists sm,
     cubic_spline4 [(0, 1); (1, 3); (3, 7)] = Ok sm /\ length (sp_S sm) = n /\
     forall i q, (i < n)%nat -> lambdify (segment (sp_S sm) i) q == 2 * q + 1) /\
  (exists sd,
     cubic_spline4_matrix [(0, 1); (1, 3); (3, 7)] = Ok sd /\
     length (sp_S sd) = n /\
     forall i q, (i < n)%nat -> lambdify (segment (sp_S sd) i) q == 2 * q + 1).
Proof.
  assert (H1 : valid [(0, 1); (1, 3); (3, 7)]) by concrete_valid.
  assert (H2 : collinear 2 1 [(0, 1); (1, 3); (3, 7)])
    by (repeat constructor; vm_compute; reflexivity).
  split; [exact H1|]. split; [exact H2|].
  destruct (X13_collinear_points_give_the_line [(0, 1); (1, 3); (3, 7)] 2 1 H1 H2)
    as [Hm Hd].
  split; [exact Hm|].
  eexists. split; [vm_compute; reflexivity|]. apply Hd. vm_compute. reflexivity.
Defined.
